(** * AACS broadcast encryption: a shallow embedding of [src/aacs]

    The development follows the three Python modules of the package:
    [encryption.py] (random keys, padding, the AES-CBC wrappers),
    [tree.py] (the complete binary key tree) and [__init__.py] (the
    [AACS] engine: cover computation, revocation, encrypt and
    decrypt).  Python integers are [Z], byte strings are lists of
    [Byte.byte], the [nodes] dictionary is a [gmap], the device sets
    [S] and [T] are [gset]s.  Exceptions, and the one loop of the
    package that need not terminate, are explicit in the type
    [outcome]; the draws from [os.urandom] read a random tape that is
    threaded through the code as state. *)

From Stdlib Require Import ZArith Lia Strings.String Strings.Byte DecimalString.
From stdpp Require Import base option list sorting gmap.

Open Scope Z_scope.

(** ** Values, exceptions, effects *)

Abbreviation bytes := (list byte).

Global Instance byte_eq_dec : EqDecision byte := Byte.byte_eq_dec.

Inductive exn : Type :=
| KeyNotFound (msg : string)
| ValueError (msg : string)
| IndexError
| KeyError (key : Z)
| ZeroDivisionError
| OverflowError.

(** What a call does: it returns, it raises, or it never comes back. *)
Inductive outcome (A : Type) : Type :=
| Ok (a : A)
| Raise (e : exn)
| Diverge.
Arguments Ok {A} a.
Arguments Raise {A} e.
Arguments Diverge {A}.

Definition obind {A B} (x : outcome A) (f : A -> outcome B) : outcome B :=
  match x with
  | Ok a => f a
  | Raise e => Raise e
  | Diverge => Diverge
  end.

(** The operating system's random source: an infinite tape of bytes and
    the position of the next byte to hand out. *)
Record rng : Type := Rng { tape : nat -> byte; pos : nat }.

(** Code that draws random bytes and may raise. *)
Definition M (A : Type) : Type := rng -> outcome (A * rng).

Definition ret {A} (a : A) : M A := fun r => Ok (a, r).
Definition bind {A B} (x : M A) (f : A -> M B) : M B :=
  fun r => match x r with
           | Ok (a, r') => f a r'
           | Raise e => Raise e
           | Diverge => Diverge
           end.
Definition lift {A} (x : outcome A) : M A :=
  fun r => match x with
           | Ok a => Ok (a, r)
           | Raise e => Raise e
           | Diverge => Diverge
           end.

Global Instance outcome_ret : MRet outcome := fun _ a => Ok a.
Global Instance outcome_bind : MBind outcome := fun _ _ f x => obind x f.
Global Instance M_ret : MRet M := fun _ a => ret a.
Global Instance M_bind : MBind M := fun _ _ f x => bind x f.

(** Python's [len], and the three slices the package uses. *)
Definition len {A} (m : list A) : Z := Z.of_nat (length m).

(** [b.startswith(p)] *)
Fixpoint startswith (b p : bytes) {struct p} : bool :=
  match p, b with
  | [], _ => true
  | _ :: _, [] => false
  | y :: p', x :: b' => Byte.eqb x y && startswith b' p'
  end.

(** [int.to_bytes()] with its defaults: one byte, unsigned. *)
Definition to_bytes (z : Z) : option byte :=
  if z <? 0 then None else Byte.of_N (Z.to_N z).

(** The value [m[i]] of a byte is a Python [int]. *)
Definition byte_val (b : byte) : Z := Z.of_N (Byte.to_N b).

(** ** encryption.py *)

Definition os_urandom (size : Z) : M bytes :=
  fun r =>
    if size <? 0 then Raise (ValueError "negative argument not allowed")
    else let k := Z.to_nat size in
         Ok (map (tape r) (seq (pos r) k), Rng (tape r) (pos r + k)).

Definition get_random_key (bit_size : Z) : M bytes :=
  os_urandom (bit_size / 8).

Definition add_padding_bits (m : bytes) (bit_size : Z) : outcome bytes :=
  let l := len m in
  if bit_size / 8 =? 0 then Raise ZeroDivisionError
  else
    let p := bit_size / 8 - l mod (bit_size / 8) in
    match to_bytes (p - 1) with
    | None => Raise OverflowError
    | Some v => Ok (m ++ repeat v (Z.to_nat p))
    end.

(** [add_padding(m)], the block size left at its default of 128 bits. *)
Definition add_padding (m : bytes) : outcome bytes := add_padding_bits m 128.

Definition remove_padding (m : bytes) : outcome bytes :=
  match last m with
  | None => Raise IndexError
  | Some b =>
      let v := byte_val b in
      let p := v + 1 in
      Ok (take (length m - Z.to_nat p) m)
  end.

(** The [cryptography] package is outside the repository.  Its AES-CBC
    transformation is an interface here: two functions from key,
    initialisation vector and data to data.  The package's argument
    checks, all of which raise [ValueError], are written out in the two
    wrappers below: the key has 16, 24 or 32 bytes, the vector 16, and
    the data is a whole number of 16-byte blocks. *)
Class Cipher : Type := {
  cbc_encrypt : bytes -> bytes -> bytes -> bytes;
  cbc_decrypt : bytes -> bytes -> bytes -> bytes
}.

Definition aes_key_ok (key : bytes) : bool :=
  let l := length key in
  (l =? 16)%nat || (l =? 24)%nat || (l =? 32)%nat.

(** A number in decimal, as an f-string prints it. *)
Definition decimal (k : nat) : string := NilEmpty.string_of_uint (Nat.to_uint k).

(** The messages are the package's: the key size is given in bits, the
    size of the vector in bytes. *)
Definition aes_check (key iv data : bytes) : outcome unit :=
  if negb (aes_key_ok key)
  then Raise (ValueError (String.append "Invalid key size ("
                (String.append (decimal (length key * 8)) ") for AES.")))
  else if negb (length iv =? 16)%nat
  then Raise (ValueError (String.append "Invalid IV size ("
                (String.append (decimal (length iv)) ") for CBC.")))
  else if negb (length data mod 16 =? 0)%nat
  then Raise (ValueError
         "The length of the provided data is not a multiple of the block length.")
  else Ok tt.

Definition AES_encrypt `{Cipher} (key plaintext : bytes) : M (bytes * bytes) :=
  iv ← os_urandom 16;
  _ ← lift (aes_check key iv plaintext);
  mret (iv, cbc_encrypt key iv plaintext).

Definition AES_decrypt `{Cipher} (key iv ciphertext : bytes) : outcome bytes :=
  _ ← aes_check key iv ciphertext;
  mret (cbc_decrypt key iv ciphertext).

(** ** tree.py *)

Definition get_parent (node_id : Z) : Z := node_id / 2.

Definition get_sibling (node_id : Z) : Z :=
  if negb (node_id mod 2 =? 0) then node_id - 1 else node_id + 1.

(** The loop [while path[-1] != 1] of [get_path_to_root].  It runs for
    ever from an id below 1; the fuel [get_path_to_root] supplies is
    enough for every other id (lemma [get_path_to_root_total]). *)
Fixpoint path_loop (fuel : nat) (path : list Z) (id : Z) : outcome (list Z) :=
  match last path with
  | None => Raise IndexError
  | Some e =>
      if e =? 1 then Ok path
      else match fuel with
           | O => Diverge
           | S fuel' =>
               let id' := get_parent id in
               path_loop fuel' (path ++ [id']) id'
           end
  end.

Definition get_path_to_root (node_id : Z) : outcome (list Z) :=
  path_loop (Z.to_nat node_id) [node_id] node_id.

(** [range(a, b)] *)
Definition range (a b : Z) : list Z := seqZ a (b - a).

Record BinaryTree : Type := mkBinaryTree {
  n : Z;
  t : Z;
  depth : Z;
  nodes : gmap Z bytes;
  first_leaf : Z;
  last_leaf : Z
}.

(** The loop of the constructor that draws one key per node id. *)
Fixpoint fill_nodes (ids : list Z) (nodes : gmap Z bytes) : M (gmap Z bytes) :=
  match ids with
  | [] => mret nodes
  | i :: ids' =>
      key ← get_random_key 128;
      fill_nodes ids' (<[i := key]> nodes)
  end.

(** [ceil(log2(n))].  [math.log2] rejects an argument that is not
    positive.  The value is the exact one.  The floating-point detour
    of the source departs from it from [n = 2**49 + 1] on, where
    [log2] rounds down to 49.0: far beyond any tree that fits in a
    memory, the constructor drawing one key for each of more than
    [2**50] nodes. *)
Definition ceil_log2 (n : Z) : outcome Z :=
  if n <=? 0 then Raise (ValueError "math domain error") else Ok (Z.log2_up n).

Definition BinaryTree_init (n : Z) : M BinaryTree :=
  t ← lift (ceil_log2 n);
  let depth := t + 1 in
  let first_leaf := 2 ^ t in
  let last_leaf := 2 ^ (t + 1) - 1 in
  nodes ← fill_nodes (range 1 (last_leaf + 1)) ∅;
  mret (mkBinaryTree n t depth nodes first_leaf last_leaf).

Definition get_leaves (self : BinaryTree) : list Z :=
  range (first_leaf self) (last_leaf self + 1).

(** ** __init__.py *)

Definition TAG_VALID : bytes := list_byte_of_string "is_valid_aacskey".
Definition TAG_SEPARATOR : bytes := list_byte_of_string "END_OF_KEYS".

(** [AACS] extends [BinaryTree]: the tree's attributes, then its own. *)
Record AACS : Type := mkAACS {
  tree : BinaryTree;
  self_S : gset Z;
  self_T : gset Z;
  S_cover : list Z
}.

(** The inner loop of [__get_S_cover]: the siblings along one path. *)
Definition add_siblings (path : list Z) (cover : gset Z) : gset Z :=
  foldl (fun cover j =>
           if negb (j =? 1) then {[ get_sibling j ]} ∪ cover else cover)
        cover path.

(** The outer loop, over the revoked devices. *)
Fixpoint cover_loop (revoked : list Z) (cover : gset Z) : outcome (gset Z) :=
  match revoked with
  | [] => Ok cover
  | i :: revoked' =>
      path ← get_path_to_root i;
      cover_loop revoked' (add_siblings path cover)
  end.

Definition get_S_cover (self : AACS) : outcome (list Z) :=
  cover ← (if Z.of_nat (size (self_S self)) =? n (tree self)
           then Ok ({[ 1 ]} : gset Z)
           else cover_loop (elements (self_T self)) ∅);
  mret (merge_sort Z.le (elements cover)).

Definition AACS_init (n : Z) : M AACS :=
  tree ← BinaryTree_init n;
  let S : gset Z := list_to_set (get_leaves tree) in
  let T : gset Z := ∅ in
  S_cover ← lift (get_S_cover (mkAACS tree S T []));
  mret (mkAACS tree S T S_cover).

Definition revoke (self : AACS) (id : Z) : outcome (bool * AACS) :=
  if decide (id ∈ self_S self) then
    let S := self_S self ∖ {[ id ]} in
    let T := {[ id ]} ∪ self_T self in
    S_cover ← get_S_cover (mkAACS (tree self) S T (S_cover self));
    mret (true, mkAACS (tree self) S T S_cover)
  else mret (false, self).

(** [self.nodes[id]] *)
Definition node_key (self : AACS) (id : Z) : outcome bytes :=
  match nodes (tree self) !! id with
  | Some key => Ok key
  | None => Raise (KeyError id)
  end.

Fixpoint keys_of (self : AACS) (ids : list Z) : outcome (list bytes) :=
  match ids with
  | [] => Ok []
  | id :: ids' =>
      key ← node_key self id;
      keys ← keys_of self ids';
      mret (key :: keys)
  end.

Definition get_known_keys (self : AACS) (node_id : Z) : outcome (list bytes) :=
  path ← get_path_to_root node_id;
  keys_of self path.

Section Codec.
Context `{Cipher}.

(** The loop of [encrypt] over the cover: one key block per node. *)
Fixpoint encrypt_keys (self : AACS) (cover : list Z) (k : bytes)
  : M (list bytes) :=
  match cover with
  | [] => mret []
  | u :: cover' =>
      k_u ← lift (node_key self u);
      c_u ← AES_encrypt k_u (TAG_VALID ++ k);
      encrypted_keys ← encrypt_keys self cover' k;
      mret ((c_u.1 ++ c_u.2) :: encrypted_keys)
  end.

Definition encrypt (self : AACS) (m : bytes) : M bytes :=
  k ← get_random_key 128;
  encrypted_keys ← encrypt_keys self (S_cover self) k;
  padded ← lift (add_padding m);
  c ← AES_encrypt k padded;
  mret (concat encrypted_keys ++ TAG_SEPARATOR ++ c.1 ++ c.2).

Definition ENCRYPTED_KEY_SIZE : nat := 384 / 8.
Definition IV_SIZE : nat := 128 / 8.

(** The [for k_u in ...] loop of [decrypt]: the content key, when one
    of the known keys opens the key block [c_u]. *)
Fixpoint try_keys (known_keys : list bytes) (c_u : bytes)
  : outcome (option bytes) :=
  match known_keys with
  | [] => Ok None
  | k_u :: known_keys' =>
      k ← AES_decrypt k_u (take IV_SIZE c_u) (drop IV_SIZE c_u);
      if startswith k TAG_VALID then Ok (Some (drop (length TAG_VALID) k))
      else try_keys known_keys' c_u
  end.

(** The [while] loop of [decrypt].  The content key found so far is
    [k]; [keep_searching] is true exactly while there is none.  The
    result is [separator_found], [k] and what is left of [c].  Every
    round drops a key block from a stream that is not empty, so fuel
    equal to the length of the stream is never used up. *)
Fixpoint scan (fuel : nat) (self : AACS) (node_id : Z)
         (k : option bytes) (c : bytes)
  : outcome (bool * option bytes * bytes) :=
  match c with
  | [] => Ok (false, k, c)
  | _ :: _ =>
      if startswith c TAG_SEPARATOR then Ok (true, k, c)
      else
        match fuel with
        | O => Diverge
        | S fuel' =>
            k' ← match k with
                 | None =>
                     let c_u := take ENCRYPTED_KEY_SIZE c in
                     known_keys ← get_known_keys self node_id;
                     try_keys known_keys c_u
                 | Some _ => Ok k
                 end;
            scan fuel' self node_id k' (drop ENCRYPTED_KEY_SIZE c)
        end
  end.

Definition decrypt (self : AACS) (node_id : Z) (c : bytes) : outcome bytes :=
  st ← scan (length c) self node_id None c;
  let '(separator_found, k, c) := st in
  match k with
  | None => Raise (KeyNotFound "The key couldn't be retrieved")
  | Some k =>
      if negb separator_found then Raise (ValueError "Separator not found")
      else
        let c := drop (length TAG_SEPARATOR) c in
        m ← AES_decrypt k (take 16 c) (drop 16 c);
        remove_padding m
  end.
End Codec.

(** ** __main__.py *)

Definition NUMBER_OF_DEVICES : Z := 8.

Definition device_id_to_node_id (tree_levels device_id : Z) : Z :=
  device_id + 2 ^ tree_levels - 1.

(** The loop of [main] over the device ids the user named,
    [for id in ...: aacs.revoke(device_id_to_node_id(aacs.t, id))].
    The ids come out of a Python set: [devices] lists them in the order
    in which the set hands them out, whichever that is. *)
Fixpoint revoke_devices (aacs : AACS) (devices : list Z) : outcome AACS :=
  match devices with
  | [] => Ok aacs
  | id :: devices' =>
      r ← revoke aacs (device_id_to_node_id (t (tree aacs)) id);
      revoke_devices r.2 devices'
  end.

(** ** A concrete cipher and a concrete random tape

    The statements below that hold for every cipher are stated over the
    interface [Cipher].  To run the code on concrete inputs an instance
    is needed: a stream cipher that masks byte [i] of the data with byte
    [i mod 16] of the key and of the initialisation vector.  It keeps the
    length of the data, decryption undoes encryption, and decrypting a
    key block under any other 16-byte key never shows the validity
    marker (lemmas [xor_cipher_inverse], [xor_cipher_wrong_key]). *)

Definition xor8 (a b : bool * (bool * (bool * (bool * (bool * (bool * (bool * bool)))))))
  : bool * (bool * (bool * (bool * (bool * (bool * (bool * bool)))))) :=
  let '(a0, (a1, (a2, (a3, (a4, (a5, (a6, a7))))))) := a in
  let '(b0, (b1, (b2, (b3, (b4, (b5, (b6, b7))))))) := b in
  (xorb a0 b0, (xorb a1 b1, (xorb a2 b2, (xorb a3 b3,
   (xorb a4 b4, (xorb a5 b5, (xorb a6 b6, xorb a7 b7))))))).

Definition bxor (a b : byte) : byte :=
  Byte.of_bits (xor8 (Byte.to_bits a) (Byte.to_bits b)).

Definition mask (key iv : bytes) (i : nat) : byte :=
  bxor (nth (i mod 16) key x00) (nth (i mod 16) iv x00).

Definition xor_crypt (key iv data : bytes) : bytes :=
  imap (fun i x => bxor x (mask key iv i)) data.

Definition xor_cipher : Cipher :=
  {| cbc_encrypt := xor_crypt; cbc_decrypt := xor_crypt |}.

(** A tape whose [i]-th block of 16 bytes repeats the byte [i mod 256]:
    the keys of the first 256 nodes are pairwise different, and no draw
    of 16 bytes starts with the separator. *)
Definition demo_tape (i : nat) : byte :=
  default x00 (Byte.of_nat ((i / 16) mod 256)).

Definition demo_rng : rng := Rng demo_tape 0.

(** Running a computation from the start of [demo_tape]. *)
Definition run {A} (x : M A) : outcome A :=
  match x demo_rng with
  | Ok (a, _) => Ok a
  | Raise e => Raise e
  | Diverge => Diverge
  end.

(** [AACS(n)] followed by [revoke(id)] for the ids of a list, in order. *)
Fixpoint revoke_all (self : AACS) (ids : list Z) : outcome AACS :=
  match ids with
  | [] => Ok self
  | id :: ids' =>
      r ← revoke self id;
      revoke_all r.2 ids'
  end.

Definition engine (n : Z) (ids : list Z) : M AACS :=
  self ← AACS_init n;
  lift (revoke_all self ids).

(** ** The vocabulary of the specification *)

(** The states an engine can be in: built by the constructor, then
    changed by calls of [revoke] only. *)
Inductive reachable : AACS -> Prop :=
| reach_init (n : Z) (r : rng) (self : AACS) (r' : rng) :
    AACS_init n r = Ok (self, r') -> reachable self
| reach_revoke (self : AACS) (id : Z) (b : bool) (self' : AACS) :
    reachable self -> revoke self id = Ok (b, self') -> reachable self'.

Definition is_leaf (tr : BinaryTree) (x : Z) : Prop :=
  first_leaf tr ≤ x ≤ last_leaf tr.

(** What every reachable state satisfies: the tree is the complete tree
    of depth [t] with a 16-byte key at every node, the valid and the
    revoked devices split the leaves, and the stored cover is the one
    [__get_S_cover] computes from the two sets. *)
Record wf (self : AACS) : Prop := {
  wf_t : 0 ≤ t (tree self);
  wf_first : first_leaf (tree self) = 2 ^ t (tree self);
  wf_last : last_leaf (tree self) = 2 ^ (t (tree self) + 1) - 1;
  wf_nodes : ∀ i, 1 ≤ i ≤ last_leaf (tree self) →
             ∃ key, nodes (tree self) !! i = Some key ∧ length key = 16%nat;
  wf_S : ∀ x, x ∈ self_S self ↔ is_leaf (tree self) x ∧ x ∉ self_T self;
  wf_T : ∀ x, x ∈ self_T self → is_leaf (tree self) x;
  wf_cover : get_S_cover self = Ok (S_cover self)
}.

(** [on_path u x]: node [u] is [x] or one of its ancestors. *)
Definition on_path (u x : Z) : bool :=
  match get_path_to_root x with
  | Ok path => bool_decide (u ∈ path)
  | _ => false
  end.

(** The leaves below a node, the node included when it is a leaf. *)
Definition leaf_descendants (tr : BinaryTree) (u : Z) : gset Z :=
  list_to_set (filter (fun x => on_path u x = true) (get_leaves tr)).

(** The devices a cover reaches. *)
Definition covered (tr : BinaryTree) (cover : list Z) : gset Z :=
  ⋃ (leaf_descendants tr <$> cover).

(** No node of the cover is an ancestor of another one. *)
Definition antichain (cover : list Z) : Prop :=
  Forall (fun u => Forall (fun v => u = v ∨ on_path u v = false) cover) cover.

(** The cover property of the specification: the cover reaches exactly
    the valid devices, and it is an antichain. *)
Definition cover_invariant (self : AACS) : Prop :=
  covered (tree self) (S_cover self) = self_S self ∧ antichain (S_cover self).

(** The result of a computation that is known to return, for naming
    concrete engines; [default] stands in where it does not. *)
Definition returned {A} (default : A) (x : outcome A) : A :=
  match x with
  | Ok a => a
  | _ => default
  end.

Definition no_engine : AACS := mkAACS (mkBinaryTree 0 0 0 ∅ 0 0) ∅ ∅ [].

(** [AACS(8)], the engine the command line builds, on [demo_tape]. *)
Definition demo_engine : AACS := returned no_engine (run (AACS_init 8)).

(** ** What is assumed of the cipher

    Three properties of AES-CBC as the [cryptography] package provides
    it, each on arguments that pass the package's checks.  The first two
    are facts about CBC; the third is the idealisation under which the
    specification speaks of trial decryption: a key block decrypted
    under another key than its own never shows the validity marker. *)

Definition keeps_length (C : Cipher) : Prop :=
  ∀ key iv data, aes_check key iv data = Ok () →
    length (cbc_encrypt key iv data) = length data
    ∧ length (cbc_decrypt key iv data) = length data.

Definition decrypt_inverts (C : Cipher) : Prop :=
  ∀ key iv data, aes_check key iv data = Ok () →
    cbc_decrypt key iv (cbc_encrypt key iv data) = data.

Definition marker_ideal (C : Cipher) : Prop :=
  ∀ key key' iv k,
    key ≠ key' → length key = 16%nat → length key' = 16%nat →
    length iv = 16%nat → length k = 16%nat →
    startswith (cbc_decrypt key' iv (cbc_encrypt key iv (TAG_VALID ++ k)))
               TAG_VALID = false.

(** ** The stream [encrypt] writes, position by position *)

(** The key of a node, for the nodes that have one. *)
Definition key_at (self : AACS) (u : Z) : bytes :=
  default [] (nodes (tree self) !! u).

(** The 16 bytes the tape holds [off] bytes ahead. *)
Definition draw (r : rng) (off : nat) : bytes :=
  map (tape r) (seq (pos r + off) 16).

(** A key block: the vector, then marker and content key under [key]. *)
Definition key_block `{Cipher} (key iv k : bytes) : bytes :=
  iv ++ cbc_encrypt key iv (TAG_VALID ++ k).

(** The key blocks of a cover when the content key is [k] and the
    vectors are drawn from [r] on. *)
Definition key_blocks `{Cipher} (self : AACS) (cover : list Z) (k : bytes)
           (r : rng) : list bytes :=
  imap (fun i u => key_block (key_at self u) (draw r (16 * i)) k) cover.

(** ** The stream [decrypt] reads, stride by stride *)

(** What is left of the stream at the [i]-th stride. *)
Definition stride (c : bytes) (i : nat) : bytes :=
  drop (i * ENCRYPTED_KEY_SIZE) c.

(** The strides at which the stream is not yet exhausted. *)
Definition strides (c : bytes) : list bytes :=
  stride c <$> seq 0 ((length c + 47) / 48).

(** The first stride that starts with the separator, if there is one. *)
Fixpoint at_separator (ss : list bytes) : option bytes :=
  match ss with
  | [] => None
  | s :: ss' => if startswith s TAG_SEPARATOR then Some s else at_separator ss'
  end.

(** The key blocks in front of that stride, or all of them. *)
Fixpoint until_separator (ss : list bytes) : list bytes :=
  match ss with
  | [] => []
  | s :: ss' =>
      if startswith s TAG_SEPARATOR then []
      else take ENCRYPTED_KEY_SIZE s :: until_separator ss'
  end.

Definition scanned (c : bytes) : list bytes := until_separator (strides c).


(** The content key that the first key block to open gives to a device
    whose known keys are [known], trying the blocks in order. *)
Fixpoint first_key `{Cipher} (known : outcome (list bytes))
         (blocks : list bytes) : outcome (option bytes) :=
  match blocks with
  | [] => Ok None
  | block :: blocks' =>
      known_keys ← known;
      k ← try_keys known_keys block;
      match k with
      | Some _ => Ok k
      | None => first_key known blocks'
      end
  end.

(** None of the [count] vectors that [encrypt] draws for its key blocks,
    from the generator [r] on, starts with the separator.  (The content
    key is drawn first, the vectors after it.) *)
Definition vectors_clear (r : rng) (count : nat) : Prop :=
  Forall (fun i => startswith (draw r (16 * S i)) TAG_SEPARATOR = false)
         (seq 0 count).

(** The device [node_id] holds the key of some node of the cover. *)
Definition holds_cover_key (self : AACS) (node_id : Z) : Prop :=
  ∃ path, get_path_to_root node_id = Ok path
          ∧ Exists (fun u => key_at self u ∈ key_at self <$> path) (S_cover self).

(** Running a computation from position [p] of [demo_tape]. *)
Definition run_at {A} (p : nat) (x : M A) : outcome A :=
  match x (Rng demo_tape p) with
  | Ok (a, _) => Ok a
  | Raise e => Raise e
  | Diverge => Diverge
  end.

(** [AACS(8)] after [revoke(8)]: the cover is [(3, 5, 9)]. *)
Definition engine_8 : AACS := returned no_engine (run (engine 8 [8])).

(** [AACS(8)] after [revoke(8)] and [revoke(9)]. *)
Definition engine_8_9 : AACS := returned no_engine (run (engine 8 [8; 9])).

(** A message of 50 bytes. *)
Definition demo_message : bytes :=
  list_byte_of_string "fifty bytes of content for the broadcast channel..".

(** What [engine_8] broadcasts for [demo_message], the cipher being
    [xor_cipher] and the tape read on from where the constructor left
    it. *)
Definition demo_stream : bytes :=
  returned [] (run_at 240 (encrypt (H := xor_cipher) engine_8 demo_message)).

(** Sixteen zero bytes: a vector, or a content key. *)
Definition zeros : bytes := repeat x00 16.

(** * Properties *)

(** ** Small facts about the effect types and the byte helpers *)

Ltac vm_decide := apply (bool_decide_unpack _); vm_compute; exact I.

Lemma startswith_app (p rest : bytes) : startswith (p ++ rest) p = true.
Proof.
  induction p as [|y p IH]; [done|]. cbn [startswith app].
  rewrite IH, andb_true_r. by apply Byte.byte_dec_lb.
Qed.

Lemma startswith_prefix (b p : bytes) :
  startswith b p = true ↔ ∃ rest, b = p ++ rest.
Proof.
  split.
  - revert b. induction p as [|y p IH]; intros b Hb; [by exists b|].
    destruct b as [|x b]; [done|]. cbn [startswith] in Hb.
    apply andb_true_iff in Hb as [Hxy Hb].
    apply Byte.byte_dec_bl in Hxy as ->.
    destruct (IH _ Hb) as [rest ->]. by exists rest.
  - intros [rest ->]. apply startswith_app.
Qed.

Lemma startswith_nil (p : bytes) : p ≠ [] → startswith [] p = false.
Proof. by destruct p. Qed.

Lemma to_bytes_val (z : Z) :
  0 ≤ z ≤ 255 → ∃ v, to_bytes z = Some v ∧ byte_val v = z.
Proof.
  intros Hz. unfold to_bytes, byte_val.
  destruct (Z.ltb_spec z 0) as [?|_]; [lia|].
  destruct (Byte.of_N (Z.to_N z)) as [v|] eqn:Hv.
  - exists v. split; [done|]. apply Byte.to_of_N in Hv. lia.
  - apply Byte.of_N_None_iff in Hv. lia.
Qed.

(** ** encryption.py: padding *)

Lemma last_app_repeat {A} (m : list A) (v : A) (k : nat) :
  last (m ++ repeat v (S k)) = Some v.
Proof.
  replace (repeat v (S k)) with (repeat v k ++ [v]).
  - by rewrite app_assoc, last_snoc.
  - change [v] with (repeat v 1). rewrite <- repeat_app. f_equal. lia.
Qed.

(** The number of padding bytes, and the three steps of the round
    trip, one lemma each. *)
Lemma pad_length_bounds (m : bytes) : 1 ≤ 16 - len m mod 16 ≤ 16.
Proof. pose proof (Z.mod_pos_bound (len m) 16). lia. Qed.

Lemma add_padding_ok (m : bytes) :
  ∃ v, byte_val v = 16 - len m mod 16 - 1
       ∧ add_padding m = Ok (m ++ repeat v (Z.to_nat (16 - len m mod 16))).
Proof.
  pose proof (pad_length_bounds m) as Hp.
  destruct (to_bytes_val (16 - len m mod 16 - 1)) as (v & Hv & Hval); [lia|].
  exists v. split; [done|].
  unfold add_padding, add_padding_bits.
  change (128 / 8) with 16. simpl (16 =? 0). cbv iota. by rewrite Hv.
Qed.

Lemma padded_length (m : bytes) (v : byte) :
  len (m ++ repeat v (Z.to_nat (16 - len m mod 16))) = len m + (16 - len m mod 16)
  ∧ (length (m ++ repeat v (Z.to_nat (16 - len m mod 16))) mod 16 = 0)%nat.
Proof.
  pose proof (pad_length_bounds m) as Hp.
  assert (Hlen : len (m ++ repeat v (Z.to_nat (16 - len m mod 16)))
                 = len m + (16 - len m mod 16)).
  { unfold len. rewrite length_app, repeat_length. unfold len in Hp. lia. }
  split; [done|].
  apply Nat2Z.inj. rewrite Nat2Z.inj_mod. fold (len (m ++ repeat v (Z.to_nat (16 - len m mod 16)))).
  rewrite Hlen.
  rewrite (Z.div_mod (len m) 16) at 1 by lia.
  replace (16 * (len m / 16) + len m mod 16 + (16 - len m mod 16))
    with ((len m / 16 + 1) * 16) by lia.
  apply Z.mod_mul. lia.
Qed.

Lemma remove_padding_ok (m : bytes) (v : byte) (k : nat) :
  byte_val v = Z.of_nat k → remove_padding (m ++ repeat v (S k)) = Ok m.
Proof.
  intros Hval. unfold remove_padding.
  rewrite last_app_repeat. f_equal.
  rewrite Hval, length_app, repeat_length.
  replace (length m + S k - Z.to_nat (Z.of_nat k + 1))%nat with (length m) by lia.
  by rewrite take_app_length.
Qed.

(** C9.  Padding round-trip.  For every byte string [m], with
    [p = 16 - (len m mod 16)]: [p] lies in [1, 16]; [add_padding]
    returns [m] followed by [p] bytes of value [p - 1]; the padded
    length is a positive multiple of 16; and [remove_padding] gives
    [m] back.  Nothing is assumed of [m]: the empty string and the
    strings whose length is a multiple of 16 are included. *)
Theorem padding_roundtrip (m : bytes) :
  let p := 16 - len m mod 16 in
  1 ≤ p ≤ 16 ∧
  ∃ v padded,
    byte_val v = p - 1 ∧
    padded = m ++ repeat v (Z.to_nat p) ∧
    add_padding m = Ok padded ∧
    len padded = len m + p ∧
    0 < len padded ∧ len padded mod 16 = 0 ∧
    remove_padding padded = Ok m.
Proof.
  intros p. pose proof (pad_length_bounds m) as Hp. fold p in Hp.
  split; [done|].
  destruct (add_padding_ok m) as (v & Hval & Hadd). fold p in Hval, Hadd.
  destruct (padded_length m v) as [Hlen Hmod]. fold p in Hlen, Hmod.
  exists v, (m ++ repeat v (Z.to_nat p)).
  split; [done|]. split; [done|]. split; [done|]. split; [done|].
  split; [unfold len in *; lia|]. split.
  - unfold len. change 16 with (Z.of_nat 16).
    rewrite <- Nat2Z.inj_mod. by rewrite Hmod.
  - replace (Z.to_nat p) with (S (Z.to_nat (p - 1))) by lia.
    apply remove_padding_ok. lia.
Qed.

(** C10, first half.  [remove_padding] reads [m[-1]]: on the empty
    string this is an [IndexError]. *)
Lemma remove_padding_empty : remove_padding [] = Raise IndexError.
Proof. reflexivity. Qed.

(** ** tree.py: parent, sibling, path to the root *)

(** C8, as the claim states it, fails at node 2: the sibling is 3, the
    other child of the root, where the claim gives [2 - 1 = 1]. *)
Lemma sibling_of_2_is_not_1 :
  get_sibling 2 = 3 ∧
  ¬ (2 ≤ 2 → get_parent 2 = 2 / 2 ∧
             get_sibling 2 = if Z.even 2 then 2 - 1 else 2 + 1).
Proof. split; [reflexivity|]. intros H. by destruct H as [_ H]. Qed.

(** C8, amended.  For every node id [i] (and so for every [i >= 2]):
    [get_parent i] is [i / 2] rounded down, and [get_sibling i] is
    [i + 1] when [i] is even and [i - 1] when [i] is odd. *)
Theorem parent_sibling_arith (i : Z) :
  get_parent i = i / 2 ∧
  get_sibling i = if Z.even i then i + 1 else i - 1.
Proof.
  split; [reflexivity|]. unfold get_sibling.
  rewrite (Zmod_even i). by destruct (Z.even i).
Qed.

Lemma get_parent_bounds (id : Z) : 2 ≤ id → 1 ≤ get_parent id ≤ id - 1.
Proof.
  intros Hid. unfold get_parent.
  pose proof (Z.div_mod id 2) as Hdm.
  pose proof (Z.mod_pos_bound id 2). lia.
Qed.

Lemma get_sibling_bounds (j hi : Z) :
  2 ≤ j ≤ hi → hi mod 2 = 1 → 2 ≤ get_sibling j ≤ hi.
Proof.
  intros Hj Hodd. unfold get_sibling.
  pose proof (Z.div_mod j 2) as Hj2. pose proof (Z.mod_pos_bound j 2).
  pose proof (Z.div_mod hi 2) as Hh2.
  destruct (Z.eqb_spec (j mod 2) 0) as [E|E]; simpl; lia.
Qed.

(** The loop of [get_path_to_root] only ever appends: what it returns
    extends the path it was started with, by ids between 1 and [id]. *)
Lemma path_loop_ok (fuel : nat) : ∀ (path : list Z) (id : Z),
  last path = Some id → 1 ≤ id ≤ Z.of_nat fuel →
  ∃ more, path_loop fuel path id = Ok (path ++ more)
          ∧ Forall (fun j => 1 ≤ j < id) more
          ∧ last (path ++ more) = Some 1.
Proof.
  induction fuel as [|fuel IH]; intros path id Hlast Hid; [lia|].
  simpl. rewrite Hlast.
  destruct (Z.eqb_spec id 1) as [->|Hne].
  - exists []. by rewrite app_nil_r.
  - pose proof (get_parent_bounds id ltac:(lia)) as Hpar.
    destruct (IH (path ++ [get_parent id]) (get_parent id)) as (more & Hrun & Hall & Hl).
    { by rewrite last_snoc. }
    { lia. }
    exists (get_parent id :: more). rewrite <- app_assoc in Hrun, Hl.
    split; [exact Hrun|]. split; [|exact Hl].
    constructor; [lia|]. eapply Forall_impl; [exact Hall|]. simpl. lia.
Qed.

(** [get_path_to_root] returns for every id from 1 on: the path starts
    at the id, ends at the root and stays between the two. *)
Lemma get_path_to_root_total (id : Z) :
  1 ≤ id →
  ∃ more, get_path_to_root id = Ok (id :: more)
          ∧ Forall (fun j => 1 ≤ j < id) more
          ∧ last (id :: more) = Some 1.
Proof.
  intros Hid. unfold get_path_to_root.
  destruct (path_loop_ok (Z.to_nat id) [id] id) as (more & Hrun & Hall & Hl);
    [done|lia|]. by exists more.
Qed.

(** From an id below 1 the loop never reaches the root. *)
Lemma path_loop_diverges (fuel : nat) : ∀ (path : list Z) (id : Z),
  last path = Some id → id ≤ 0 → path_loop fuel path id = Diverge.
Proof.
  induction fuel as [|fuel IH]; intros path id Hlast Hid; simpl; rewrite Hlast;
    destruct (Z.eqb_spec id 1) as [?|_]; try lia; [done|].
  apply IH; [by rewrite last_snoc|]. unfold get_parent.
  apply Z.div_le_upper_bound; lia.
Qed.

Lemma get_path_to_root_diverges (id : Z) :
  id ≤ 0 → get_path_to_root id = Diverge.
Proof. intros. by apply path_loop_diverges. Qed.

(** ** __init__.py: the cover *)

Lemma elem_of_add_siblings (path : list Z) : ∀ (cover : gset Z) (x : Z),
  x ∈ add_siblings path cover ↔
  x ∈ cover ∨ ∃ j, j ∈ path ∧ j ≠ 1 ∧ x = get_sibling j.
Proof.
  unfold add_siblings.
  induction path as [|j path IH]; intros cover x; simpl.
  - split; [by left|]. intros [?|(j & Hj & _)]; [done|]. by apply elem_of_nil in Hj.
  - rewrite IH. destruct (Z.eqb_spec j 1) as [->|Hj]; simpl.
    + split.
      * intros [?|(j & Hj & ?)]; [by left|]. right. exists j. set_solver.
      * intros [?|(j & Hj & Hne & ?)]; [by left|]. right. exists j.
        apply elem_of_cons in Hj as [->|Hj]; done.
    + rewrite elem_of_union, elem_of_singleton. split.
      * intros [[->|?]|(j' & Hj' & ?)]; [right; exists j; set_solver|by left|].
        right. exists j'. set_solver.
      * intros [?|(j' & Hj' & Hne & ->)]; [left; by right|].
        apply elem_of_cons in Hj' as [->|Hj']; [left; by left|].
        right. by exists j'.
Qed.

(** The cover loop returns when every revoked id is at least 1, and
    then the set it returns holds exactly the siblings of the nodes,
    the root apart, on the paths from the revoked ids. *)
Lemma cover_loop_ok (revoked : list Z) : ∀ cover : gset Z,
  Forall (fun i => 1 ≤ i) revoked →
  ∃ cover', cover_loop revoked cover = Ok cover' ∧
    ∀ x, x ∈ cover' ↔
         x ∈ cover ∨
         ∃ i path j, i ∈ revoked ∧ get_path_to_root i = Ok path ∧
                     j ∈ path ∧ j ≠ 1 ∧ x = get_sibling j.
Proof.
  induction revoked as [|i revoked IH]; intros cover Hall; simpl.
  - exists cover. split; [done|]. intros x. split; [by left|].
    intros [?|(i & ? & ? & Hi & _)]; [done|]. by apply elem_of_nil in Hi.
  - apply Forall_cons in Hall as [Hi Hall].
    destruct (get_path_to_root_total i Hi) as (more & Hpath & _).
    rewrite Hpath. simpl.
    destruct (IH (add_siblings (i :: more) cover) Hall) as (cover' & Hrun & Hin).
    exists cover'. split; [exact Hrun|]. intros x.
    rewrite Hin, elem_of_add_siblings. split.
    + intros [[?|(j & Hj & Hne & ->)]|(i' & path & j & Hi' & Hp & Hj & Hne & ->)].
      * by left.
      * right. exists i, (i :: more), j. set_solver.
      * right. exists i', path, j. set_solver.
    + intros [?|(i' & path & j & Hi' & Hp & Hj & Hne & ->)]; [left; by left|].
      apply elem_of_cons in Hi' as [->|Hi'].
      * left. right. exists j. by replace path with (i :: more) in Hj by congruence.
      * right. by exists i', path, j.
Qed.

Lemma M_bind_unfold {A B} (f : A → M B) (x : M A) (r : rng) :
  (x ≫= f) r = match x r with
               | Ok (a, r') => f a r'
               | Raise e => Raise e
               | Diverge => Diverge
               end.
Proof. reflexivity. Qed.

Lemma get_random_key_128 (r : rng) :
  get_random_key 128 r
  = Ok (map (tape r) (seq (pos r) 16), Rng (tape r) (pos r + 16)).
Proof. reflexivity. Qed.

Lemma os_urandom_16 (r : rng) :
  os_urandom 16 r
  = Ok (map (tape r) (seq (pos r) 16), Rng (tape r) (pos r + 16)).
Proof. reflexivity. Qed.

(** The cover as [__get_S_cover] returns it: sorted, without
    repetition, and with the members the two branches put in. *)
Lemma get_S_cover_ok (self : AACS) :
  (∀ i, i ∈ self_T self → 1 ≤ i) →
  ∃ cover, get_S_cover self = Ok cover
    ∧ StronglySorted Z.le cover ∧ NoDup cover
    ∧ ∀ x, x ∈ cover ↔
        if Z.of_nat (size (self_S self)) =? n (tree self) then x = 1
        else ∃ i path j, i ∈ self_T self ∧ get_path_to_root i = Ok path ∧
                         j ∈ path ∧ j ≠ 1 ∧ x = get_sibling j.
Proof.
  intros HT. unfold get_S_cover.
  assert (Hsort : ∀ c : gset Z,
    StronglySorted Z.le (merge_sort Z.le (elements c))
    ∧ NoDup (merge_sort Z.le (elements c))
    ∧ ∀ x, x ∈ merge_sort Z.le (elements c) ↔ x ∈ c).
  { intros c. split; [apply StronglySorted_merge_sort; apply _|].
    split.
    - rewrite merge_sort_Permutation. apply NoDup_elements.
    - intros x. by rewrite merge_sort_Permutation, elem_of_elements. }
  destruct (Z.of_nat (size (self_S self)) =? n (tree self)).
  - exists (merge_sort Z.le (elements ({[ 1 ]} : gset Z))).
    destruct (Hsort {[ 1 ]}) as (Hs & Hn & Hin).
    repeat split; try done; rewrite Hin; set_solver.
  - destruct (cover_loop_ok (elements (self_T self)) ∅) as (c & Hrun & Hc).
    { apply Forall_forall. intros i Hi. apply HT. by apply elem_of_elements. }
    rewrite Hrun. exists (merge_sort Z.le (elements c)).
    destruct (Hsort c) as (Hs & Hn & Hin).
    repeat split; try done; rewrite Hin, Hc.
    + intros [?|(i & path & j & Hi & ?)]; [set_solver|].
      exists i, path, j. by rewrite <- elem_of_elements.
    + intros (i & path & j & Hi & ?). right.
      exists i, path, j. by rewrite elem_of_elements.
Qed.

(** ** The constructor *)

Lemma fill_nodes_ok (ids : list Z) : ∀ (m : gmap Z bytes) (r : rng),
  ∃ m' r', fill_nodes ids m r = Ok (m', r')
    ∧ (∀ i, i ∈ ids → ∃ key, m' !! i = Some key ∧ length key = 16%nat)
    ∧ (∀ i, i ∉ ids → m' !! i = m !! i).
Proof.
  induction ids as [|i ids IH]; intros m r; simpl.
  - exists m, r. split; [done|]. split; [|done].
    intros i Hi. by apply elem_of_nil in Hi.
  - rewrite M_bind_unfold, get_random_key_128.
    destruct (IH (<[i := map (tape r) (seq (pos r) 16)]> m)
                 (Rng (tape r) (pos r + 16))) as (m' & r' & Hrun & Hin & Hout).
    exists m', r'. split; [exact Hrun|]. split.
    + intros j Hj. destruct (decide (j ∈ ids)) as [?|Hnin]; [by apply Hin|].
      apply elem_of_cons in Hj as [->|?]; [|done].
      rewrite (Hout _ Hnin), lookup_insert_eq. eexists. split; [done|].
      by rewrite length_map, length_seq.
    + intros j Hj. apply not_elem_of_cons in Hj as [Hne Hj].
      by rewrite (Hout _ Hj), lookup_insert_ne.
Qed.

Lemma elem_of_range (a b x : Z) : x ∈ range a b ↔ a ≤ x < b.
Proof. unfold range. rewrite elem_of_seqZ. lia. Qed.

(** [BinaryTree(n)] for [n >= 1]: the attributes, and a 16-byte key at
    each of the ids [1 .. last_leaf] and nowhere else. *)
Lemma BinaryTree_init_ok (n0 : Z) (r : rng) :
  1 ≤ n0 →
  ∃ tr r', BinaryTree_init n0 r = Ok (tr, r')
    ∧ n tr = n0 ∧ t tr = Z.log2_up n0
    ∧ first_leaf tr = 2 ^ t tr ∧ last_leaf tr = 2 ^ (t tr + 1) - 1
    ∧ (∀ i, 1 ≤ i ≤ last_leaf tr →
            ∃ key, nodes tr !! i = Some key ∧ length key = 16%nat)
    ∧ (∀ i, ¬ 1 ≤ i ≤ last_leaf tr → nodes tr !! i = None).
Proof.
  intros Hn. unfold BinaryTree_init, ceil_log2.
  rewrite M_bind_unfold. unfold lift.
  destruct (Z.leb_spec n0 0) as [?|_]; [lia|].
  rewrite M_bind_unfold.
  destruct (fill_nodes_ok (range 1 (2 ^ (Z.log2_up n0 + 1) - 1 + 1)) ∅ r)
    as (m' & r' & -> & Hin & Hout).
  eexists _, r'. split; [reflexivity|]. simpl.
  repeat split; try done.
  - intros i Hi. apply Hin, elem_of_range. lia.
  - intros i Hi. rewrite Hout; [done|]. rewrite elem_of_range. lia.
Qed.

Lemma size_leaves (tr : BinaryTree) :
  Z.of_nat (size (list_to_set (get_leaves tr) : gset Z))
  = Z.max 0 (last_leaf tr + 1 - first_leaf tr).
Proof.
  unfold get_leaves, range.
  rewrite size_list_to_set by apply NoDup_seqZ. rewrite length_seqZ. lia.
Qed.

(** [AACS(n)] for [n >= 1] returns a well-formed engine with every leaf
    valid and none revoked.  Its cover is [(1,)] when [n] is a power of
    two, and empty when it is not: the test [len(self.S) == self.n]
    compares the [2 ^ t] leaves with [n]. *)
Lemma AACS_init_ok (n0 : Z) (r : rng) :
  1 ≤ n0 →
  ∃ self r', AACS_init n0 r = Ok (self, r')
    ∧ wf self ∧ n (tree self) = n0 ∧ t (tree self) = Z.log2_up n0
    ∧ self_T self = ∅
    ∧ (∀ x, x ∈ self_S self ↔ is_leaf (tree self) x)
    ∧ S_cover self = if 2 ^ Z.log2_up n0 =? n0 then [1] else [].
Proof.
  intros Hn. unfold AACS_init. rewrite M_bind_unfold.
  destruct (BinaryTree_init_ok n0 r Hn)
    as (tr & r' & -> & Hn0 & Ht & Hfirst & Hlast & Hin & Hout).
  rewrite M_bind_unfold.
  pose proof (Z.log2_up_nonneg n0) as Htpos.
  assert (Hsize : Z.of_nat (size (list_to_set (get_leaves tr) : gset Z))
                  = 2 ^ Z.log2_up n0).
  { rewrite size_leaves, Hlast, Hfirst, Ht.
    rewrite Z.pow_add_r by lia. change (2 ^ 1) with 2.
    pose proof (Z.pow_pos_nonneg 2 (Z.log2_up n0)). lia. }
  assert (Hcov : get_S_cover (mkAACS tr (list_to_set (get_leaves tr)) ∅ [])
                 = Ok (if 2 ^ Z.log2_up n0 =? n0 then [1] else [])).
  { unfold get_S_cover. cbn [self_S self_T tree]. rewrite Hsize, Hn0.
    destruct (2 ^ Z.log2_up n0 =? n0); cbn.
    - by rewrite elements_singleton.
    - by rewrite elements_empty. }
  unfold lift. rewrite Hcov. eexists _, r'. split; [reflexivity|].
  assert (HS : ∀ x, x ∈ (list_to_set (get_leaves tr) : gset Z) ↔ is_leaf tr x).
  { intros x. rewrite elem_of_list_to_set. unfold get_leaves, is_leaf.
    rewrite elem_of_range. lia. }
  split; [|by cbn].
  constructor; cbn [tree self_S self_T S_cover]; try done.
  - lia.
  - intros x. rewrite HS. set_solver.
Qed.

(** [AACS(n)] with [n <= 0]: [log2] raises, nothing is built. *)
Lemma AACS_init_invalid (n0 : Z) (r : rng) :
  n0 ≤ 0 → AACS_init n0 r = Raise (ValueError "math domain error").
Proof.
  intros Hn. unfold AACS_init, BinaryTree_init, ceil_log2.
  rewrite !M_bind_unfold. unfold lift.
  by destruct (Z.leb_spec n0 0) as [_|?]; [|lia].
Qed.

(** ** revoke *)

Lemma sorted_le_NoDup_lt (l : list Z) :
  StronglySorted Z.le l → NoDup l → StronglySorted Z.lt l.
Proof.
  induction 1 as [|x l Hs IH Hall]; intros Hnd; [constructor|].
  apply NoDup_cons in Hnd as [Hx Hnd]. constructor; [by apply IH|].
  rewrite Forall_forall in Hall |- *. intros y Hy.
  pose proof (Hall y Hy). assert (x ≠ y) by (by intros ->). lia.
Qed.

Lemma first_leaf_pos (self : AACS) : wf self → 1 ≤ first_leaf (tree self).
Proof.
  intros Hwf. rewrite (wf_first _ Hwf).
  pose proof (Z.pow_pos_nonneg 2 (t (tree self)) ltac:(lia) (wf_t _ Hwf)). lia.
Qed.

(** On a well-formed engine [revoke] returns; it answers whether the id
    was valid; a valid id moves from [S] to [T] and the cover is
    computed anew; any other id leaves the engine as it was.  The
    result is well-formed again. *)
Lemma revoke_ok (self : AACS) (id : Z) :
  wf self →
  ∃ b self', revoke self id = Ok (b, self')
    ∧ wf self'
    ∧ (b = true ↔ id ∈ self_S self)
    ∧ (id ∈ self_S self →
         tree self' = tree self
         ∧ self_S self' = self_S self ∖ {[ id ]}
         ∧ self_T self' = {[ id ]} ∪ self_T self
         ∧ get_S_cover self' = Ok (S_cover self'))
    ∧ (id ∉ self_S self → self' = self).
Proof.
  intros Hwf. unfold revoke.
  destruct (decide (id ∈ self_S self)) as [Hin|Hnin].
  - pose proof (first_leaf_pos _ Hwf) as Hfl.
    apply (wf_S _ Hwf) in Hin as Hleaf. destruct Hleaf as [Hleaf HnT].
    set (self1 := mkAACS (tree self) (self_S self ∖ {[ id ]})
                         ({[ id ]} ∪ self_T self) (S_cover self)).
    destruct (get_S_cover_ok self1) as (cover & Hcov & _).
    { intros i. cbn. rewrite elem_of_union, elem_of_singleton.
      intros [->|Hi]; [|apply (wf_T _ Hwf) in Hi]; unfold is_leaf in *; lia. }
    rewrite Hcov. cbn.
    assert (Hcov' : get_S_cover (mkAACS (tree self) (self_S self ∖ {[ id ]})
                                 ({[ id ]} ∪ self_T self) cover) = Ok cover)
      by exact Hcov.
    eexists true, _. split; [reflexivity|].
    split; [|by repeat split].
    destruct Hwf as [H1 H2 H3 H4 H5 H6 H7].
    constructor; cbn [tree self_S self_T S_cover]; try done.
    + intros x. rewrite elem_of_difference, H5, elem_of_union, !elem_of_singleton.
      split; [intros [[? ?] ?]|intros [? ?]]; repeat split; try done;
        intros ?; set_solver.
    + intros x. rewrite elem_of_union, elem_of_singleton.
      intros [->|?]; [done|by apply H6].
  - exists false, self. cbn. split; [done|]. split; [done|].
    split; [split; [done|by intros ?]|]. split; [by intros ?|done].
Qed.

Lemma reachable_wf (self : AACS) : reachable self → wf self.
Proof.
  induction 1 as [n0 r self r' Hinit|self id b self' _ IH Hrev].
  - destruct (Z.le_gt_cases n0 0) as [Hn|Hn].
    + by rewrite AACS_init_invalid in Hinit.
    + destruct (AACS_init_ok n0 r ltac:(lia)) as (s & r2 & Hrun & Hwf & _).
      congruence.
  - destruct (revoke_ok self id IH) as (b' & s' & Hrun & Hwf & _). congruence.
Qed.

(** C6.  On every reachable engine [revoke id] returns.  It answers
    true exactly when [id] is in [S]; that fails exactly when [id] is
    already revoked or is no leaf of the tree.  A valid id is taken out
    of [S] and put into [T], the tree is untouched and the cover is
    built anew from the new sets: it is the one [__get_S_cover]
    computes from them, which is to say it is strictly ascending, it is
    [(1,)] when the new [S] has [n] members, and it holds otherwise
    exactly the siblings of the nodes, the root apart, on the paths to
    the root from the members of the new [T].  Any other id leaves the
    whole engine as it was.  A second [revoke id] answers false and
    changes nothing. *)
Theorem revoke_spec (self : AACS) (id : Z) :
  reachable self →
  ∃ b self',
    revoke self id = Ok (b, self')
    ∧ (b = true ↔ id ∈ self_S self)
    ∧ (id ∉ self_S self ↔ id ∈ self_T self ∨ ¬ is_leaf (tree self) id)
    ∧ (id ∈ self_S self →
         tree self' = tree self
         ∧ self_S self' = self_S self ∖ {[ id ]}
         ∧ self_T self' = {[ id ]} ∪ self_T self
         ∧ get_S_cover self' = Ok (S_cover self')
         ∧ StronglySorted Z.lt (S_cover self')
         ∧ ∀ x, x ∈ S_cover self' ↔
             if Z.of_nat (size (self_S self ∖ {[ id ]})) =? n (tree self)
             then x = 1
             else ∃ i path j,
                    i ∈ {[ id ]} ∪ self_T self
                    ∧ get_path_to_root i = Ok path
                    ∧ j ∈ path ∧ j ≠ 1 ∧ x = get_sibling j)
    ∧ (id ∉ self_S self → self' = self)
    ∧ revoke self' id = Ok (false, self').
Proof.
  intros Hreach. pose proof (reachable_wf _ Hreach) as Hwf.
  destruct (revoke_ok self id Hwf) as (b & self' & Hrun & Hwf' & Hb & Hin & Hout).
  exists b, self'. split; [exact Hrun|]. split; [exact Hb|].
  split; [|split; [|split; [exact Hout|]]].
  - rewrite (wf_S _ Hwf). split.
    + intros Hn. destruct (decide (is_leaf (tree self) id)); [|by right].
      left. destruct (decide (id ∈ self_T self)); [done|]. by destruct Hn.
    + intros [?|?] [? ?]; done.
  - intros Hi. destruct (Hin Hi) as (Ht & HS & HT & Hcov).
    split; [done|]. split; [done|]. split; [done|]. split; [done|].
    destruct (get_S_cover_ok self') as (cover & Hcov' & Hs & Hnd & Hmem).
    { intros i Hi'. apply (wf_T _ Hwf') in Hi'.
      pose proof (first_leaf_pos _ Hwf'). unfold is_leaf in Hi'. lia. }
    rewrite Hcov in Hcov'. injection Hcov' as <-.
    rewrite HS, HT, Ht in Hmem.
    split; [by apply sorted_le_NoDup_lt|exact Hmem].
  - assert (Hnin : id ∉ self_S self').
    { destruct (decide (id ∈ self_S self)) as [Hi|Hi].
      - destruct (Hin Hi) as (_ & -> & _). set_solver.
      - by rewrite (Hout Hi). }
    unfold revoke. by destruct (decide (id ∈ self_S self')).
Qed.

Lemma demo_engine_reachable : reachable demo_engine.
Proof.
  apply (reach_init 8 demo_rng demo_engine (Rng demo_tape 240)).
  vm_compute. reflexivity.
Qed.

(** On [AACS(8)], [revoke(8)] answers true and replaces the cover
    [(1,)] by [(3, 5, 9)], the siblings of 2, 4 and 8. *)
Lemma revoke_spec_witness :
  ∃ self',
    revoke demo_engine 8 = Ok (true, self')
    ∧ S_cover demo_engine = [1]
    ∧ tree self' = tree demo_engine
    ∧ self_S self' = self_S demo_engine ∖ {[ 8 ]}
    ∧ self_T self' = {[ 8 ]} ∪ self_T demo_engine
    ∧ get_S_cover self' = Ok (S_cover self')
    ∧ S_cover self' = [3; 5; 9]
    ∧ StronglySorted Z.lt (S_cover self')
    ∧ (∀ x, x ∈ S_cover self' ↔
            ∃ i path j,
              i ∈ {[ 8 ]} ∪ self_T demo_engine
              ∧ get_path_to_root i = Ok path
              ∧ j ∈ path ∧ j ≠ 1 ∧ x = get_sibling j)
    ∧ revoke self' 8 = Ok (false, self').
Proof.
  destruct (revoke_spec demo_engine 8 demo_engine_reachable)
    as (b & self' & Hrun & Hb & _ & Hin & _ & Hagain).
  assert (H8 : 8 ∈ self_S demo_engine) by vm_decide.
  destruct (Hin H8) as (Ht & HS & HT & Hcov & Hsorted & Hmem).
  rewrite (proj2 Hb H8) in Hrun.
  assert (Hsize : (Z.of_nat (size (self_S demo_engine ∖ {[ 8 ]}))
                   =? n (tree demo_engine)) = false) by (vm_compute; reflexivity).
  rewrite Hsize in Hmem.
  pose proof Hrun as Hrun'. vm_compute in Hrun'. injection Hrun' as Hself.
  exists self'. split; [exact Hrun|]. split; [vm_compute; reflexivity|].
  split; [exact Ht|]. split; [exact HS|]. split; [exact HT|].
  split; [exact Hcov|]. split; [by rewrite <- Hself|].
  split; [exact Hsorted|]. split; [exact Hmem|exact Hagain].
Defined.

(** ** The cover on concrete engines *)

(** C4.  [AACS(3)], whatever the random tape: nothing is revoked, every
    leaf 4..7 is valid, and the cover is empty where the claim has
    [(1,)].  The tree has [2 ^ 2 = 4] leaves and
    [len(self.S) == self.n] compares that 4 with 3. *)
Theorem cover_of_AACS_3_is_empty (r : rng) :
  ∃ self r',
    AACS_init 3 r = Ok (self, r')
    ∧ self_T self = ∅
    ∧ (∀ x, x ∈ self_S self ↔ 4 ≤ x ≤ 7)
    ∧ S_cover self = [].
Proof.
  destruct (AACS_init_ok 3 r ltac:(lia))
    as (self & r' & Hrun & Hwf & _ & Ht & HT & HS & Hcov).
  exists self, r'. split; [done|]. split; [done|]. split; [|done].
  intros x. rewrite HS. unfold is_leaf.
  rewrite (wf_first _ Hwf), (wf_last _ Hwf), Ht.
  change (2 ^ Z.log2_up 3) with 4. by change (2 ^ (Z.log2_up 3 + 1) - 1) with 7.
Qed.

(** What does hold of the constructor: the cover is [(1,)] exactly for
    the sizes that are powers of two. *)
Lemma cover_of_AACS_init (n0 : Z) (r : rng) :
  1 ≤ n0 →
  ∃ self r',
    AACS_init n0 r = Ok (self, r')
    ∧ self_T self = ∅
    ∧ (S_cover self = [1] ↔ n0 = 2 ^ Z.log2_up n0).
Proof.
  intros Hn.
  destruct (AACS_init_ok n0 r Hn) as (self & r' & Hrun & _ & _ & _ & HT & _ & Hcov).
  exists self, r'. repeat split; try done; rewrite Hcov;
    destruct (Z.eqb_spec (2 ^ Z.log2_up n0) n0); done.
Qed.

(** ** encrypt: the wire format *)

Lemma last_leaf_odd (self : AACS) :
  wf self → 1 ≤ last_leaf (tree self) ∧ last_leaf (tree self) mod 2 = 1.
Proof.
  intros Hwf. rewrite (wf_last _ Hwf).
  pose proof (wf_t _ Hwf) as Ht.
  rewrite Z.pow_add_r by lia. change (2 ^ 1) with 2.
  pose proof (Z.pow_pos_nonneg 2 (t (tree self)) ltac:(lia) Ht) as Hpos.
  split; [lia|].
  replace (2 ^ t (tree self) * 2 - 1) with (1 + (2 ^ t (tree self) - 1) * 2) by lia.
  by rewrite Z.mod_add.
Qed.

(** The stored cover of a well-formed engine: ascending without
    repetition, and made of node ids of the tree. *)
Lemma wf_cover_nodes (self : AACS) :
  wf self →
  StronglySorted Z.le (S_cover self) ∧ NoDup (S_cover self)
  ∧ ∀ u, u ∈ S_cover self → 1 ≤ u ≤ last_leaf (tree self).
Proof.
  intros Hwf. pose proof (first_leaf_pos _ Hwf) as Hfl.
  destruct (last_leaf_odd _ Hwf) as [Hll Hodd].
  destruct (get_S_cover_ok self) as (cover & Hcov & Hs & Hn & Hin).
  { intros i Hi. apply (wf_T _ Hwf) in Hi. unfold is_leaf in Hi. lia. }
  rewrite (wf_cover _ Hwf) in Hcov. injection Hcov as <-.
  split; [done|]. split; [done|]. intros u Hu. apply Hin in Hu.
  destruct (Z.of_nat (size (self_S self)) =? n (tree self)); [lia|].
  destruct Hu as (i & path & j & Hi & Hpath & Hj & Hne & ->).
  apply (wf_T _ Hwf) in Hi. unfold is_leaf in Hi.
  destruct (get_path_to_root_total i ltac:(lia)) as (more & Hrun & Hall & _).
  assert (1 ≤ j ≤ i) as Hji.
  { rewrite Hrun in Hpath. injection Hpath as <-.
    apply elem_of_cons in Hj as [->|Hj]; [lia|].
    rewrite Forall_forall in Hall. apply Hall in Hj. lia. }
  pose proof (get_sibling_bounds j (last_leaf (tree self)) ltac:(lia) Hodd). lia.
Qed.

Lemma draw_length (r : rng) (off : nat) : length (draw r off) = 16%nat.
Proof. unfold draw. by rewrite length_map, length_seq. Qed.

Lemma draw_shift (r : rng) (a b : nat) :
  draw (Rng (tape r) (pos r + a)) b = draw r (a + b).
Proof. unfold draw. cbn [tape pos]. do 2 f_equal. lia. Qed.

Lemma key_blocks_cons `{Cipher} (self : AACS) (u : Z) (cover : list Z)
      (k : bytes) (r : rng) :
  key_blocks self (u :: cover) k r
  = key_block (key_at self u) (draw r 0) k
    :: key_blocks self cover k (Rng (tape r) (pos r + 16)).
Proof.
  unfold key_blocks. rewrite imap_cons. f_equal.
  apply imap_ext. intros i x _. unfold compose.
  rewrite draw_shift. do 2 f_equal. lia.
Qed.

Lemma aes_check_ok (key iv data : bytes) :
  length key = 16%nat → length iv = 16%nat → (length data mod 16 = 0)%nat →
  aes_check key iv data = Ok ().
Proof.
  intros Hk Hiv Hd. unfold aes_check, aes_key_ok. by rewrite Hk, Hiv, Hd.
Qed.

Section Wire.
Context `{C : Cipher}.

Lemma AES_encrypt_ok (key plaintext : bytes) (r : rng) :
  length key = 16%nat → (length plaintext mod 16 = 0)%nat →
  AES_encrypt key plaintext r
  = Ok ((draw r 0, cbc_encrypt key (draw r 0) plaintext),
        Rng (tape r) (pos r + 16)).
Proof.
  intros Hk Hp. unfold AES_encrypt.
  rewrite M_bind_unfold, os_urandom_16, M_bind_unfold. unfold lift.
  replace (map (tape r) (seq (pos r) 16)) with (draw r 0)
    by (unfold draw; by rewrite Nat.add_0_r).
  by rewrite aes_check_ok by (done || apply draw_length).
Qed.

Lemma node_key_ok (self : AACS) (u : Z) :
  wf self → 1 ≤ u ≤ last_leaf (tree self) →
  node_key self u = Ok (key_at self u) ∧ length (key_at self u) = 16%nat.
Proof.
  intros Hwf Hu. destruct (wf_nodes _ Hwf u Hu) as (key & Hkey & Hlen).
  unfold node_key, key_at. by rewrite Hkey.
Qed.

Lemma TAG_VALID_length : length TAG_VALID = 16%nat.
Proof. reflexivity. Qed.

Lemma TAG_SEPARATOR_length : length TAG_SEPARATOR = 11%nat.
Proof. reflexivity. Qed.

(** The loop over the cover writes the key blocks in the order of the
    cover and draws one vector for each. *)
Lemma encrypt_keys_ok (self : AACS) (k : bytes) :
  wf self → length k = 16%nat →
  ∀ (cover : list Z) (r : rng),
    (∀ u, u ∈ cover → 1 ≤ u ≤ last_leaf (tree self)) →
    encrypt_keys self cover k r
    = Ok (key_blocks self cover k r,
          Rng (tape r) (pos r + 16 * length cover)).
Proof.
  intros Hwf Hk. induction cover as [|u cover IH]; intros r Hcov.
  - simpl. unfold mret, M_ret, ret. do 2 f_equal. destruct r. simpl. f_equal. lia.
  - cbn [encrypt_keys]. rewrite M_bind_unfold.
    destruct (node_key_ok self u Hwf) as [Hkey Hlen]; [apply Hcov; set_solver|].
    unfold lift at 1. rewrite Hkey, M_bind_unfold.
    rewrite AES_encrypt_ok; [|done|by rewrite length_app, TAG_VALID_length, Hk].
    rewrite M_bind_unfold, IH by (intros; apply Hcov; set_solver).
    unfold mret, M_ret, ret. cbn [tape pos fst snd].
    rewrite key_blocks_cons. do 3 f_equal. cbn [length]. lia.
Qed.

Lemma key_block_length (key iv k : bytes) :
  keeps_length C → length key = 16%nat → length iv = 16%nat →
  length k = 16%nat →
  length (cbc_encrypt key iv (TAG_VALID ++ k)) = 32%nat
  ∧ length (key_block key iv k) = 48%nat.
Proof.
  intros HC Hkey Hiv Hk.
  destruct (HC key iv (TAG_VALID ++ k)) as [Hl _].
  { apply aes_check_ok; try done. by rewrite length_app, TAG_VALID_length, Hk. }
  rewrite length_app, TAG_VALID_length, Hk in Hl.
  unfold key_block. rewrite length_app, Hl, Hiv. done.
Qed.

Lemma key_blocks_length (self : AACS) (k : bytes) :
  keeps_length C → wf self → length k = 16%nat →
  ∀ (cover : list Z) (r : rng),
    (∀ u, u ∈ cover → 1 ≤ u ≤ last_leaf (tree self)) →
    length (concat (key_blocks self cover k r)) = (48 * length cover)%nat.
Proof.
  intros HC Hwf Hk.
  induction cover as [|u cover IH]; intros r Hcov; [done|].
  rewrite key_blocks_cons. cbn [concat]. rewrite length_app.
  destruct (node_key_ok self u Hwf) as [_ Hlen]; [apply Hcov; set_solver|].
  destruct (key_block_length (key_at self u) (draw r 0) k) as [_ ->];
    try done; try apply draw_length.
  rewrite IH by (intros; apply Hcov; set_solver). cbn [length]. lia.
Qed.

(** [encrypt] on a well-formed engine returns, and this is what it
    returns: content key, key blocks and the vector of the content are
    read off the tape in this order. *)
Lemma encrypt_ok (self : AACS) (m : bytes) (r : rng) :
  wf self →
  ∃ padded,
    add_padding m = Ok padded ∧ (length padded mod 16 = 0)%nat ∧
    let k := draw r 0 in
    let r1 := Rng (tape r) (pos r + 16) in
    let iv := draw r1 (16 * length (S_cover self)) in
    encrypt self m r
    = Ok (concat (key_blocks self (S_cover self) k r1)
            ++ TAG_SEPARATOR ++ iv ++ cbc_encrypt k iv padded,
          Rng (tape r) (pos r + 16 + 16 * length (S_cover self) + 16)).
Proof.
  intros Hwf.
  destruct (add_padding_ok m) as (v & _ & Hpad).
  destruct (padded_length m v) as [_ Hmod'].
  eexists. split; [exact Hpad|].
  split; [done|]. intros k r1 iv.
  unfold encrypt. rewrite M_bind_unfold, get_random_key_128.
  replace (map (tape r) (seq (pos r) 16)) with k
    by (unfold k, draw; by rewrite Nat.add_0_r).
  fold r1. rewrite M_bind_unfold.
  rewrite (encrypt_keys_ok self k Hwf (draw_length _ _))
    by apply (wf_cover_nodes _ Hwf).
  rewrite M_bind_unfold. unfold lift. rewrite Hpad, M_bind_unfold.
  rewrite AES_encrypt_ok by (done || apply draw_length).
  unfold mret, M_ret, ret. cbn [fst snd tape pos].
  unfold iv, draw, r1. cbn [tape pos]. rewrite !Nat.add_0_r. done.
Qed.

(** C7.  The stream [encrypt] writes on a reachable engine, for a
    cipher that keeps the length of its data: one key block per cover
    node, in the ascending order of the cover, each of 48 bytes (a
    16-byte vector, then the 32 bytes that encrypt marker and content
    key under the key of the node); then the 11 bytes of
    [TAG_SEPARATOR], which so start at offset [48 * len(S_cover)];
    then a 16-byte vector and the encryption of the padded message
    under the content key.  The padded message is [m] followed by
    [p = 16 - len(m) % 16] bytes of value [p - 1], a whole number of
    blocks. *)
Theorem encrypt_wire_format (self : AACS) (m : bytes) (r : rng) :
  keeps_length C → reachable self →
  ∃ k blocks iv padded r',
    encrypt self m r
    = Ok (concat blocks ++ TAG_SEPARATOR ++ iv ++ cbc_encrypt k iv padded, r')
    ∧ length k = 16%nat
    ∧ StronglySorted Z.lt (S_cover self)
    ∧ Forall2 (fun u block =>
                 ∃ key iv_u,
                   nodes (tree self) !! u = Some key
                   ∧ length iv_u = 16%nat
                   ∧ length (cbc_encrypt key iv_u (TAG_VALID ++ k)) = 32%nat
                   ∧ block = iv_u ++ cbc_encrypt key iv_u (TAG_VALID ++ k)
                   ∧ length block = 48%nat)
              (S_cover self) blocks
    ∧ length (concat blocks) = (length (S_cover self) * 48)%nat
    ∧ TAG_SEPARATOR = list_byte_of_string "END_OF_KEYS"
    ∧ length TAG_SEPARATOR = 11%nat
    ∧ length TAG_VALID = 16%nat
    ∧ length iv = 16%nat
    ∧ add_padding m = Ok padded
    ∧ (length padded mod 16 = 0)%nat
    ∧ ∃ v, byte_val v = 16 - len m mod 16 - 1
           ∧ padded = m ++ repeat v (Z.to_nat (16 - len m mod 16)).
Proof.
  intros HC Hreach. pose proof (reachable_wf _ Hreach) as Hwf.
  destruct (encrypt_ok self m r Hwf) as (padded & Hpad & Hmod & Hrun).
  destruct (wf_cover_nodes _ Hwf) as (Hs & Hnd & Hin).
  destruct (add_padding_ok m) as (v & Hval & Hpad').
  rewrite Hpad in Hpad'. injection Hpad' as Hpadded.
  eexists _, _, _, padded, _. split; [exact Hrun|].
  split; [apply draw_length|].
  split; [by apply sorted_le_NoDup_lt|].
  split; [|split; [|rewrite draw_length; do 6 (split; [done|]); by exists v]].
  - unfold key_blocks at 1. apply Forall2_same_length_lookup_2.
    { by rewrite length_imap. }
    intros i u block Hu Hb. rewrite list_lookup_imap, Hu in Hb.
    injection Hb as <-.
    assert (Hrange : 1 ≤ u ≤ last_leaf (tree self)).
    { apply Hin. by eapply list_elem_of_lookup_2. }
    destruct (wf_nodes _ Hwf u Hrange) as (key & Hkey & Hlen).
    exists key, (draw (Rng (tape r) (pos r + 16)) (16 * i)).
    unfold key_at. rewrite Hkey. cbn [default].
    pose proof (draw_length (Rng (tape r) (pos r + 16)) (16 * i)) as Hiv.
    pose proof (draw_length r 0) as Hk.
    destruct (key_block_length key _ _ HC Hlen Hiv Hk) as [H32 H48].
    done.
  - rewrite key_blocks_length; try done; try apply draw_length. lia.
Qed.
End Wire.

(** ** The concrete cipher satisfies what is assumed of a cipher *)

Lemma xorb_cancel_r (a b : bool) : xorb (xorb a b) b = a.
Proof. by destruct a, b. Qed.

Lemma xorb_twice_eq (a b c : bool) : xorb (xorb a b) c = a → b = c.
Proof. by destruct a, b, c. Qed.

Lemma xorb_inj_l (a b c : bool) : xorb a c = xorb b c → a = b.
Proof. by destruct a, b, c. Qed.

Lemma bxor_cancel_r (a b : byte) : bxor (bxor a b) b = a.
Proof.
  unfold bxor. rewrite Byte.to_bits_of_bits.
  rewrite <- (Byte.of_bits_to_bits a) at 2. f_equal.
  destruct (Byte.to_bits a) as (a0 & a1 & a2 & a3 & a4 & a5 & a6 & a7).
  destruct (Byte.to_bits b) as (b0 & b1 & b2 & b3 & b4 & b5 & b6 & b7).
  cbn. by rewrite !xorb_cancel_r.
Qed.

Lemma of_bits_inj x y : Byte.of_bits x = Byte.of_bits y → x = y.
Proof.
  intros Heq. rewrite <- (Byte.to_bits_of_bits x), <- (Byte.to_bits_of_bits y).
  by rewrite Heq.
Qed.

Lemma to_bits_inj (a b : byte) : Byte.to_bits a = Byte.to_bits b → a = b.
Proof.
  intros Heq. rewrite <- (Byte.of_bits_to_bits a), <- (Byte.of_bits_to_bits b).
  by rewrite Heq.
Qed.

Lemma bxor_twice_eq (a b c : byte) : bxor (bxor a b) c = a → b = c.
Proof.
  unfold bxor. rewrite Byte.to_bits_of_bits. intros Heq.
  rewrite <- (Byte.of_bits_to_bits a) in Heq at 2.
  apply of_bits_inj in Heq. apply to_bits_inj.
  destruct (Byte.to_bits a) as (a0 & a1 & a2 & a3 & a4 & a5 & a6 & a7).
  destruct (Byte.to_bits b) as (b0 & b1 & b2 & b3 & b4 & b5 & b6 & b7).
  destruct (Byte.to_bits c) as (c0 & c1 & c2 & c3 & c4 & c5 & c6 & c7).
  cbn in Heq.
  injection Heq as H0 H1 H2 H3 H4 H5 H6 H7.
  apply xorb_twice_eq in H0, H1, H2, H3, H4, H5, H6, H7. by subst.
Qed.

Lemma bxor_inj_l (a b c : byte) : bxor a c = bxor b c → a = b.
Proof.
  unfold bxor. intros Heq. apply of_bits_inj in Heq. apply to_bits_inj.
  destruct (Byte.to_bits a) as (a0 & a1 & a2 & a3 & a4 & a5 & a6 & a7).
  destruct (Byte.to_bits b) as (b0 & b1 & b2 & b3 & b4 & b5 & b6 & b7).
  destruct (Byte.to_bits c) as (c0 & c1 & c2 & c3 & c4 & c5 & c6 & c7).
  cbn in Heq.
  injection Heq as H0 H1 H2 H3 H4 H5 H6 H7.
  apply xorb_inj_l in H0, H1, H2, H3, H4, H5, H6, H7. by subst.
Qed.

Lemma xor_crypt_lookup (key iv data : bytes) (i : nat) :
  xor_crypt key iv data !! i = (fun x => bxor x (mask key iv i)) <$> data !! i.
Proof. unfold xor_crypt. apply list_lookup_imap. Qed.

Lemma xor_crypt_length (key iv data : bytes) :
  length (xor_crypt key iv data) = length data.
Proof. apply length_imap. Qed.

Lemma xor_crypt_involutive (key iv data : bytes) :
  xor_crypt key iv (xor_crypt key iv data) = data.
Proof.
  apply list_eq. intros i. rewrite !xor_crypt_lookup.
  destruct (data !! i) as [x|]; [|done]. cbn. by rewrite bxor_cancel_r.
Qed.

Lemma xor_cipher_keeps_length : keeps_length xor_cipher.
Proof. intros key iv data _. cbn. by rewrite xor_crypt_length. Qed.

Lemma xor_cipher_inverse : decrypt_inverts xor_cipher.
Proof. intros key iv data _. apply xor_crypt_involutive. Qed.

Lemma lists_differ `{EqDecision A} (l1 l2 : list A) :
  length l1 = length l2 → l1 ≠ l2 →
  ∃ i x y, l1 !! i = Some x ∧ l2 !! i = Some y ∧ x ≠ y.
Proof.
  revert l2. induction l1 as [|x l1 IH]; intros [|y l2] Hlen Hne; try done.
  destruct (decide (x = y)) as [->|Hxy].
  - destruct (IH l2) as (i & a & b & ?); [by injection Hlen|congruence|].
    by exists (S i), a, b.
  - by exists 0%nat, x, y.
Qed.

Lemma startswith_lookup (b p : bytes) (i : nat) (x : byte) :
  startswith b p = true → p !! i = Some x → b !! i = Some x.
Proof.
  intros Hsw Hp. apply startswith_prefix in Hsw as [rest ->].
  by apply lookup_app_l_Some.
Qed.

(** Under a key that differs from the right one in some byte, the
    marker comes out changed in that byte. *)
Lemma xor_cipher_wrong_key : marker_ideal xor_cipher.
Proof.
  intros key key' iv k Hne Hkey Hkey' Hiv Hk. cbn [cbc_encrypt cbc_decrypt xor_cipher].
  destruct (startswith (xor_crypt key' iv (xor_crypt key iv (TAG_VALID ++ k)))
                       TAG_VALID) eqn:Hsw; [exfalso|done].
  destruct (lists_differ key key') as (i & x & y & Hx & Hy & Hxy);
    [congruence|done|].
  assert (Hi : (i < 16)%nat) by (apply lookup_lt_Some in Hx; lia).
  destruct (lookup_lt_is_Some_2 TAG_VALID i) as [tg Htg];
    [by rewrite TAG_VALID_length|].
  pose proof (startswith_lookup _ _ i tg Hsw Htg) as Hres.
  rewrite !xor_crypt_lookup in Hres.
  rewrite (lookup_app_l_Some _ _ _ _ Htg) in Hres. cbn in Hres.
  injection Hres as Hres. apply bxor_twice_eq in Hres.
  unfold mask in Hres. rewrite Nat.mod_small in Hres by done.
  apply bxor_inj_l in Hres. rewrite !nth_lookup, Hx, Hy in Hres. done.
Qed.

(** ** decrypt: the scan *)

Lemma strides_nil : strides [] = [].
Proof. reflexivity. Qed.

Lemma strides_cons (c : bytes) :
  c ≠ [] → strides c = c :: strides (drop ENCRYPTED_KEY_SIZE c).
Proof.
  intros Hc. unfold strides.
  assert (Hlen : (1 ≤ length c)%nat) by (destruct c; [done|cbn; lia]).
  replace ((length c + 47) / 48)%nat
    with (S ((length (drop ENCRYPTED_KEY_SIZE c) + 47) / 48))%nat.
  - cbn [seq]. rewrite fmap_cons. f_equal.
    rewrite <- fmap_S_seq, <- list_fmap_compose.
    apply list_fmap_ext. intros _ i _. unfold compose, stride.
    rewrite drop_drop. by rewrite Nat.mul_succ_l, Nat.add_comm.
  - rewrite length_drop. change ENCRYPTED_KEY_SIZE with 48%nat.
    destruct (le_lt_dec 48 (length c)) as [Hge|Hlt].
    + replace (length c + 47)%nat with (length c - 48 + 47 + 1 * 48)%nat by lia.
      rewrite Nat.div_add by lia. lia.
    + replace (length c - 48 + 47)%nat with 47%nat by lia.
      change (47 / 48)%nat with 0%nat.
      apply Nat.div_unique with (r := (length c - 1)%nat); lia.
Qed.

Section Scan.
Context `{C : Cipher}.

(** Once the content key is known the loop only looks for the
    separator. *)
Lemma scan_found (self : AACS) (node_id : Z) (k : bytes) (fuel : nat) :
  ∀ c : bytes, (length c ≤ fuel)%nat →
    scan fuel self node_id (Some k) c
    = Ok (bool_decide (is_Some (at_separator (strides c))), Some k,
          default [] (at_separator (strides c))).
Proof.
  induction fuel as [|fuel IH]; intros c Hlen.
  - destruct c; [done|cbn in Hlen; lia].
  - destruct c as [|x c]; [done|].
    rewrite strides_cons by done. cbn [scan at_separator].
    destruct (startswith (x :: c) TAG_SEPARATOR) eqn:Hsep; [done|].
    cbn [mbind outcome_bind obind]. apply IH.
    rewrite length_drop. cbn in Hlen. cbn. lia.
Qed.

(** The whole loop: the key is the one the first key block to open
    gives, among the blocks in front of the separator; the separator is
    found when some stride starts with it, and the stream is then left
    at that stride. *)
Lemma scan_spec (self : AACS) (node_id : Z) (fuel : nat) :
  ∀ c : bytes, (length c ≤ fuel)%nat →
    scan fuel self node_id None c
    = (k ← first_key (get_known_keys self node_id) (scanned c);
       Ok (bool_decide (is_Some (at_separator (strides c))), k,
           default [] (at_separator (strides c)))).
Proof.
  induction fuel as [|fuel IH]; intros c Hlen.
  - destruct c; [done|cbn in Hlen; lia].
  - destruct c as [|x c]; [done|].
    unfold scanned. rewrite strides_cons by done.
    cbn [scan at_separator until_separator].
    destruct (startswith (x :: c) TAG_SEPARATOR) eqn:Hsep; [done|].
    cbn [first_key].
    assert (Hlen' : (length (drop ENCRYPTED_KEY_SIZE (x :: c)) ≤ fuel)%nat).
    { rewrite length_drop. cbn in Hlen. cbn. lia. }
    destruct (get_known_keys self node_id) as [keys|e|]; [|done|done].
    cbn [mbind outcome_bind obind].
    destruct (try_keys keys (take ENCRYPTED_KEY_SIZE (x :: c))) as [[k|]|e|];
      [|by apply IH|done|done].
    cbn [obind]. by apply scan_found.
Qed.

(** [decrypt], with the loop replaced by what it computes.  The test
    for the key comes first, the test for the separator second. *)
Lemma decrypt_spec (self : AACS) (node_id : Z) (c : bytes) :
  decrypt self node_id c
  = (k ← first_key (get_known_keys self node_id) (scanned c);
     match k with
     | None => Raise (KeyNotFound "The key couldn't be retrieved")
     | Some k =>
         match at_separator (strides c) with
         | None => Raise (ValueError "Separator not found")
         | Some s =>
             let c' := drop (length TAG_SEPARATOR) s in
             m ← AES_decrypt k (take 16 c') (drop 16 c');
             remove_padding m
         end
     end).
Proof.
  unfold decrypt. rewrite scan_spec by done.
  destruct (first_key (get_known_keys self node_id) (scanned c))
    as [[k|]|e|]; try done.
  cbn [mbind outcome_bind obind].
  by destruct (at_separator (strides c)).
Qed.
End Scan.

(** ** The keys a device knows *)

Lemma keys_of_ok (self : AACS) (ids : list Z) :
  wf self → Forall (fun j => 1 ≤ j ≤ last_leaf (tree self)) ids →
  keys_of self ids = Ok (key_at self <$> ids)
  ∧ Forall (fun key => length key = 16%nat) (key_at self <$> ids).
Proof.
  intros Hwf. induction 1 as [|j ids Hj Hids [IH1 IH2]]; [by split|].
  destruct (node_key_ok self j Hwf Hj) as [Hkey Hlen].
  cbn [keys_of]. rewrite Hkey. cbn [mbind outcome_bind obind]. rewrite IH1.
  split; [done|]. rewrite fmap_cons. by constructor.
Qed.

(** A node of the tree knows the keys of its path to the root, its own
    key first; they all have 16 bytes. *)
Lemma get_known_keys_ok (self : AACS) (node_id : Z) :
  wf self → 1 ≤ node_id ≤ last_leaf (tree self) →
  ∃ more,
    get_path_to_root node_id = Ok (node_id :: more)
    ∧ get_known_keys self node_id = Ok (key_at self <$> node_id :: more)
    ∧ Forall (fun key => length key = 16%nat) (key_at self <$> node_id :: more).
Proof.
  intros Hwf Hid.
  destruct (get_path_to_root_total node_id ltac:(lia)) as (more & Hpath & Hall & _).
  exists more. split; [done|].
  destruct (keys_of_ok self (node_id :: more) Hwf) as [Hkeys Hlens].
  { constructor; [done|]. eapply Forall_impl; [exact Hall|]. cbn. lia. }
  split; [|done]. unfold get_known_keys. by rewrite Hpath.
Qed.

(** ** decrypt: which error *)

Section Errors.
Context `{C : Cipher}.




End Errors.

(** ** decrypt after encrypt *)

Lemma take_app_len {A} (l k : list A) (n : nat) :
  length l = n → take n (l ++ k) = l.
Proof. intros <-. apply take_app_length. Qed.

Lemma drop_app_len {A} (l k : list A) (n : nat) :
  length l = n → drop n (l ++ k) = k.
Proof. intros <-. apply drop_app_length. Qed.

Lemma startswith_app_l (b rest p : bytes) :
  (length p ≤ length b)%nat → startswith (b ++ rest) p = startswith b p.
Proof.
  revert b. induction p as [|y p IH]; intros b Hlen; [done|].
  destruct b as [|x b]; [cbn in Hlen; lia|].
  cbn [app startswith]. rewrite IH; [done|]. cbn in Hlen. lia.
Qed.

(** A stream made of 48-byte blocks that do not start with the
    separator, then the separator: the scan reads exactly these blocks
    and stops at the separator. *)
Lemma scanned_blocks (blocks : list bytes) (tail : bytes) :
  Forall (fun b => length b = 48%nat ∧ startswith b TAG_SEPARATOR = false) blocks →
  scanned (concat blocks ++ TAG_SEPARATOR ++ tail) = blocks
  ∧ at_separator (strides (concat blocks ++ TAG_SEPARATOR ++ tail))
    = Some (TAG_SEPARATOR ++ tail).
Proof.
  unfold scanned. induction 1 as [|b blocks [Hlen Hsep] _ [IH1 IH2]].
  - cbn [concat app]. rewrite strides_cons by done.
    cbn [until_separator at_separator].
    by rewrite (startswith_app TAG_SEPARATOR tail).
  - cbn [concat]. rewrite <- app_assoc.
    assert (Hne : b ++ concat blocks ++ TAG_SEPARATOR ++ tail ≠ [])
      by (destruct b; [done|done]).
    rewrite strides_cons by done.
    cbn [until_separator at_separator].
    rewrite startswith_app_l by (rewrite Hlen; cbn; lia). rewrite Hsep.
    change ENCRYPTED_KEY_SIZE with 48%nat.
    rewrite (take_app_len _ _ _ Hlen), (drop_app_len _ _ _ Hlen).
    by rewrite IH1, IH2.
Qed.

Section Roundtrip.
Context `{C : Cipher}.
Hypothesis Hlength : keeps_length C.
Hypothesis Hinverse : decrypt_inverts C.

(** Trial decryption of a key block under its own key. *)
Lemma AES_decrypt_key_block (key iv k : bytes) :
  length key = 16%nat → length iv = 16%nat → length k = 16%nat →
  AES_decrypt key (take IV_SIZE (key_block key iv k))
              (drop IV_SIZE (key_block key iv k))
  = Ok (TAG_VALID ++ k).
Proof.
  intros Hkey Hiv Hk. unfold key_block. change IV_SIZE with 16%nat.
  rewrite (take_app_len _ _ _ Hiv), (drop_app_len _ _ _ Hiv).
  destruct (key_block_length key iv k Hlength Hkey Hiv Hk) as [H32 _].
  unfold AES_decrypt. rewrite aes_check_ok by (done || by rewrite H32).
  cbn [mbind outcome_bind obind mret outcome_ret].
  rewrite Hinverse; [done|].
  apply aes_check_ok; try done. by rewrite length_app, TAG_VALID_length, Hk.
Qed.

(** Trial decryption of a key block under another key, for an ideal
    cipher. *)
Lemma AES_decrypt_wrong_key (key key' iv k : bytes) :
  marker_ideal C → key ≠ key' →
  length key = 16%nat → length key' = 16%nat →
  length iv = 16%nat → length k = 16%nat →
  ∃ pt, AES_decrypt key' (take IV_SIZE (key_block key iv k))
                    (drop IV_SIZE (key_block key iv k)) = Ok pt
        ∧ startswith pt TAG_VALID = false.
Proof.
  intros Hideal Hne Hkey Hkey' Hiv Hk. unfold key_block. change IV_SIZE with 16%nat.
  rewrite (take_app_len _ _ _ Hiv), (drop_app_len _ _ _ Hiv).
  destruct (key_block_length key iv k Hlength Hkey Hiv Hk) as [H32 _].
  unfold AES_decrypt. rewrite aes_check_ok by (done || by rewrite H32).
  cbn [mbind outcome_bind obind mret outcome_ret].
  eexists. split; [done|]. by apply Hideal.
Qed.

(** The loop over the known keys on a key block: the content key comes
    out exactly when the key of the block is among the known keys. *)
Lemma try_keys_key_block (known : list bytes) (key iv k : bytes) :
  marker_ideal C →
  Forall (fun key' => length key' = 16%nat) known →
  length key = 16%nat → length iv = 16%nat → length k = 16%nat →
  try_keys known (key_block key iv k)
  = Ok (if bool_decide (key ∈ known) then Some k else None).
Proof.
  intros Hideal Hknown Hkey Hiv Hk.
  induction Hknown as [|key' known Hkey' _ IH].
  - cbn [try_keys]. by rewrite bool_decide_eq_false_2 by apply not_elem_of_nil.
  - cbn [try_keys]. destruct (decide (key = key')) as [<-|Hne].
    + rewrite AES_decrypt_key_block by done.
      cbn [mbind outcome_bind obind]. rewrite startswith_app.
      rewrite TAG_VALID_length, (drop_app_len _ _ _ TAG_VALID_length).
      by rewrite bool_decide_eq_true_2 by apply list_elem_of_here.
    + destruct (AES_decrypt_wrong_key key key' iv k) as (pt & -> & Hpt); try done.
      cbn [mbind outcome_bind obind]. rewrite Hpt, IH.
      f_equal. rewrite (bool_decide_ext (key ∈ key' :: known) (key ∈ known));
        [done|]. rewrite elem_of_cons. naive_solver.
Qed.

(** The same for the key blocks of a whole cover. *)
Lemma first_key_key_blocks (self : AACS) (known : list bytes) (k : bytes) :
  marker_ideal C → wf self →
  Forall (fun key' => length key' = 16%nat) known → length k = 16%nat →
  ∀ (cover : list Z) (r : rng),
    (∀ u, u ∈ cover → 1 ≤ u ≤ last_leaf (tree self)) →
    first_key (Ok known) (key_blocks self cover k r)
    = Ok (if bool_decide (Exists (fun u => key_at self u ∈ known) cover)
          then Some k else None).
Proof.
  intros Hideal Hwf Hknown Hk.
  induction cover as [|u cover IH]; intros r Hcov.
  - rewrite bool_decide_eq_false_2; [done|]. by intros ?%Exists_nil.
  - rewrite key_blocks_cons. cbn [first_key mbind outcome_bind obind].
    destruct (node_key_ok self u Hwf) as [_ Hlen]; [apply Hcov; set_solver|].
    rewrite try_keys_key_block by (done || apply draw_length).
    cbn [obind]. destruct (decide (key_at self u ∈ known)) as [Hin|Hnin].
    + rewrite (bool_decide_eq_true_2 _ Hin).
      by rewrite bool_decide_eq_true_2 by (by apply Exists_cons_hd).
    + rewrite (bool_decide_eq_false_2 _ Hnin).
      rewrite IH by (intros; apply Hcov; set_solver).
      f_equal.
      rewrite (bool_decide_ext (Exists (fun u => key_at self u ∈ known) (u :: cover))
                               (Exists (fun u => key_at self u ∈ known) cover));
        [done|]. rewrite Exists_cons. naive_solver.
Qed.

(** What the scan over the stream of [encrypt] reads. *)
Lemma scanned_encrypt (self : AACS) (k tail : bytes) (r : rng) :
  wf self → length k = 16%nat →
  Forall (fun i => startswith (draw r (16 * i)) TAG_SEPARATOR = false)
         (seq 0 (length (S_cover self))) →
  let blocks := key_blocks self (S_cover self) k r in
  scanned (concat blocks ++ TAG_SEPARATOR ++ tail) = blocks
  ∧ at_separator (strides (concat blocks ++ TAG_SEPARATOR ++ tail))
    = Some (TAG_SEPARATOR ++ tail).
Proof.
  intros Hwf Hk Hclear blocks. apply scanned_blocks.
  destruct (wf_cover_nodes _ Hwf) as (_ & _ & Hin).
  unfold blocks, key_blocks. apply Forall_forall. intros b Hb.
  apply list_elem_of_lookup in Hb as [i Hb].
  rewrite list_lookup_imap in Hb.
  destruct (S_cover self !! i) as [u|] eqn:Hu; [|done]. injection Hb as <-.
  destruct (node_key_ok self u Hwf) as [_ Hlen].
  { apply Hin. by eapply list_elem_of_lookup_2. }
  destruct (key_block_length (key_at self u) (draw r (16 * i)) k)
    as [_ H48]; try done; try apply draw_length.
  split; [done|]. unfold key_block.
  rewrite startswith_app_l by (rewrite draw_length; cbn; lia).
  rewrite Forall_forall in Hclear. apply Hclear.
  apply elem_of_seq. apply lookup_lt_Some in Hu. lia.
Qed.

(** [decrypt] applied to what [encrypt] returns, for an ideal cipher
    and a tape on which no vector of a key block starts with the
    separator: the device gets the message back when it holds the key
    of a cover node, and [KeyNotFound] when it holds none. *)
Lemma decrypt_encrypt (self : AACS) (node_id : Z) (m : bytes) (r : rng) :
  marker_ideal C → wf self → 1 ≤ node_id ≤ last_leaf (tree self) →
  vectors_clear r (length (S_cover self)) →
  ∃ c r' path,
    encrypt self m r = Ok (c, r')
    ∧ get_path_to_root node_id = Ok path
    ∧ decrypt self node_id c
      = if bool_decide (Exists (fun u => key_at self u ∈ key_at self <$> path)
                               (S_cover self))
        then Ok m
        else Raise (KeyNotFound "The key couldn't be retrieved").
Proof.
  intros Hideal Hwf Hid Hclear.
  destruct (encrypt_ok self m r Hwf) as (padded & Hpad & Hmod & Hrun).
  cbv zeta in Hrun.
  destruct (get_known_keys_ok self node_id Hwf Hid) as (more & Hpath & Hkeys & Hlens).
  eexists _, _, (node_id :: more). split; [exact Hrun|]. split; [exact Hpath|].
  rewrite decrypt_spec, Hkeys.
  set (r1 := Rng (tape r) (pos r + 16)).
  set (iv := draw r1 (16 * length (S_cover self))).
  destruct (scanned_encrypt self (draw r 0) (iv ++ cbc_encrypt (draw r 0) iv padded)
              r1 Hwf (draw_length r 0)) as [Hscan Hsep].
  { unfold vectors_clear in Hclear. rewrite Forall_forall in Hclear |- *.
    intros i Hi. unfold r1. rewrite draw_shift.
    replace (16 + 16 * i)%nat with (16 * S i)%nat by lia. by apply Hclear. }
  rewrite Hscan, Hsep.
  rewrite (first_key_key_blocks self _ (draw r 0) Hideal Hwf Hlens
             (draw_length r 0) (S_cover self) r1)
    by apply (wf_cover_nodes _ Hwf).
  cbn [mbind outcome_bind obind].
  destruct (bool_decide _); [|done].
  rewrite TAG_SEPARATOR_length.
  rewrite (drop_app_len _ _ _ TAG_SEPARATOR_length).
  pose proof (draw_length r1 (16 * length (S_cover self))) as Hiv. fold iv in Hiv.
  rewrite (take_app_len _ _ _ Hiv), (drop_app_len _ _ _ Hiv).
  assert (Hcheck : aes_check (draw r 0) iv padded = Ok ())
    by (apply aes_check_ok; [apply draw_length|done|done]).
  destruct (Hlength _ _ _ Hcheck) as [Hct _].
  unfold AES_decrypt. rewrite aes_check_ok;
    [|apply draw_length|done|by rewrite Hct].
  cbn [mbind outcome_bind obind mret outcome_ret].
  rewrite (Hinverse _ _ _ Hcheck).
  destruct (add_padding_ok m) as (v & Hval & Hpad').
  rewrite Hpad in Hpad'. injection Hpad' as ->.
  pose proof (pad_length_bounds m) as Hp.
  replace (Z.to_nat (16 - len m mod 16))
    with (S (Z.to_nat (16 - len m mod 16 - 1))) by lia.
  apply remove_padding_ok. lia.
Qed.
End Roundtrip.

(** ** Engines built by the constructor and a list of revocations *)

Lemma revoke_all_reachable (ids : list Z) : ∀ self self' : AACS,
  reachable self → revoke_all self ids = Ok self' → reachable self'.
Proof.
  induction ids as [|id ids IH]; intros self self' Hreach Hrun.
  - cbn in Hrun. by injection Hrun as <-.
  - cbn [revoke_all] in Hrun.
    destruct (revoke self id) as [[b self1]|e|] eqn:Hrev; try done.
    cbn [mbind outcome_bind obind snd] in Hrun.
    apply (IH self1); [|done]. by apply (reach_revoke self id b self1).
Qed.

Lemma engine_reachable (n0 : Z) (ids : list Z) (r r' : rng) (self : AACS) :
  engine n0 ids r = Ok (self, r') → reachable self.
Proof.
  unfold engine. rewrite M_bind_unfold.
  destruct (AACS_init n0 r) as [[self0 r0]|e|] eqn:Hinit; try done.
  unfold lift. destruct (revoke_all self0 ids) as [self1|e|] eqn:Hrev; try done.
  intros [= <- <-]. eapply revoke_all_reachable; [|exact Hrev].
  by apply (reach_init n0 r self0 r0).
Qed.

(** The tree the constructor returns, written out: only the keys
    depend on the random tape. *)
Lemma BinaryTree_init_shape (n0 : Z) (r : rng) :
  1 ≤ n0 →
  ∃ (keys : gmap Z bytes) (r' : rng),
    BinaryTree_init n0 r
    = Ok (mkBinaryTree n0 (Z.log2_up n0) (Z.log2_up n0 + 1) keys
                       (2 ^ Z.log2_up n0) (2 ^ (Z.log2_up n0 + 1) - 1), r').
Proof.
  intros Hn. unfold BinaryTree_init, ceil_log2.
  rewrite M_bind_unfold. unfold lift.
  destruct (Z.leb_spec n0 0) as [?|_]; [lia|].
  rewrite M_bind_unfold.
  destruct (fill_nodes_ok (range 1 (2 ^ (Z.log2_up n0 + 1) - 1 + 1)) ∅ r)
    as (keys & r' & -> & _).
  by exists keys, r'.
Qed.

Lemma initial_cover (n0 : Z) (keys : gmap Z bytes) (cover0 : list Z) :
  1 ≤ n0 →
  get_S_cover
    (mkAACS (mkBinaryTree n0 (Z.log2_up n0) (Z.log2_up n0 + 1) keys
                          (2 ^ Z.log2_up n0) (2 ^ (Z.log2_up n0 + 1) - 1))
            (list_to_set (range (2 ^ Z.log2_up n0)
                                (2 ^ (Z.log2_up n0 + 1) - 1 + 1)))
            ∅ cover0)
  = Ok (if 2 ^ Z.log2_up n0 =? n0 then [1] else []).
Proof.
  intros Hn. unfold get_S_cover. cbn [self_S self_T tree n].
  pose proof (Z.log2_up_nonneg n0) as Htpos.
  pose proof (size_leaves (mkBinaryTree n0 (Z.log2_up n0) (Z.log2_up n0 + 1) keys
                (2 ^ Z.log2_up n0) (2 ^ (Z.log2_up n0 + 1) - 1))) as Hsize.
  unfold get_leaves in Hsize. cbn [first_leaf last_leaf] in Hsize.
  rewrite Hsize. rewrite Z.pow_add_r by lia. change (2 ^ 1) with 2.
  pose proof (Z.pow_pos_nonneg 2 (Z.log2_up n0) ltac:(lia) Htpos).
  replace (Z.max 0 (2 ^ Z.log2_up n0 * 2 - 1 + 1 - 2 ^ Z.log2_up n0))
    with (2 ^ Z.log2_up n0) by lia.
  destruct (2 ^ Z.log2_up n0 =? n0); cbn.
  - by rewrite elements_singleton.
  - by rewrite elements_empty.
Qed.

(** The engine the constructor returns, written out. *)
Lemma AACS_init_shape (n0 : Z) (r : rng) :
  1 ≤ n0 →
  ∃ (keys : gmap Z bytes) (r' : rng),
    AACS_init n0 r
    = Ok (mkAACS (mkBinaryTree n0 (Z.log2_up n0) (Z.log2_up n0 + 1) keys
                               (2 ^ Z.log2_up n0) (2 ^ (Z.log2_up n0 + 1) - 1))
                 (list_to_set (range (2 ^ Z.log2_up n0)
                                     (2 ^ (Z.log2_up n0 + 1) - 1 + 1)))
                 ∅
                 (if 2 ^ Z.log2_up n0 =? n0 then [1] else []),
          r').
Proof.
  intros Hn. unfold AACS_init. rewrite M_bind_unfold.
  destruct (BinaryTree_init_shape n0 r Hn) as (keys & r' & ->).
  rewrite M_bind_unfold. unfold lift, get_leaves. cbn [first_leaf last_leaf].
  rewrite initial_cover by done. by exists keys, r'.
Qed.

(** ** What goes wrong on concrete engines *)

(** C1.  [AACS(8)], then [revoke(8)] and [revoke(9)], whatever the
    random tape: the cover is [(3, 5, 8, 9)].  Nodes 8 and 9 are the two
    revoked leaves: each is the sibling of the other, and
    [__get_S_cover] adds the sibling of every node of a revoked path
    without leaving out the nodes that lie on a revoked path
    themselves.  The cover reaches all eight leaves, where the valid
    ones are the six leaves 10..15.  After [revoke(8)] and [revoke(10)]
    the cover is [(3, 4, 5, 9, 11)], in which 4 is the parent of 9 and 5
    the parent of 11: no antichain. *)
Theorem cover_after_two_revocations (r : rng) :
  (∃ self r1, engine 8 [8; 9] r = Ok (self, r1)
     ∧ self_T self = {[ 8; 9 ]}
     ∧ self_S self = list_to_set [10; 11; 12; 13; 14; 15]
     ∧ S_cover self = [3; 5; 8; 9]
     ∧ covered (tree self) (S_cover self)
       = list_to_set [8; 9; 10; 11; 12; 13; 14; 15]
     ∧ ¬ cover_invariant self)
  ∧ (∃ self r1, engine 8 [8; 10] r = Ok (self, r1)
     ∧ self_T self = {[ 8; 10 ]}
     ∧ S_cover self = [3; 4; 5; 9; 11]
     ∧ get_parent 9 = 4 ∧ on_path 4 9 = true
     ∧ ¬ antichain (S_cover self)
     ∧ ¬ cover_invariant self).
Proof.
  destruct (AACS_init_shape 8 r ltac:(lia)) as (keys & r' & Hinit).
  split.
  - exists (mkAACS (mkBinaryTree 8 3 4 keys 8 15)
                   (list_to_set [10; 11; 12; 13; 14; 15]) {[ 8; 9 ]}
                   [3; 5; 8; 9]), r'.
    split.
    { unfold engine. rewrite M_bind_unfold, Hinit. vm_compute. reflexivity. }
    cbn [tree S_cover self_S self_T].
    split; [reflexivity|]. split; [reflexivity|]. split; [reflexivity|].
    assert (Hcov : covered (mkBinaryTree 8 3 4 keys 8 15) [3; 5; 8; 9]
                   = list_to_set [8; 9; 10; 11; 12; 13; 14; 15])
      by (vm_compute; reflexivity).
    split; [exact Hcov|].
    intros [Hc _]. cbn [tree S_cover self_S] in Hc. rewrite Hcov in Hc.
    assert (H8 : 8 ∈ (list_to_set [8; 9; 10; 11; 12; 13; 14; 15] : gset Z))
      by vm_decide.
    rewrite Hc in H8. revert H8. vm_decide.
  - exists (mkAACS (mkBinaryTree 8 3 4 keys 8 15)
                   (list_to_set [9; 11; 12; 13; 14; 15]) {[ 8; 10 ]}
                   [3; 4; 5; 9; 11]), r'.
    split.
    { unfold engine. rewrite M_bind_unfold, Hinit. vm_compute. reflexivity. }
    cbn [tree S_cover self_S self_T].
    split; [reflexivity|]. split; [reflexivity|]. split; [reflexivity|].
    split; [vm_compute; reflexivity|].
    assert (Ha : ¬ antichain [3; 4; 5; 9; 11]).
    { intros Ha. unfold antichain in Ha.
      apply Forall_cons in Ha as [_ Ha]. apply Forall_cons in Ha as [Ha _].
      do 3 apply Forall_cons in Ha as [_ Ha].
      apply Forall_cons in Ha as [[?|Ha] _]; [lia|]. vm_compute in Ha.
      discriminate Ha. }
    split; [exact Ha|]. intros [_ ?]. exact (Ha H).
Qed.

Lemma AACS_3_state (r : rng) :
  ∃ self r',
    AACS_init 3 r = Ok (self, r')
    ∧ wf self
    ∧ self_T self = ∅
    ∧ (∀ x, x ∈ self_S self ↔ 4 ≤ x ≤ 7)
    ∧ S_cover self = [].
Proof.
  destruct (AACS_init_ok 3 r ltac:(lia))
    as (self & r' & Hrun & Hwf & _ & Ht & HT & HS & Hcov).
  exists self, r'. split; [done|]. split; [done|]. split; [done|]. split; [|done].
  intros x. rewrite HS. unfold is_leaf.
  rewrite (wf_first _ Hwf), (wf_last _ Hwf), Ht.
  change (2 ^ Z.log2_up 3) with 4. by change (2 ^ (Z.log2_up 3 + 1) - 1) with 7.
Qed.

(** C3.  [AACS(3)], nothing revoked, whatever the cipher, the random
    tape, the message and the device: [encrypt] returns a stream and
    [decrypt] of that stream raises [KeyNotFound].  The cover is empty
    (see C4), so the stream starts with the separator and holds no key
    block; the leaves 4..7 are all valid and none of them gets the
    message back. *)
Theorem roundtrip_fails_on_AACS_3 `{C : Cipher} (r : rng) (m : bytes) (node_id : Z) :
  ∃ self r1 c r2,
    AACS_init 3 r = Ok (self, r1)
    ∧ self_T self = ∅
    ∧ (∀ x, x ∈ self_S self ↔ 4 ≤ x ≤ 7)
    ∧ encrypt self m r1 = Ok (c, r2)
    ∧ decrypt self node_id c = Raise (KeyNotFound "The key couldn't be retrieved").
Proof.
  destruct (AACS_3_state r) as (self & r1 & Hinit & Hwf & HT & HS & Hcov).
  destruct (encrypt_ok self m r1 Hwf) as (padded & _ & _ & Hrun).
  cbv zeta in Hrun. rewrite Hcov in Hrun.
  eexists self, r1, _, _. split; [done|]. split; [done|]. split; [done|].
  split; [exact Hrun|].
  rewrite decrypt_spec.
  destruct (scanned_blocks [] (draw (Rng (tape r1) (pos r1 + 16)) (16 * length (@nil Z))
      ++ cbc_encrypt (draw r1 0)
           (draw (Rng (tape r1) (pos r1 + 16)) (16 * length (@nil Z))) padded))
    as [Hscan _]; [constructor|].
  cbn [key_blocks imap concat app] in *. by rewrite Hscan.
Qed.

(** C2.  [AACS(8)], then [revoke(8)] and [revoke(9)], on any random
    tape; a cipher that keeps lengths, inverts and is ideal in the sense
    of [marker_ideal]; no vector of the four key blocks starts with the
    separator.  Device 8 is revoked, and yet for every message [m] the
    stream [encrypt(m)] decrypts to [m] on device 8, where the claim
    has [KeyNotFound].  The cover is [(3, 5, 8, 9)] (see C1): it holds
    node 8 itself, whose key device 8 knows. *)
Theorem revoked_device_decrypts `{C : Cipher} (r : rng) (self : AACS)
        (r1 : rng) (m : bytes) :
  keeps_length C → decrypt_inverts C → marker_ideal C →
  engine 8 [8; 9] r = Ok (self, r1) →
  vectors_clear r1 4 →
  8 ∈ self_T self ∧ (8 ∉ self_S self) ∧ S_cover self = [3; 5; 8; 9]
  ∧ ∃ c r2, encrypt self m r1 = Ok (c, r2) ∧ decrypt self 8 c = Ok m.
Proof.
  intros Hlength Hinverse Hideal Hengine Hclear.
  pose proof (reachable_wf _ (engine_reachable _ _ _ _ _ Hengine)) as Hwf.
  unfold engine in Hengine. rewrite M_bind_unfold in Hengine.
  destruct (AACS_init_shape 8 r ltac:(lia)) as (keys & r' & Hinit).
  rewrite Hinit in Hengine. vm_compute in Hengine.
  injection Hengine as <- <-.
  split; [vm_decide|]. split; [vm_decide|]. split; [reflexivity|].
  destruct (decrypt_encrypt Hlength Hinverse _ 8 m r' Hideal Hwf)
    as (c & r2 & path & Hrun & Hpath & Hdec).
  { cbn. lia. }
  { exact Hclear. }
  exists c, r2. split; [exact Hrun|].
  vm_compute in Hpath. injection Hpath as <-.
  rewrite bool_decide_eq_true_2 in Hdec; [exact Hdec|].
  cbn [S_cover]. do 2 apply Exists_cons_tl. apply Exists_cons_hd.
  rewrite fmap_cons. apply list_elem_of_here.
Qed.

(** A stream of one key block that the node opens, the separator, and
    a tail: [decrypt] recovers the content key, finds the separator and
    goes on to decrypt and unpad the tail. *)
Lemma decrypt_single_block `{C : Cipher} (self : AACS) (node_id : Z) (tail : bytes) :
  keeps_length C → decrypt_inverts C →
  wf self → 1 ≤ node_id ≤ last_leaf (tree self) →
  let block := key_block (key_at self node_id) zeros zeros in
  length block = 48%nat
  ∧ first_key (get_known_keys self node_id) [block] = Ok (Some zeros)
  ∧ at_separator (strides (block ++ TAG_SEPARATOR ++ tail))
    = Some (TAG_SEPARATOR ++ tail)
  ∧ decrypt self node_id (block ++ TAG_SEPARATOR ++ tail)
    = (m ← AES_decrypt zeros (take 16 tail) (drop 16 tail); remove_padding m).
Proof.
  intros Hlength Hinverse Hwf Hid block.
  destruct (get_known_keys_ok self node_id Hwf Hid) as (more & _ & Hkeys & Hlens).
  rewrite fmap_cons in Hkeys, Hlens. apply Forall_cons in Hlens as [Hkey _].
  assert (Hzeros : length zeros = 16%nat) by reflexivity.
  destruct (key_block_length (key_at self node_id) zeros zeros
              Hlength Hkey Hzeros Hzeros) as [_ H48].
  assert (Hfirst : first_key (get_known_keys self node_id) [block] = Ok (Some zeros)).
  { rewrite Hkeys. cbn [first_key try_keys mbind outcome_bind obind].
    unfold block. rewrite (AES_decrypt_key_block Hlength Hinverse) by done.
    cbn [mbind outcome_bind obind]. rewrite startswith_app.
    by rewrite (drop_app_len _ _ _ TAG_VALID_length). }
  destruct (scanned_blocks [block] tail) as [Hscan Hsep].
  { constructor; [|constructor]. split; [done|].
    unfold block, key_block. by rewrite startswith_app_l by (cbn; lia). }
  cbn [concat] in Hscan, Hsep. rewrite app_nil_r in Hscan, Hsep.
  split; [done|]. split; [done|]. split; [done|].
  rewrite decrypt_spec, Hscan, Hfirst, Hsep.
  cbn [mbind outcome_bind obind].
  by rewrite (drop_app_len _ _ _ TAG_SEPARATOR_length).
Qed.

(** The cipher's wrapper rejects a vector that has not 16 bytes. *)
Lemma AES_decrypt_short_vector `{C : Cipher} (key iv ciphertext : bytes) :
  aes_key_ok key = true → length iv ≠ 16%nat →
  ∃ msg, AES_decrypt key iv ciphertext = Raise (ValueError msg)
         ∧ msg ≠ "Separator not found"%string.
Proof.
  intros Hkey Hiv. unfold AES_decrypt, aes_check. rewrite Hkey.
  destruct (Nat.eqb_spec (length iv) 16) as [?|_]; [done|].
  eexists. split; [reflexivity|]. cbn. discriminate.
Qed.

(** With fewer than 16 bytes after the separator the unpadding is not
    reached: what is left is no vector, and the cipher's wrapper raises
    its [ValueError]. *)
Lemma decrypt_short_tail `{C : Cipher} (self : AACS) (node_id : Z) (short : bytes) :
  keeps_length C → decrypt_inverts C →
  wf self → 1 ≤ node_id ≤ last_leaf (tree self) →
  (length short < 16)%nat →
  at_separator (strides (key_block (key_at self node_id) zeros zeros
                           ++ TAG_SEPARATOR ++ short))
  = Some (TAG_SEPARATOR ++ short)
  ∧ ∃ msg,
      decrypt self node_id
              (key_block (key_at self node_id) zeros zeros ++ TAG_SEPARATOR ++ short)
      = Raise (ValueError msg)
      ∧ msg ≠ "Separator not found"%string.
Proof.
  intros Hlength Hinverse Hwf Hid Hshort.
  destruct (decrypt_single_block self node_id short Hlength Hinverse Hwf Hid)
    as (_ & _ & Hsep & Hdec).
  split; [done|]. rewrite Hdec.
  destruct (AES_decrypt_short_vector zeros (take 16 short) (drop 16 short))
    as (msg & Hmsg & Hne); [reflexivity|rewrite length_take; lia|].
  exists msg. split; [by rewrite Hmsg|done].
Qed.

(** C10, amended.  [remove_padding] is not total: on the empty string
    it raises [IndexError].  And [decrypt] runs into it.  For every
    reachable engine and every node of its tree there is a stream, made
    of one key block that the node opens, the separator, and exactly 16
    more bytes, on which [decrypt] recovers a content key, finds the
    separator, and then raises [IndexError], which is neither
    [KeyNotFound] nor the [ValueError] of a missing separator.  (The 16
    bytes are a vector followed by an empty ciphertext, which decrypts
    to the empty string.)  With fewer than 16 bytes after the
    separator, none at all included, the separator is found as well but
    the unpadding is not reached: the bytes are no vector for the
    cipher, whose wrapper raises a [ValueError] of its own. *)
Theorem decrypt_IndexError `{C : Cipher} (self : AACS) (node_id : Z) :
  keeps_length C → decrypt_inverts C →
  reachable self → 1 ≤ node_id ≤ last_leaf (tree self) →
  remove_padding [] = Raise IndexError
  ∧ ∃ block k tail,
      length block = 48%nat ∧ length tail = 16%nat
      ∧ first_key (get_known_keys self node_id) [block] = Ok (Some k)
      ∧ at_separator (strides (block ++ TAG_SEPARATOR ++ tail))
        = Some (TAG_SEPARATOR ++ tail)
      ∧ decrypt self node_id (block ++ TAG_SEPARATOR ++ tail) = Raise IndexError
      ∧ ∀ short : bytes,
          (length short < 16)%nat →
          at_separator (strides (block ++ TAG_SEPARATOR ++ short))
          = Some (TAG_SEPARATOR ++ short)
          ∧ ∃ msg,
              decrypt self node_id (block ++ TAG_SEPARATOR ++ short)
              = Raise (ValueError msg)
              ∧ msg ≠ "Separator not found"%string.
Proof.
  intros Hlength Hinverse Hreach Hid. split; [reflexivity|].
  pose proof (reachable_wf _ Hreach) as Hwf.
  destruct (decrypt_single_block self node_id zeros Hlength Hinverse Hwf Hid)
    as (H48 & Hfirst & Hsep & Hdec).
  exists (key_block (key_at self node_id) zeros zeros), zeros, zeros.
  split; [done|]. split; [reflexivity|]. split; [done|]. split; [done|].
  split; [|intros short Hshort; by apply decrypt_short_tail].
  rewrite Hdec.
  change (take 16 zeros) with zeros. change (drop 16 zeros) with (@nil byte).
  unfold AES_decrypt.
  assert (Hcheck : aes_check zeros zeros [] = Ok ()) by reflexivity.
  rewrite Hcheck. cbn [mbind outcome_bind obind mret outcome_ret].
  destruct (Hlength _ _ _ Hcheck) as [_ Hnil].
  by rewrite (nil_length_inv _ Hnil).
Qed.

(** ** The theorems above on concrete engines *)

Lemma engine_8_reachable : reachable engine_8.
Proof.
  apply (engine_reachable 8 [8] demo_rng (Rng demo_tape 240)).
  vm_compute. reflexivity.
Qed.




Lemma demo_message_length : length demo_message = 50%nat.
Proof. reflexivity. Qed.

Lemma engine_8_9_run :
  engine 8 [8; 9] demo_rng = Ok (engine_8_9, Rng demo_tape 240).
Proof. vm_compute. reflexivity. Qed.

Lemma demo_vectors_clear : vectors_clear (Rng demo_tape 240) 4.
Proof. unfold vectors_clear. vm_decide. Qed.

Lemma revoked_device_decrypts_witness :
  8 ∈ self_T engine_8_9 ∧ (8 ∉ self_S engine_8_9)
  ∧ S_cover engine_8_9 = [3; 5; 8; 9]
  ∧ ∃ c r2,
      encrypt (H := xor_cipher) engine_8_9 demo_message (Rng demo_tape 240)
      = Ok (c, r2)
      ∧ decrypt (H := xor_cipher) engine_8_9 8 c = Ok demo_message.
Proof.
  apply (revoked_device_decrypts (C := xor_cipher) demo_rng engine_8_9
           (Rng demo_tape 240) demo_message
           xor_cipher_keeps_length xor_cipher_inverse xor_cipher_wrong_key
           engine_8_9_run demo_vectors_clear).
Defined.

Lemma encrypt_wire_format_witness :
  ∃ k blocks iv padded r',
    encrypt (H := xor_cipher) engine_8 demo_message (Rng demo_tape 240)
    = Ok (concat blocks ++ TAG_SEPARATOR ++ iv
            ++ cbc_encrypt (Cipher := xor_cipher) k iv padded, r')
    ∧ length k = 16%nat
    ∧ StronglySorted Z.lt (S_cover engine_8)
    ∧ Forall2 (fun u block =>
                 ∃ key iv_u,
                   nodes (tree engine_8) !! u = Some key
                   ∧ length iv_u = 16%nat
                   ∧ length (cbc_encrypt (Cipher := xor_cipher) key iv_u
                                         (TAG_VALID ++ k)) = 32%nat
                   ∧ block = iv_u ++ cbc_encrypt (Cipher := xor_cipher) key iv_u
                                                 (TAG_VALID ++ k)
                   ∧ length block = 48%nat)
              (S_cover engine_8) blocks
    ∧ length (concat blocks) = (length (S_cover engine_8) * 48)%nat
    ∧ TAG_SEPARATOR = list_byte_of_string "END_OF_KEYS"
    ∧ length TAG_SEPARATOR = 11%nat
    ∧ length TAG_VALID = 16%nat
    ∧ length iv = 16%nat
    ∧ add_padding demo_message = Ok padded
    ∧ (length padded mod 16 = 0)%nat
    ∧ (∃ v, byte_val v = 16 - len demo_message mod 16 - 1
            ∧ padded = demo_message
                       ++ repeat v (Z.to_nat (16 - len demo_message mod 16)))
    ∧ S_cover engine_8 = [3; 5; 9]
    ∧ length blocks = 3%nat
    ∧ padded = demo_message ++ repeat x0d 14.
Proof.
  destruct (encrypt_wire_format (C := xor_cipher) engine_8 demo_message
              (Rng demo_tape 240) xor_cipher_keeps_length engine_8_reachable)
    as (k & blocks & iv & padded & r' & Hrun & Hk & Hs & Hblocks & Hlen
        & Hsep & Hsl & Hvl & Hiv & Hpad & Hmod & Hv).
  assert (Hcover : S_cover engine_8 = [3; 5; 9]) by (vm_compute; reflexivity).
  pose proof (Forall2_length _ _ _ Hblocks) as Hn. rewrite Hcover in Hn.
  pose proof Hpad as Hpad'. vm_compute in Hpad'. injection Hpad' as Hpadded.
  exists k, blocks, iv, padded, r'.
  split; [exact Hrun|]. split; [exact Hk|]. split; [exact Hs|].
  split; [exact Hblocks|]. split; [exact Hlen|]. split; [exact Hsep|].
  split; [exact Hsl|]. split; [exact Hvl|]. split; [exact Hiv|].
  split; [exact Hpad|]. split; [exact Hmod|]. split; [exact Hv|].
  split; [exact Hcover|]. split; [by rewrite <- Hn|by rewrite <- Hpadded].
Defined.

(** C10, as the claim states it, names the stream that ends right
    after the separator.  On that stream, for node 9 of [engine_8] and
    a key block that the node opens, [decrypt] recovers the content key
    and finds the separator with nothing behind it, and what it raises
    is the [ValueError] of the cipher's wrapper, not [IndexError]. *)
Lemma stream_ending_at_separator_raises_ValueError :
  first_key (H := xor_cipher) (get_known_keys engine_8 9)
            [key_block (H := xor_cipher) (key_at engine_8 9) zeros zeros]
  = Ok (Some zeros)
  ∧ at_separator (strides (key_block (H := xor_cipher) (key_at engine_8 9) zeros zeros
                             ++ TAG_SEPARATOR))
    = Some TAG_SEPARATOR
  ∧ (∃ msg,
       decrypt (H := xor_cipher) engine_8 9
               (key_block (H := xor_cipher) (key_at engine_8 9) zeros zeros
                  ++ TAG_SEPARATOR)
       = Raise (ValueError msg)
       ∧ msg ≠ "Separator not found"%string)
  ∧ ¬ (decrypt (H := xor_cipher) engine_8 9
               (key_block (H := xor_cipher) (key_at engine_8 9) zeros zeros
                  ++ TAG_SEPARATOR)
       = Raise IndexError).
Proof.
  assert (Hdec : decrypt (H := xor_cipher) engine_8 9
                   (key_block (H := xor_cipher) (key_at engine_8 9) zeros zeros
                      ++ TAG_SEPARATOR)
                 = Raise (ValueError "Invalid IV size (0) for CBC."))
    by (vm_compute; reflexivity).
  split; [vm_compute; reflexivity|]. split; [vm_compute; reflexivity|].
  split; [eexists; split; [exact Hdec|discriminate]|].
  rewrite Hdec. discriminate.
Qed.

Lemma decrypt_IndexError_witness :
  remove_padding [] = Raise IndexError
  ∧ ∃ block k tail,
      length block = 48%nat ∧ length tail = 16%nat
      ∧ first_key (H := xor_cipher) (get_known_keys engine_8 9) [block]
        = Ok (Some k)
      ∧ at_separator (strides (block ++ TAG_SEPARATOR ++ tail))
        = Some (TAG_SEPARATOR ++ tail)
      ∧ decrypt (H := xor_cipher) engine_8 9 (block ++ TAG_SEPARATOR ++ tail)
        = Raise IndexError
      ∧ ∀ short : bytes,
          (length short < 16)%nat →
          at_separator (strides (block ++ TAG_SEPARATOR ++ short))
          = Some (TAG_SEPARATOR ++ short)
          ∧ ∃ msg,
              decrypt (H := xor_cipher) engine_8 9 (block ++ TAG_SEPARATOR ++ short)
              = Raise (ValueError msg)
              ∧ msg ≠ "Separator not found"%string.
Proof.
  apply (decrypt_IndexError (C := xor_cipher) engine_8 9
           xor_cipher_keeps_length xor_cipher_inverse engine_8_reachable).
  vm_compute. split; discriminate.
Defined.

(** ** What does hold of decrypt after encrypt *)

Lemma on_path_elem (u x : Z) (path : list Z) :
  get_path_to_root x = Ok path → on_path u x = true ↔ u ∈ path.
Proof.
  intros Hpath. unfold on_path. rewrite Hpath.
  by rewrite bool_decide_eq_true.
Qed.

Section Guarantees.
Context `{C : Cipher}.
Hypothesis Hlength : keeps_length C.
Hypothesis Hinverse : decrypt_inverts C.
Hypothesis Hideal : marker_ideal C.

(** A device below a cover node gets the message back. *)
Lemma device_on_cover_decrypts (self : AACS) (node_id : Z) (m : bytes) (r : rng) :
  wf self → 1 ≤ node_id ≤ last_leaf (tree self) →
  vectors_clear r (length (S_cover self)) →
  (∃ u, u ∈ S_cover self ∧ on_path u node_id = true) →
  ∃ c r', encrypt self m r = Ok (c, r') ∧ decrypt self node_id c = Ok m.
Proof.
  intros Hwf Hid Hclear (u & Hu & Hon).
  destruct (decrypt_encrypt Hlength Hinverse self node_id m r Hideal Hwf Hid Hclear)
    as (c & r' & path & Hrun & Hpath & Hdec).
  exists c, r'. split; [done|]. rewrite Hdec, bool_decide_eq_true_2; [done|].
  apply Exists_exists. exists u. split; [done|].
  apply list_elem_of_fmap_2. by apply (on_path_elem u node_id path Hpath).
Qed.

(** A device below no cover node gets [KeyNotFound], when the keys of
    the tree are pairwise different. *)
Lemma device_off_cover_fails (self : AACS) (node_id : Z) (m : bytes) (r : rng) :
  wf self → 1 ≤ node_id ≤ last_leaf (tree self) →
  vectors_clear r (length (S_cover self)) →
  (∀ u v, 1 ≤ u ≤ last_leaf (tree self) → 1 ≤ v ≤ last_leaf (tree self) →
          key_at self u = key_at self v → u = v) →
  (∀ u, u ∈ S_cover self → on_path u node_id = false) →
  ∃ c r', encrypt self m r = Ok (c, r')
          ∧ decrypt self node_id c
            = Raise (KeyNotFound "The key couldn't be retrieved").
Proof.
  intros Hwf Hid Hclear Hdistinct Hoff.
  destruct (decrypt_encrypt Hlength Hinverse self node_id m r Hideal Hwf Hid Hclear)
    as (c & r' & path & Hrun & Hpath & Hdec).
  exists c, r'. split; [done|]. rewrite Hdec, bool_decide_eq_false_2; [done|].
  intros Hex. apply Exists_exists in Hex as (u & Hu & Hin).
  apply list_elem_of_fmap in Hin as (v & Hkey & Hv).
  destruct (get_path_to_root_total node_id ltac:(lia)) as (more & Hrun' & Hall & _).
  assert (Hvr : 1 ≤ v ≤ last_leaf (tree self)).
  { rewrite Hrun' in Hpath. injection Hpath as <-.
    apply elem_of_cons in Hv as [->|Hv]; [lia|].
    rewrite Forall_forall in Hall. apply Hall in Hv. lia. }
  pose proof (proj2 (proj2 (wf_cover_nodes _ Hwf)) u Hu) as Hur.
  assert (u = v) as -> by (by apply Hdistinct).
  specialize (Hoff v Hu). apply (on_path_elem v node_id path Hpath) in Hv.
  congruence.
Qed.

(** With nothing revoked and a number of devices that is a power of
    two, every node of the tree gets the message back. *)
Lemma roundtrip_without_revocation (n0 : Z) (r : rng) (self : AACS) (r1 : rng)
      (node_id : Z) (m : bytes) :
  1 ≤ n0 → n0 = 2 ^ Z.log2_up n0 →
  AACS_init n0 r = Ok (self, r1) →
  1 ≤ node_id ≤ last_leaf (tree self) →
  vectors_clear r1 1 →
  ∃ c r2, encrypt self m r1 = Ok (c, r2) ∧ decrypt self node_id c = Ok m.
Proof.
  intros Hn Hpow Hinit Hid Hclear.
  destruct (AACS_init_ok n0 r Hn) as (self' & r' & Hrun & Hwf & _ & _ & _ & _ & Hcov).
  rewrite Hinit in Hrun. injection Hrun as <- <-.
  rewrite <- Hpow, Z.eqb_refl in Hcov.
  apply device_on_cover_decrypts; try done; [by rewrite Hcov|].
  exists 1. rewrite Hcov. split; [apply list_elem_of_here|].
  destruct (get_path_to_root_total node_id ltac:(lia)) as (more & Hpath & _ & Hlast).
  apply (on_path_elem 1 node_id _ Hpath).
  apply last_Some in Hlast as [l' ->]. set_solver.
Qed.
End Guarantees.

(** * Further properties of the code

    ** tree.py: the path to the root, written out *)

Lemma log2_parent (id : Z) : 2 ≤ id → Z.log2 id = Z.log2 (get_parent id) + 1.
Proof.
  intros Hid. unfold get_parent.
  pose proof (Z.log2_le_mono 2 id Hid) as Hlog. change (Z.log2 2) with 1 in Hlog.
  replace (id / 2) with (Z.shiftr id 1)
    by (rewrite Z.shiftr_div_pow2 by lia; by rewrite Z.pow_1_r).
  rewrite Z.log2_shiftr by lia. lia.
Qed.

Lemma ancestors_step (id : Z) :
  2 ≤ id →
  (fun k => id / 2 ^ k) <$> seqZ 1 (Z.log2 id)
  = get_parent id :: ((fun k => get_parent id / 2 ^ k) <$> seqZ 1 (Z.log2 (get_parent id))).
Proof.
  intros Hid. rewrite (log2_parent id Hid).
  pose proof (Z.log2_nonneg (get_parent id)) as Hlog.
  rewrite seqZ_cons by lia. rewrite fmap_cons.
  replace (id / 2 ^ 1) with (get_parent id)
    by (unfold get_parent; by rewrite Z.pow_1_r).
  f_equal.
  replace (Z.pred (Z.log2 (get_parent id) + 1)) with (Z.log2 (get_parent id)) by lia.
  change (Z.succ 1) with (1 + 1). rewrite <- (fmap_add_seqZ 1 1).
  rewrite <- list_fmap_compose. apply list_fmap_ext. intros i k Hk.
  apply list_elem_of_lookup_2, elem_of_seqZ in Hk.
  unfold compose, get_parent. rewrite Z.div_div by lia.
  f_equal. rewrite Z.pow_add_r by lia. by rewrite Z.pow_1_r.
Qed.

Lemma path_loop_spec (fuel : nat) : ∀ (path : list Z) (id : Z),
  last path = Some id → 1 ≤ id ≤ Z.of_nat fuel →
  path_loop fuel path id
  = Ok (path ++ ((fun k => id / 2 ^ k) <$> seqZ 1 (Z.log2 id))).
Proof.
  induction fuel as [|fuel IH]; intros path id Hlast Hid; [lia|].
  cbn [path_loop]. rewrite Hlast.
  destruct (Z.eqb_spec id 1) as [->|Hne].
  - by rewrite app_nil_r.
  - pose proof (get_parent_bounds id ltac:(lia)) as Hpar.
    rewrite (IH (path ++ [get_parent id]) (get_parent id));
      [|by rewrite last_snoc|lia].
    rewrite (ancestors_step id) by lia. by rewrite <- app_assoc.
Qed.

Lemma path_eq (id : Z) :
  1 ≤ id →
  get_path_to_root id
  = Ok ((fun k => id / 2 ^ k) <$> seqZ 0 (Z.log2 id + 1)).
Proof.
  intros Hid. unfold get_path_to_root.
  rewrite (path_loop_spec _ [id] id) by (done || lia). f_equal.
  pose proof (Z.log2_nonneg id) as Hlog.
  rewrite (seqZ_cons 0) by lia. rewrite fmap_cons.
  rewrite Z.pow_0_r, Z.div_1_r. cbn [app]. f_equal.
  by replace (Z.pred (Z.log2 id + 1)) with (Z.log2 id) by lia.
Qed.

Lemma path_len (id : Z) (path : list Z) :
  1 ≤ id → get_path_to_root id = Ok path → len path = Z.log2 id + 1.
Proof.
  intros Hid Hpath. rewrite path_eq in Hpath by done. injection Hpath as <-.
  unfold len. rewrite length_fmap, length_seqZ.
  pose proof (Z.log2_nonneg id). lia.
Qed.

Lemma elem_of_path (id u : Z) (path : list Z) :
  1 ≤ id → get_path_to_root id = Ok path →
  u ∈ path ↔ ∃ k, 0 ≤ k ≤ Z.log2 id ∧ u = id / 2 ^ k.
Proof.
  intros Hid Hpath. rewrite path_eq in Hpath by done. injection Hpath as <-.
  rewrite list_elem_of_fmap. split.
  - intros (k & -> & Hk). apply elem_of_seqZ in Hk. exists k. lia.
  - intros (k & Hk & ->). exists k. split; [done|]. apply elem_of_seqZ. lia.
Qed.

(** The ancestor [k] levels up: it is a node, [k] levels higher. *)
Lemma log2_ancestor (id k : Z) :
  1 ≤ id → 0 ≤ k ≤ Z.log2 id →
  1 ≤ id / 2 ^ k ∧ Z.log2 (id / 2 ^ k) = Z.log2 id - k.
Proof.
  intros Hid Hk.
  destruct (Z.log2_spec id ltac:(lia)) as [Hlo _].
  assert (Hpow : 2 ^ k ≤ 2 ^ Z.log2 id) by (apply Z.pow_le_mono_r; lia).
  pose proof (Z.pow_pos_nonneg 2 k ltac:(lia) ltac:(lia)) as Hpos.
  split.
  - apply Z.div_le_lower_bound; lia.
  - rewrite <- Z.shiftr_div_pow2 by lia. rewrite Z.log2_shiftr by lia. lia.
Qed.

Lemma leaf_log2 (lvl x : Z) :
  0 ≤ lvl → 2 ^ lvl ≤ x ≤ 2 ^ (lvl + 1) - 1 → Z.log2 x = lvl.
Proof.
  intros Hl Hx. apply Z.log2_unique; [done|].
  replace (Z.succ lvl) with (lvl + 1) by lia. lia.
Qed.

(** X1.  [get_path_to_root(id)] for [id >= 1] returns the ids
    [id // 2**k] for [k = 0 .. floor(log2(id))], in this order: the
    node first, then its parent, its grandparent, and so on; the last
    one is the root 1.  The path has [floor(log2(id)) + 1] nodes. *)
Theorem get_path_to_root_spec (id : Z) :
  1 ≤ id →
  ∃ path,
    get_path_to_root id = Ok path
    ∧ path = (fun k => id / 2 ^ k) <$> seqZ 0 (Z.log2 id + 1)
    ∧ len path = Z.log2 id + 1
    ∧ head path = Some id
    ∧ last path = Some 1.
Proof.
  intros Hid.
  destruct (get_path_to_root_total id Hid) as (more & Hrun & _ & Hlast).
  exists (id :: more). split; [done|].
  split; [|split; [by apply path_len|done]].
  rewrite path_eq in Hrun by done. by injection Hrun as <-.
Qed.

Lemma get_path_to_root_spec_witness :
  ∃ path,
    get_path_to_root 13 = Ok path
    ∧ path = (fun k => 13 / 2 ^ k) <$> seqZ 0 (Z.log2 13 + 1)
    ∧ len path = Z.log2 13 + 1
    ∧ head path = Some 13
    ∧ last path = Some 1.
Proof. apply (get_path_to_root_spec 13). lia. Defined.

(** X2.  From an id below 1 the loop of [get_path_to_root] never
    reaches the root: it is still running after any number of rounds,
    so the call does not return. *)
Theorem get_path_to_root_never_returns (id : Z) :
  id ≤ 0 →
  (∀ fuel, path_loop fuel [id] id = Diverge)
  ∧ get_path_to_root id = Diverge.
Proof.
  intros Hid. split.
  - intros fuel. by apply path_loop_diverges.
  - by apply get_path_to_root_diverges.
Qed.

Lemma get_path_to_root_never_returns_witness :
  (∀ fuel, path_loop fuel [0] 0 = Diverge)
  ∧ get_path_to_root 0 = Diverge.
Proof. apply (get_path_to_root_never_returns 0). lia. Defined.

(** ** tree.py: the two children of a node *)

Lemma mod2_cases (i : Z) :
  (i mod 2 = 0 ∧ i = 2 * (i / 2)) ∨ (i mod 2 = 1 ∧ i = 2 * (i / 2) + 1).
Proof.
  pose proof (Z.div_mod i 2 ltac:(lia)). pose proof (Z.mod_pos_bound i 2 ltac:(lia)).
  lia.
Qed.

Lemma get_sibling_cases (i : Z) :
  (i mod 2 = 0 ∧ get_sibling i = i + 1) ∨ (i mod 2 = 1 ∧ get_sibling i = i - 1).
Proof.
  unfold get_sibling. destruct (mod2_cases i) as [[Hm _]|[Hm _]]; rewrite Hm; cbn; lia.
Qed.

Lemma get_sibling_parent (i : Z) : get_parent (get_sibling i) = get_parent i.
Proof.
  unfold get_parent.
  destruct (get_sibling_cases i) as [[Hm ->]|[Hm ->]].
  - destruct (mod2_cases i) as [[_ Hi]|[? _]]; [|lia].
    destruct (mod2_cases (i + 1)) as [[_ Hj]|[_ Hj]]; lia.
  - destruct (mod2_cases i) as [[? _]|[_ Hi]]; [lia|].
    destruct (mod2_cases (i - 1)) as [[_ Hj]|[_ Hj]]; lia.
Qed.

Lemma get_sibling_involutive (i : Z) : get_sibling (get_sibling i) = i.
Proof.
  destruct (get_sibling_cases i) as [[Hm Hs]|[Hm Hs]];
    destruct (get_sibling_cases (get_sibling i)) as [[Hm' ->]|[Hm' ->]];
    rewrite Hs in *;
    destruct (mod2_cases i) as [[? ?]|[? ?]];
    destruct (mod2_cases (i + 1)) as [[? ?]|[? ?]];
    destruct (mod2_cases (i - 1)) as [[? ?]|[? ?]]; lia.
Qed.

Lemma same_parent (i j : Z) :
  get_parent j = get_parent i ↔ j = i ∨ j = get_sibling i.
Proof.
  split.
  - unfold get_parent. intros Hp.
    destruct (get_sibling_cases i) as [[Hm ->]|[Hm ->]];
      destruct (mod2_cases i) as [[? ?]|[? ?]];
      destruct (mod2_cases j) as [[? ?]|[? ?]]; lia.
  - intros [->| ->]; [done|apply get_sibling_parent].
Qed.

(** X3.  [get_sibling] pairs the node ids two by two: the sibling of
    the sibling is the node itself, a node is never its own sibling,
    both have the same parent, and a parent has no other child than
    these two. *)
Theorem sibling_pairs (i : Z) :
  get_sibling (get_sibling i) = i
  ∧ get_sibling i ≠ i
  ∧ get_parent (get_sibling i) = get_parent i
  ∧ ∀ j, get_parent j = get_parent i ↔ j = i ∨ j = get_sibling i.
Proof.
  split; [apply get_sibling_involutive|].
  split; [|split; [apply get_sibling_parent|intros j; apply same_parent]].
  destruct (get_sibling_cases i) as [[_ ->]|[_ ->]]; lia.
Qed.

(** ** tree.py: the constructor, key by key *)

Lemma fill_nodes_layout (ids : list Z) : ∀ (m : gmap Z bytes) (r : rng),
  NoDup ids →
  ∃ m', fill_nodes ids m r = Ok (m', Rng (tape r) (pos r + 16 * length ids))
    ∧ (∀ k i, ids !! k = Some i → m' !! i = Some (draw r (16 * k)))
    ∧ (∀ i, i ∉ ids → m' !! i = m !! i).
Proof.
  induction ids as [|i ids IH]; intros m r Hnd.
  - exists m. split; [|by split].
    cbn. unfold mret, M_ret, ret. destruct r as [tp p]. cbn. do 3 f_equal. lia.
  - apply NoDup_cons in Hnd as [Hi Hnd].
    cbn [fill_nodes]. rewrite M_bind_unfold, get_random_key_128.
    destruct (IH (<[i := map (tape r) (seq (pos r) 16)]> m)
                 (Rng (tape r) (pos r + 16)) Hnd) as (m' & Hrun & Hin & Hout).
    exists m'. split; [|split].
    + rewrite Hrun. cbn [tape pos length]. do 3 f_equal. lia.
    + intros [|k] j Hk.
      * injection Hk as ->. rewrite (Hout _ Hi), lookup_insert_eq.
        unfold draw. by rewrite Nat.mul_0_r, Nat.add_0_r.
      * cbn in Hk. rewrite (Hin k j Hk). f_equal. rewrite draw_shift. f_equal. lia.
    + intros j Hj. apply not_elem_of_cons in Hj as [Hne Hj].
      by rewrite (Hout _ Hj), lookup_insert_ne.
Qed.

Lemma BinaryTree_init_layout (n0 : Z) (r : rng) :
  1 ≤ n0 →
  ∃ keys,
    BinaryTree_init n0 r
    = Ok (mkBinaryTree n0 (Z.log2_up n0) (Z.log2_up n0 + 1) keys
                       (2 ^ Z.log2_up n0) (2 ^ (Z.log2_up n0 + 1) - 1),
          Rng (tape r) (pos r + 16 * Z.to_nat (2 ^ (Z.log2_up n0 + 1) - 1)))
    ∧ (∀ i, 1 ≤ i ≤ 2 ^ (Z.log2_up n0 + 1) - 1 →
            keys !! i = Some (draw r (16 * Z.to_nat (i - 1))))
    ∧ (∀ i, ¬ 1 ≤ i ≤ 2 ^ (Z.log2_up n0 + 1) - 1 → keys !! i = None).
Proof.
  intros Hn. unfold BinaryTree_init, ceil_log2.
  rewrite M_bind_unfold. unfold lift.
  destruct (Z.leb_spec n0 0) as [?|_]; [lia|].
  rewrite M_bind_unfold.
  set (L := 2 ^ (Z.log2_up n0 + 1) - 1).
  destruct (fill_nodes_layout (range 1 (L + 1)) ∅ r) as (keys & -> & Hin & Hout).
  { apply NoDup_seqZ. }
  exists keys. split; [|split].
  - unfold mret, M_ret, ret. do 3 f_equal. unfold range. rewrite length_seqZ. lia.
  - intros i Hi. apply Hin. unfold range. apply lookup_seqZ. lia.
  - intros i Hi. rewrite Hout; [done|]. rewrite elem_of_range. lia.
Qed.

(** Whatever [BinaryTree(n)] returns, it returns for an [n >= 1], and
    it is the tree of the lemma above. *)
Lemma BinaryTree_init_inv (n0 : Z) (r : rng) (tr : BinaryTree) (r' : rng) :
  BinaryTree_init n0 r = Ok (tr, r') →
  1 ≤ n0 ∧ n tr = n0 ∧ t tr = Z.log2_up n0 ∧ depth tr = t tr + 1
  ∧ first_leaf tr = 2 ^ t tr ∧ last_leaf tr = 2 ^ (t tr + 1) - 1
  ∧ r' = Rng (tape r) (pos r + 16 * Z.to_nat (last_leaf tr))
  ∧ (∀ i, 1 ≤ i ≤ last_leaf tr →
          nodes tr !! i = Some (draw r (16 * Z.to_nat (i - 1))))
  ∧ (∀ i, ¬ 1 ≤ i ≤ last_leaf tr → nodes tr !! i = None).
Proof.
  intros Hrun. destruct (Z.le_gt_cases n0 0) as [Hn|Hn].
  - unfold BinaryTree_init, ceil_log2 in Hrun.
    rewrite M_bind_unfold in Hrun. unfold lift in Hrun.
    destruct (Z.leb_spec n0 0) as [_|?]; [discriminate Hrun|lia].
  - destruct (BinaryTree_init_layout n0 r ltac:(lia)) as (keys & Hrun' & Hin & Hout).
    rewrite Hrun in Hrun'. injection Hrun' as -> ->. cbn.
    split; [lia|]. by repeat split.
Qed.

Lemma tree_size_bounds (n0 : Z) :
  1 ≤ n0 → 0 ≤ Z.log2_up n0 ∧ n0 ≤ 2 ^ Z.log2_up n0 < 2 * n0.
Proof.
  intros Hn. split; [apply Z.log2_up_nonneg|].
  destruct (Z.eq_dec n0 1) as [->|Hne]; [cbn; lia|].
  destruct (Z.log2_up_spec n0 ltac:(lia)) as [Hlo Hhi].
  pose proof (Z.log2_up_pos n0 ltac:(lia)) as Hpos.
  split; [done|].
  replace (Z.log2_up n0) with (Z.pred (Z.log2_up n0) + 1) by lia.
  rewrite Z.pow_add_r by lia. change (2 ^ 1) with 2. lia.
Qed.

(** X4.  [BinaryTree(n)] for [n >= 1] returns the tree with
    [t = ceil(log2(n))], [depth = t + 1], leaves [2**t .. 2**(t+1) - 1],
    and one key for each of the ids [1 .. last_leaf] and for no other
    id.  The keys are cut from the random source in the order of the
    ids: node [i] has the 16 bytes that start [16 * (i - 1)] bytes after
    the position the source was at, and [16 * last_leaf] bytes are used
    up in all. *)
Theorem BinaryTree_init_keys (n0 : Z) (r : rng) :
  1 ≤ n0 →
  ∃ tr,
    BinaryTree_init n0 r
    = Ok (tr, Rng (tape r) (pos r + 16 * Z.to_nat (last_leaf tr)))
    ∧ n tr = n0 ∧ t tr = Z.log2_up n0 ∧ depth tr = t tr + 1
    ∧ first_leaf tr = 2 ^ t tr ∧ last_leaf tr = 2 ^ (t tr + 1) - 1
    ∧ (∀ i, 1 ≤ i ≤ last_leaf tr →
            nodes tr !! i = Some (draw r (16 * Z.to_nat (i - 1))))
    ∧ (∀ i, ¬ 1 ≤ i ≤ last_leaf tr → nodes tr !! i = None).
Proof.
  intros Hn.
  destruct (BinaryTree_init_layout n0 r Hn) as (keys & Hrun & Hin & Hout).
  eexists. split; [exact Hrun|]. cbn. by repeat split.
Qed.

Lemma BinaryTree_init_keys_witness :
  ∃ tr,
    BinaryTree_init 8 demo_rng
    = Ok (tr, Rng (tape demo_rng) (pos demo_rng + 16 * Z.to_nat (last_leaf tr)))
    ∧ n tr = 8 ∧ t tr = Z.log2_up 8 ∧ depth tr = t tr + 1
    ∧ first_leaf tr = 2 ^ t tr ∧ last_leaf tr = 2 ^ (t tr + 1) - 1
    ∧ (∀ i, 1 ≤ i ≤ last_leaf tr →
            nodes tr !! i = Some (draw demo_rng (16 * Z.to_nat (i - 1))))
    ∧ (∀ i, ¬ 1 ≤ i ≤ last_leaf tr → nodes tr !! i = None).
Proof. apply (BinaryTree_init_keys 8 demo_rng). lia. Defined.

(** X5.  The leaves of the tree that [BinaryTree(n)] returns: there
    are [2**t] of them, which is the least power of two that is not
    below [n] (so between [n] and [2n - 1]), and it is [n] exactly when
    [n] is a power of two.  [get_leaves] lists them in ascending order
    without repetition. *)
Theorem leaves_of_BinaryTree (n0 : Z) (r : rng) (tr : BinaryTree) (r' : rng) :
  BinaryTree_init n0 r = Ok (tr, r') →
  len (get_leaves tr) = 2 ^ t tr
  ∧ n0 ≤ len (get_leaves tr) < 2 * n0
  ∧ (len (get_leaves tr) = n0 ↔ ∃ k, 0 ≤ k ∧ n0 = 2 ^ k)
  ∧ get_leaves tr = seqZ (2 ^ t tr) (2 ^ t tr)
  ∧ NoDup (get_leaves tr).
Proof.
  intros Hrun.
  destruct (BinaryTree_init_inv _ _ _ _ Hrun)
    as (Hn & _ & Ht & _ & Hfirst & Hlast & _).
  destruct (tree_size_bounds n0 Hn) as [Htpos Hbounds]. rewrite <- Ht in *.
  assert (Hpow : 2 ^ (t tr + 1) = 2 * 2 ^ t tr)
    by (rewrite Z.pow_add_r by lia; change (2 ^ 1) with 2; lia).
  assert (Heq : get_leaves tr = seqZ (2 ^ t tr) (2 ^ t tr)).
  { unfold get_leaves, range. rewrite Hfirst, Hlast. f_equal. lia. }
  assert (Hlen : len (get_leaves tr) = 2 ^ t tr).
  { rewrite Heq. unfold len. rewrite length_seqZ. lia. }
  split; [done|]. split; [lia|]. split; [|split; [done|]].
  - rewrite Hlen. split.
    + intros <-. by exists (t tr).
    + intros (k & Hk & ->). rewrite Ht. by rewrite Z.log2_up_pow2.
  - rewrite Heq. apply NoDup_seqZ.
Qed.

Lemma leaves_of_BinaryTree_witness :
  ∃ tr r',
    BinaryTree_init 3 demo_rng = Ok (tr, r')
    ∧ len (get_leaves tr) = 2 ^ t tr
    ∧ 3 ≤ len (get_leaves tr) < 2 * 3
    ∧ (len (get_leaves tr) = 3 ↔ ∃ k, 0 ≤ k ∧ 3 = 2 ^ k)
    ∧ get_leaves tr = seqZ (2 ^ t tr) (2 ^ t tr)
    ∧ NoDup (get_leaves tr).
Proof.
  destruct (BinaryTree_init_layout 3 demo_rng ltac:(lia)) as (keys & Hrun & _).
  eexists _, _. split; [exact Hrun|].
  exact (leaves_of_BinaryTree 3 demo_rng _ _ Hrun).
Defined.

(** X6.  In the tree that [BinaryTree(n)] returns, the path from a
    node to the root never has more than [depth] nodes, and it has
    exactly [depth] nodes when the node is a leaf and only then. *)
Theorem leaf_path_length (n0 : Z) (r : rng) (tr : BinaryTree) (r' : rng) (x : Z) :
  BinaryTree_init n0 r = Ok (tr, r') →
  1 ≤ x ≤ last_leaf tr →
  ∃ path,
    get_path_to_root x = Ok path
    ∧ len path ≤ depth tr
    ∧ (len path = depth tr ↔ is_leaf tr x).
Proof.
  intros Hrun Hx.
  destruct (BinaryTree_init_inv _ _ _ _ Hrun)
    as (Hn & _ & Ht & Hdepth & Hfirst & Hlast & _).
  destruct (tree_size_bounds n0 Hn) as [Htpos _]. rewrite <- Ht in Htpos.
  destruct (get_path_to_root_total x ltac:(lia)) as (more & Hpath & _).
  exists (x :: more). split; [done|].
  rewrite (path_len x _ ltac:(lia) Hpath), Hdepth.
  destruct (Z.log2_spec x ltac:(lia)) as [Hlo Hhi].
  replace (Z.succ (Z.log2 x)) with (Z.log2 x + 1) in Hhi by lia.
  pose proof (Z.log2_nonneg x) as Hlog.
  assert (Hle : Z.log2 x ≤ t tr).
  { destruct (Z.le_gt_cases (Z.log2 x) (t tr)) as [?|Hgt]; [done|].
    assert (2 ^ (t tr + 1) ≤ 2 ^ Z.log2 x) by (apply Z.pow_le_mono_r; lia). lia. }
  split; [lia|]. unfold is_leaf. rewrite Hfirst. split.
  - intros Heq. assert (Z.log2 x = t tr) as <- by lia. lia.
  - intros Hleaf. rewrite (leaf_log2 (t tr) x); [done|done|lia].
Qed.

Lemma leaf_path_length_witness :
  ∃ tr r' path,
    BinaryTree_init 8 demo_rng = Ok (tr, r')
    ∧ get_path_to_root 13 = Ok path
    ∧ len path ≤ depth tr
    ∧ (len path = depth tr ↔ is_leaf tr 13).
Proof.
  destruct (BinaryTree_init_layout 8 demo_rng ltac:(lia)) as (keys & Hrun & _).
  destruct (leaf_path_length 8 demo_rng _ _ 13 Hrun) as (path & Hp);
    [split; vm_compute; discriminate|].
  eexists _, _, path. split; [exact Hrun|exact Hp].
Defined.

(** ** encryption.py: padding to other block sizes *)

Lemma byte_val_bounds (b : byte) : 0 ≤ byte_val b ≤ 255.
Proof. unfold byte_val. pose proof (Byte.to_N_bounded b). lia. Qed.

Lemma to_bytes_overflow (z : Z) : z < 0 ∨ 255 < z → to_bytes z = None.
Proof.
  intros Hz. unfold to_bytes.
  destruct (Z.ltb_spec z 0) as [?|?]; [done|].
  apply Byte.of_N_None_iff. lia.
Qed.

(** The padding for a block of [bit_size // 8] bytes, when that is at
    least one byte and the number of padding bytes fits into one. *)
Lemma add_padding_bits_ok (m : bytes) (bit_size : Z) :
  1 ≤ bit_size / 8 →
  bit_size / 8 - len m mod (bit_size / 8) ≤ 256 →
  1 ≤ bit_size / 8 - len m mod (bit_size / 8) ≤ bit_size / 8
  ∧ ∃ v, byte_val v = bit_size / 8 - len m mod (bit_size / 8) - 1
         ∧ add_padding_bits m bit_size
           = Ok (m ++ repeat v (Z.to_nat (bit_size / 8 - len m mod (bit_size / 8)))).
Proof.
  intros Hb Hp. set (b := bit_size / 8) in *.
  pose proof (Z.mod_pos_bound (len m) b ltac:(lia)) as Hmod.
  split; [lia|].
  destruct (to_bytes_val (b - len m mod b - 1)) as (v & Hv & Hval); [lia|].
  exists v. split; [done|]. unfold add_padding_bits. fold b.
  destruct (Z.eqb_spec b 0) as [?|_]; [lia|]. cbv zeta. by rewrite Hv.
Qed.

Lemma block_bytes (bit_size : Z) :
  8 ≤ bit_size ≤ 2055 → 1 ≤ bit_size / 8 ≤ 256.
Proof.
  intros Hb. split.
  - apply Z.div_le_lower_bound; lia.
  - assert (bit_size / 8 < 257) by (apply Z.div_lt_upper_bound; lia). lia.
Qed.

(** X7.  [add_padding(m, bit_size)] for a block size of 1 to 256 bytes
    ([bit_size] from 8 to 2055; the size in bytes is [bit_size // 8]):
    with [p = b - len(m) % b], the call returns [m] followed by [p]
    bytes of value [p - 1], [p] is between 1 and [b], the padded length
    is a multiple of [b], and [remove_padding] gives [m] back. *)
Theorem padding_roundtrip_any_block (m : bytes) (bit_size : Z) :
  8 ≤ bit_size ≤ 2055 →
  ∃ v padded,
    add_padding_bits m bit_size = Ok padded
    ∧ 1 ≤ bit_size / 8 - len m mod (bit_size / 8) ≤ bit_size / 8
    ∧ byte_val v = bit_size / 8 - len m mod (bit_size / 8) - 1
    ∧ padded = m ++ repeat v (Z.to_nat (bit_size / 8 - len m mod (bit_size / 8)))
    ∧ len padded mod (bit_size / 8) = 0
    ∧ remove_padding padded = Ok m.
Proof.
  intros Hbits. pose proof (block_bytes bit_size Hbits) as Hb.
  set (b := bit_size / 8) in *.
  pose proof (Z.mod_pos_bound (len m) b ltac:(lia)) as Hmod.
  destruct (add_padding_bits_ok m bit_size) as (Hp & v & Hval & Hrun);
    [fold b; lia|fold b; lia|]. fold b in Hp, Hval, Hrun.
  exists v, (m ++ repeat v (Z.to_nat (b - len m mod b))).
  split; [done|]. split; [done|]. split; [done|]. split; [done|]. split.
  - assert (Hlen : len (m ++ repeat v (Z.to_nat (b - len m mod b)))
                   = (len m / b + 1) * b).
    { pose proof (Z.div_mod (len m) b ltac:(lia)) as Hdm.
      unfold len in *. rewrite length_app, repeat_length. lia. }
    rewrite Hlen. apply Z.mod_mul. lia.
  - replace (Z.to_nat (b - len m mod b))
      with (S (Z.to_nat (b - len m mod b - 1))) by lia.
    apply remove_padding_ok. lia.
Qed.

Lemma padding_roundtrip_any_block_witness :
  ∃ v padded,
    add_padding_bits [x61; x62; x63] 64 = Ok padded
    ∧ 1 ≤ 64 / 8 - len [x61; x62; x63] mod (64 / 8) ≤ 64 / 8
    ∧ byte_val v = 64 / 8 - len [x61; x62; x63] mod (64 / 8) - 1
    ∧ padded = [x61; x62; x63]
               ++ repeat v (Z.to_nat (64 / 8 - len [x61; x62; x63] mod (64 / 8)))
    ∧ len padded mod (64 / 8) = 0
    ∧ remove_padding padded = Ok [x61; x62; x63].
Proof. apply (padding_roundtrip_any_block [x61; x62; x63] 64). lia. Defined.

(** X8.  The block sizes [add_padding] cannot serve.  Below 8 bits the
    block has [bit_size // 8 = 0] bytes and [l % 0] raises
    [ZeroDivisionError].  For a negative [bit_size] the number of
    padding bytes is negative and [(p - 1).to_bytes()] raises
    [OverflowError].  From 8 bits on the same [OverflowError] is raised
    whenever more than 256 padding bytes are due, the value [p - 1] not
    fitting into a byte. *)
Theorem add_padding_errors (m : bytes) (bit_size : Z) :
  (0 ≤ bit_size < 8 → add_padding_bits m bit_size = Raise ZeroDivisionError)
  ∧ (bit_size < 0 → add_padding_bits m bit_size = Raise OverflowError)
  ∧ (8 ≤ bit_size → 256 < bit_size / 8 - len m mod (bit_size / 8) →
     add_padding_bits m bit_size = Raise OverflowError).
Proof.
  unfold add_padding_bits. split; [|split].
  - intros Hb. by rewrite Z.div_small by lia.
  - intros Hb.
    assert (Hneg : bit_size / 8 < 0) by (apply Z.div_lt_upper_bound; lia).
    pose proof (Z.mod_neg_bound (len m) (bit_size / 8) Hneg) as Hmod.
    destruct (Z.eqb_spec (bit_size / 8) 0) as [?|_]; [lia|]. cbv zeta.
    by rewrite to_bytes_overflow by lia.
  - intros Hb Hp.
    assert (Hpos : 1 ≤ bit_size / 8) by (apply Z.div_le_lower_bound; lia).
    destruct (Z.eqb_spec (bit_size / 8) 0) as [?|_]; [lia|]. cbv zeta.
    by rewrite to_bytes_overflow by lia.
Qed.

(** X9.  [remove_padding] does not check the padding it removes.  On
    every byte string that is not empty it returns, and what it
    returns is [m] without its last [m[-1] + 1] bytes: a proper prefix
    of [m], empty when [m] has no more bytes than that. *)
Theorem remove_padding_strips (m : bytes) :
  m ≠ [] →
  ∃ b m',
    last m = Some b
    ∧ remove_padding m = Ok m'
    ∧ m' `prefix_of` m
    ∧ len m' = Z.max 0 (len m - (byte_val b + 1))
    ∧ len m' < len m.
Proof.
  intros Hm. destruct (last m) as [b|] eqn:Hlast;
    [|by apply last_None in Hlast].
  pose proof (byte_val_bounds b) as Hb.
  exists b, (take (length m - Z.to_nat (byte_val b + 1)) m).
  split; [done|]. split; [unfold remove_padding; by rewrite Hlast|].
  assert (Hlen : (0 < length m)%nat) by (destruct m; [done|cbn; lia]).
  split; [|unfold len; rewrite length_take; lia].
  exists (drop (length m - Z.to_nat (byte_val b + 1)) m).
  by rewrite take_drop.
Qed.

Lemma remove_padding_strips_witness :
  ∃ b m',
    last [x61; x62; x63; x01] = Some b
    ∧ remove_padding [x61; x62; x63; x01] = Ok m'
    ∧ m' `prefix_of` [x61; x62; x63; x01]
    ∧ len m' = Z.max 0 (len [x61; x62; x63; x01] - (byte_val b + 1))
    ∧ len m' < len [x61; x62; x63; x01].
Proof. apply (remove_padding_strips [x61; x62; x63; x01]). discriminate. Defined.

(** ** encryption.py: the two AES wrappers *)

Lemma aes_check_passes (key iv data : bytes) :
  aes_key_ok key = true → length iv = 16%nat → (length data mod 16 = 0)%nat →
  aes_check key iv data = Ok ().
Proof. intros Hk Hiv Hd. unfold aes_check. by rewrite Hk, Hiv, Hd. Qed.

(** X10.  [AES_decrypt] undoes [AES_encrypt], for a cipher that keeps
    lengths and whose decryption inverts its encryption.  For a key of
    16, 24 or 32 bytes and a plaintext of whole blocks, [AES_encrypt]
    draws the next 16 bytes of the random source as the vector and
    returns it with a ciphertext as long as the plaintext; [AES_decrypt]
    with this key, vector and ciphertext returns the plaintext. *)
Theorem AES_roundtrip `{C : Cipher} (key plaintext : bytes) (r : rng) :
  keeps_length C → decrypt_inverts C →
  aes_key_ok key = true → (length plaintext mod 16 = 0)%nat →
  ∃ iv ciphertext,
    AES_encrypt key plaintext r
    = Ok ((iv, ciphertext), Rng (tape r) (pos r + 16))
    ∧ iv = draw r 0
    ∧ length ciphertext = length plaintext
    ∧ AES_decrypt key iv ciphertext = Ok plaintext.
Proof.
  intros Hlength Hinverse Hkey Hpt.
  pose proof (aes_check_passes key (draw r 0) plaintext Hkey (draw_length r 0) Hpt)
    as Hcheck.
  destruct (Hlength _ _ _ Hcheck) as [Hct _].
  exists (draw r 0), (cbc_encrypt key (draw r 0) plaintext).
  split; [|split; [done|split; [done|]]].
  - unfold AES_encrypt. rewrite M_bind_unfold, os_urandom_16, M_bind_unfold.
    unfold lift.
    replace (map (tape r) (seq (pos r) 16)) with (draw r 0)
      by (unfold draw; by rewrite Nat.add_0_r).
    by rewrite Hcheck.
  - unfold AES_decrypt.
    rewrite aes_check_passes by (done || apply draw_length || by rewrite Hct).
    cbn [mbind outcome_bind obind mret outcome_ret]. by rewrite Hinverse.
Qed.

Lemma AES_roundtrip_witness :
  ∃ iv ciphertext,
    AES_encrypt (H := xor_cipher) zeros (TAG_VALID ++ zeros) demo_rng
    = Ok ((iv, ciphertext), Rng (tape demo_rng) (pos demo_rng + 16))
    ∧ iv = draw demo_rng 0
    ∧ length ciphertext = length (TAG_VALID ++ zeros)
    ∧ AES_decrypt (H := xor_cipher) zeros iv ciphertext = Ok (TAG_VALID ++ zeros).
Proof.
  apply (AES_roundtrip (C := xor_cipher) zeros (TAG_VALID ++ zeros) demo_rng
           xor_cipher_keeps_length xor_cipher_inverse); reflexivity.
Defined.

(** ** __init__.py: what every reachable engine satisfies *)

Lemma AACS_init_tree (n0 : Z) (r : rng) (self : AACS) (r' : rng) :
  AACS_init n0 r = Ok (self, r') → BinaryTree_init n0 r = Ok (tree self, r').
Proof.
  unfold AACS_init. rewrite M_bind_unfold.
  destruct (BinaryTree_init n0 r) as [[tr r1]|e|]; [|done|done].
  rewrite M_bind_unfold. unfold lift.
  destruct (get_S_cover _) as [cover|e|]; [|done|done].
  by intros [= <- <-].
Qed.

Lemma revoke_tree (self : AACS) (id : Z) (b : bool) (self' : AACS) :
  revoke self id = Ok (b, self') → tree self' = tree self.
Proof.
  unfold revoke. destruct (decide (id ∈ self_S self)) as [Hin|Hnin];
    [|by intros [= <- <-]].
  destruct (get_S_cover _) as [cover|e|]; [|done|done].
  by intros [= <- <-].
Qed.

(** The tree of a reachable engine is one the constructor returned. *)
Lemma reachable_tree (self : AACS) :
  reachable self →
  ∃ n0 r r', BinaryTree_init n0 r = Ok (tree self, r').
Proof.
  induction 1 as [n0 r self r' Hinit|self id b self' _ IH Hrev].
  - exists n0, r, r'. by apply AACS_init_tree.
  - by rewrite (revoke_tree _ _ _ _ Hrev).
Qed.

Lemma reachable_nodes (self : AACS) (i : Z) :
  reachable self → ¬ 1 ≤ i ≤ last_leaf (tree self) →
  nodes (tree self) !! i = None.
Proof.
  intros Hreach Hi. destruct (reachable_tree _ Hreach) as (n0 & r & r' & Hrun).
  destruct (BinaryTree_init_inv _ _ _ _ Hrun) as (_ & _ & _ & _ & _ & _ & _ & _ & Hout).
  by apply Hout.
Qed.

Lemma wf_leaves (self : AACS) :
  wf self →
  self_S self ∪ self_T self = list_to_set (get_leaves (tree self))
  ∧ self_S self ∩ self_T self = ∅.
Proof.
  intros Hwf. split.
  - apply set_eq. intros x.
    rewrite elem_of_union, elem_of_list_to_set, (wf_S _ Hwf).
    unfold get_leaves. rewrite elem_of_range. unfold is_leaf. split.
    + intros [[? _]|Hx]; [lia|]. apply (wf_T _ Hwf) in Hx. unfold is_leaf in Hx. lia.
    + intros Hx. destruct (decide (x ∈ self_T self)); [by right|left]. split; [lia|done].
  - apply set_eq. intros x. rewrite elem_of_intersection, (wf_S _ Hwf). set_solver.
Qed.

Lemma wf_sizes (self : AACS) :
  wf self →
  Z.of_nat (size (self_S self)) + Z.of_nat (size (self_T self))
  = 2 ^ t (tree self).
Proof.
  intros Hwf. destruct (wf_leaves _ Hwf) as [Hunion Hdisj].
  pose proof (size_leaves (tree self)) as Hsize. rewrite <- Hunion in Hsize.
  rewrite size_union in Hsize by set_solver.
  rewrite (wf_first _ Hwf), (wf_last _ Hwf) in Hsize.
  pose proof (wf_t _ Hwf) as Ht.
  rewrite Z.pow_add_r in Hsize by lia. change (2 ^ 1) with 2 in Hsize.
  pose proof (Z.pow_pos_nonneg 2 (t (tree self)) ltac:(lia) Ht). lia.
Qed.

(** X11.  What the constructor establishes and [revoke] keeps.  In
    every reachable engine the tree is one that [BinaryTree.__init__]
    returned; [S] and [T] are disjoint and together are the leaves of
    the tree, so that [len(S) + len(T) = 2**t]; and [S_cover] is what
    [__get_S_cover] computes from the [S] and [T] of the moment. *)
Theorem reachable_invariant (self : AACS) :
  reachable self →
  (∃ n0 r r', BinaryTree_init n0 r = Ok (tree self, r'))
  ∧ self_S self ∪ self_T self = list_to_set (get_leaves (tree self))
  ∧ self_S self ∩ self_T self = ∅
  ∧ Z.of_nat (size (self_S self)) + Z.of_nat (size (self_T self))
    = 2 ^ t (tree self)
  ∧ get_S_cover self = Ok (S_cover self).
Proof.
  intros Hreach. pose proof (reachable_wf _ Hreach) as Hwf.
  destruct (wf_leaves _ Hwf) as [Hunion Hdisj].
  split; [by apply reachable_tree|]. split; [done|]. split; [done|].
  split; [by apply wf_sizes|apply (wf_cover _ Hwf)].
Qed.

Lemma reachable_invariant_witness :
  (∃ n0 r r', BinaryTree_init n0 r = Ok (tree engine_8, r'))
  ∧ self_S engine_8 ∪ self_T engine_8 = list_to_set (get_leaves (tree engine_8))
  ∧ self_S engine_8 ∩ self_T engine_8 = ∅
  ∧ Z.of_nat (size (self_S engine_8)) + Z.of_nat (size (self_T engine_8))
    = 2 ^ t (tree engine_8)
  ∧ get_S_cover engine_8 = Ok (S_cover engine_8).
Proof. apply (reachable_invariant engine_8). exact engine_8_reachable. Defined.

(** ** Several revocations *)

Lemma get_S_cover_ext (a b : AACS) :
  tree a = tree b → self_S a = self_S b → self_T a = self_T b →
  get_S_cover a = get_S_cover b.
Proof. intros H1 H2 H3. unfold get_S_cover. by rewrite H1, H2, H3. Qed.

(** A well-formed engine is determined by its tree and its two sets. *)
Lemma wf_ext (a b : AACS) :
  wf a → wf b →
  tree a = tree b → self_S a = self_S b → self_T a = self_T b → a = b.
Proof.
  intros Ha Hb H1 H2 H3.
  pose proof (get_S_cover_ext a b H1 H2 H3) as Hc.
  rewrite (wf_cover _ Ha), (wf_cover _ Hb) in Hc. injection Hc as Hc.
  destruct a, b. cbn in *. congruence.
Qed.

Lemma revoke_sets_in (S T I : gset Z) (id : Z) :
  id ∈ S →
  S ∖ {[ id ]} ∖ I = S ∖ ({[ id ]} ∪ I)
  ∧ {[ id ]} ∪ T ∪ (S ∖ {[ id ]} ∩ I) = T ∪ (S ∩ ({[ id ]} ∪ I)).
Proof.
  intros Hi. split; apply set_eq; intros x.
  - set_solver.
  - destruct (decide (x = id)) as [->|Hne]; set_solver.
Qed.

Lemma revoke_sets_out (S T I : gset Z) (id : Z) :
  id ∉ S →
  S ∖ I = S ∖ ({[ id ]} ∪ I) ∧ T ∪ (S ∩ I) = T ∪ (S ∩ ({[ id ]} ∪ I)).
Proof. intros Hi. split; set_solver. Qed.

Lemma revoke_all_ok (ids : list Z) : ∀ self : AACS,
  wf self →
  ∃ self', revoke_all self ids = Ok self' ∧ wf self'
    ∧ tree self' = tree self
    ∧ self_S self' = self_S self ∖ list_to_set ids
    ∧ self_T self' = self_T self ∪ (self_S self ∩ list_to_set ids).
Proof.
  induction ids as [|id ids IH]; intros self Hwf.
  - exists self. cbn [revoke_all]. split; [done|]. split; [done|]. split; [done|].
    split; set_solver.
  - destruct (revoke_ok self id Hwf) as (b & self1 & Hrun & Hwf1 & Hb & Hin & Hout).
    destruct (IH self1 Hwf1) as (self' & Hrun' & Hwf' & Htree & HS & HT).
    exists self'. cbn [revoke_all]. rewrite Hrun.
    cbn [mbind outcome_bind obind snd]. split; [done|]. split; [done|].
    destruct (decide (id ∈ self_S self)) as [Hi|Hi].
    + destruct (Hin Hi) as (Ht1 & HS1 & HT1 & _).
      rewrite Htree, HS, HT, Ht1, HS1, HT1. split; [done|].
      rewrite list_to_set_cons. by apply revoke_sets_in.
    + rewrite (Hout Hi) in Htree, HS, HT. split; [done|].
      rewrite HS, HT, list_to_set_cons. by apply revoke_sets_out.
Qed.

(** X12.  A list of revocations, one [revoke] after the other on a
    reachable engine: all the calls return; the tree stays; the ids of
    the list that were valid have moved from [S] to [T] and nothing
    else has changed.  The engine this ends in, cover included, depends
    only on which ids the list names, not on their order or on how
    often an id comes up. *)
Theorem revoke_all_spec (self : AACS) (ids : list Z) :
  reachable self →
  ∃ self',
    revoke_all self ids = Ok self'
    ∧ tree self' = tree self
    ∧ self_S self' = self_S self ∖ list_to_set ids
    ∧ self_T self' = self_T self ∪ (self_S self ∩ list_to_set ids)
    ∧ get_S_cover self' = Ok (S_cover self')
    ∧ ∀ ids' : list Z,
        (∀ id, id ∈ ids' ↔ id ∈ ids) → revoke_all self ids' = Ok self'.
Proof.
  intros Hreach. pose proof (reachable_wf _ Hreach) as Hwf.
  destruct (revoke_all_ok ids self Hwf) as (self' & Hrun & Hwf' & Htree & HS & HT).
  exists self'. split; [done|]. split; [done|]. split; [done|]. split; [done|].
  split; [apply (wf_cover _ Hwf')|].
  intros ids' Hsame.
  destruct (revoke_all_ok ids' self Hwf) as (self2 & Hrun2 & Hwf2 & Htree2 & HS2 & HT2).
  rewrite Hrun2. f_equal.
  assert (Hset : (list_to_set ids' : gset Z) = list_to_set ids).
  { apply set_eq. intros id. by rewrite !elem_of_list_to_set. }
  apply wf_ext; try done; congruence.
Qed.

Lemma revoke_all_spec_witness :
  ∃ self',
    revoke_all demo_engine [9; 12; 9] = Ok self'
    ∧ tree self' = tree demo_engine
    ∧ self_S self' = self_S demo_engine ∖ list_to_set [9; 12; 9]
    ∧ self_T self' = self_T demo_engine ∪ (self_S demo_engine ∩ list_to_set [9; 12; 9])
    ∧ get_S_cover self' = Ok (S_cover self')
    ∧ ∀ ids' : list Z,
        (∀ id, id ∈ ids' ↔ id ∈ [9; 12; 9]) →
        revoke_all demo_engine ids' = Ok self'.
Proof. apply (revoke_all_spec demo_engine [9; 12; 9]). exact demo_engine_reachable. Defined.

(** ** The keys of a device, and the ids that name none *)

Lemma get_known_keys_cases_aux (self : AACS) (node_id : Z) :
  reachable self →
  (last_leaf (tree self) < node_id →
   get_known_keys self node_id = Raise (KeyError node_id))
  ∧ (node_id ≤ 0 → get_known_keys self node_id = Diverge).
Proof.
  intros Hreach. pose proof (reachable_wf _ Hreach) as Hwf. split.
  - intros Hid.
    destruct (get_path_to_root_total node_id) as (more & Hpath & _).
    { pose proof (first_leaf_pos _ Hwf). destruct (last_leaf_odd _ Hwf). lia. }
    unfold get_known_keys. rewrite Hpath.
    cbn [mbind outcome_bind obind keys_of]. unfold node_key.
    by rewrite (reachable_nodes self node_id Hreach) by lia.
  - intros Hid. unfold get_known_keys.
    by rewrite get_path_to_root_diverges.
Qed.

(** X13.  [__get_known_keys(node_id)] on a reachable engine.  For a
    node of the tree it returns the keys stored for the nodes of the
    path to the root, in the order of the path, each of 16 bytes:
    [floor(log2(node_id)) + 1] keys.  For an id above the last leaf the
    first look-up [self.nodes[node_id]] raises [KeyError(node_id)].  For
    an id below 1 the path is never completed: the call does not
    return. *)
Theorem get_known_keys_cases (self : AACS) (node_id : Z) :
  reachable self →
  (1 ≤ node_id ≤ last_leaf (tree self) →
   ∃ path keys,
     get_path_to_root node_id = Ok path
     ∧ get_known_keys self node_id = Ok keys
     ∧ len keys = Z.log2 node_id + 1
     ∧ Forall2 (fun id key => nodes (tree self) !! id = Some key
                              ∧ length key = 16%nat) path keys)
  ∧ (last_leaf (tree self) < node_id →
     get_known_keys self node_id = Raise (KeyError node_id))
  ∧ (node_id ≤ 0 → get_known_keys self node_id = Diverge).
Proof.
  intros Hreach. pose proof (reachable_wf _ Hreach) as Hwf.
  split; [|exact (get_known_keys_cases_aux self node_id Hreach)].
  - intros Hid.
    destruct (get_path_to_root_total node_id ltac:(lia)) as (more & Hpath & Hall & _).
    destruct (get_known_keys_ok self node_id Hwf Hid) as (more' & Hpath' & Hkeys & _).
    rewrite Hpath in Hpath'. injection Hpath' as <-.
    exists (node_id :: more), (key_at self <$> node_id :: more).
    split; [done|]. split; [done|]. split.
    + pose proof (path_len node_id _ ltac:(lia) Hpath) as Hl.
      unfold len in *. by rewrite length_fmap.
    + apply Forall2_fmap_r, Forall_Forall2_diag.
      assert (Hrange : Forall (fun j => 1 ≤ j ≤ last_leaf (tree self)) (node_id :: more)).
      { constructor; [done|]. eapply Forall_impl; [exact Hall|]. cbn. lia. }
      eapply Forall_impl; [exact Hrange|]. intros j Hj.
      cbn beta in Hj. destruct (wf_nodes _ Hwf j Hj) as (key & Hkey & Hlen).
      unfold compose, key_at. rewrite Hkey. by cbn [default].
Qed.

Lemma get_known_keys_cases_witness :
  (∃ path keys,
     get_path_to_root 13 = Ok path
     ∧ get_known_keys engine_8 13 = Ok keys
     ∧ len keys = Z.log2 13 + 1
     ∧ Forall2 (fun id key => nodes (tree engine_8) !! id = Some key
                              ∧ length key = 16%nat) path keys)
  ∧ get_known_keys engine_8 16 = Raise (KeyError 16)
  ∧ get_known_keys engine_8 0 = Diverge.
Proof.
  destruct (get_known_keys_cases engine_8 13 engine_8_reachable) as (H1 & _).
  destruct (get_known_keys_cases engine_8 16 engine_8_reachable) as (_ & H2 & _).
  destruct (get_known_keys_cases engine_8 0 engine_8_reachable) as (_ & _ & H3).
  split; [apply H1; split; vm_compute; discriminate|].
  split; [apply H2; vm_compute; reflexivity|apply H3; lia].
Defined.

(** ** decrypt: streams without a key block, ids without keys *)

(** X14.  A stream with no key block in front of the separator gives
    [KeyNotFound], whatever the engine, the cipher and the id: the
    empty stream, and every stream that starts with the separator.
    The id is not looked at, so that even an id outside the tree gets
    this answer. *)
Theorem decrypt_without_key_block `{C : Cipher} (self : AACS) (node_id : Z)
        (tail : bytes) :
  decrypt self node_id [] = Raise (KeyNotFound "The key couldn't be retrieved")
  ∧ decrypt self node_id (TAG_SEPARATOR ++ tail)
    = Raise (KeyNotFound "The key couldn't be retrieved").
Proof.
  split; [reflexivity|].
  rewrite decrypt_spec. unfold scanned.
  rewrite strides_cons by done. cbn [until_separator].
  by rewrite (startswith_app TAG_SEPARATOR tail).
Qed.

(** X15.  [decrypt] for an id that names no node, on a reachable
    engine and a stream that is not empty and does not start with the
    separator.  The first round of the loop asks for the keys of the
    id: an id above the last leaf raises [KeyError(node_id)], and with
    an id below 1 the call never returns. *)
Theorem decrypt_unknown_node `{C : Cipher} (self : AACS) (node_id : Z) (c : bytes) :
  reachable self → c ≠ [] → startswith c TAG_SEPARATOR = false →
  (last_leaf (tree self) < node_id →
   decrypt self node_id c = Raise (KeyError node_id))
  ∧ (node_id ≤ 0 → decrypt self node_id c = Diverge).
Proof.
  intros Hreach Hc Hsep.
  assert (Hdec : decrypt self node_id c
                 = (known_keys ← get_known_keys self node_id;
                    k ← first_key (Ok known_keys) (scanned c);
                    match k with
                    | None => Raise (KeyNotFound "The key couldn't be retrieved")
                    | Some k =>
                        match at_separator (strides c) with
                        | None => Raise (ValueError "Separator not found")
                        | Some s =>
                            let c' := drop (length TAG_SEPARATOR) s in
                            m ← AES_decrypt k (take 16 c') (drop 16 c');
                            remove_padding m
                        end
                    end)).
  { rewrite decrypt_spec. unfold scanned. rewrite strides_cons by done.
    cbn [until_separator]. rewrite Hsep. cbn [first_key].
    by destruct (get_known_keys self node_id). }
  rewrite Hdec.
  destruct (get_known_keys_cases_aux self node_id Hreach) as [Hhigh Hlow].
  split; intros Hid.
  - by rewrite (Hhigh Hid).
  - by rewrite (Hlow Hid).
Qed.

Lemma decrypt_unknown_node_witness :
  decrypt (H := xor_cipher) engine_8 16 [x00] = Raise (KeyError 16)
  ∧ decrypt (H := xor_cipher) engine_8 0 [x00] = Diverge.
Proof.
  destruct (decrypt_unknown_node (C := xor_cipher) engine_8 16 [x00]
              engine_8_reachable ltac:(discriminate) eq_refl) as [H1 _].
  destruct (decrypt_unknown_node (C := xor_cipher) engine_8 0 [x00]
              engine_8_reachable ltac:(discriminate) eq_refl) as [_ H2].
  split; [apply H1; vm_compute; reflexivity|apply H2; lia].
Defined.

(** ** __main__.py: device ids and leaves *)

Lemma pow2_succ (a : Z) : 0 ≤ a → 2 ^ (a + 1) = 2 * 2 ^ a.
Proof. intros Ha. rewrite Z.pow_add_r by lia. change (2 ^ 1) with 2. lia. Qed.

(** X16.  [device_id_to_node_id(aacs.t, d)] on the engine that
    [AACS(n)] returns: the device ids [1 .. 2**t] and the leaves of the
    tree correspond one to one, device 1 to the first leaf and device
    [2**t] to the last; every device id from 1 to [n] names a leaf, and
    the first [revoke] of that leaf on the new engine answers true. *)
Theorem device_id_to_node_id_spec (n0 : Z) (r : rng) (self : AACS) (r' : rng)
        (d : Z) :
  AACS_init n0 r = Ok (self, r') →
  device_id_to_node_id (t (tree self)) 1 = first_leaf (tree self)
  ∧ device_id_to_node_id (t (tree self)) (2 ^ t (tree self)) = last_leaf (tree self)
  ∧ (is_leaf (tree self) (device_id_to_node_id (t (tree self)) d)
     ↔ 1 ≤ d ≤ 2 ^ t (tree self))
  ∧ (∀ d', device_id_to_node_id (t (tree self)) d
           = device_id_to_node_id (t (tree self)) d' → d = d')
  ∧ (1 ≤ d ≤ n0 →
     device_id_to_node_id (t (tree self)) d ∈ get_leaves (tree self)
     ∧ ∃ self', revoke self (device_id_to_node_id (t (tree self)) d)
                = Ok (true, self')).
Proof.
  intros Hinit.
  destruct (BinaryTree_init_inv _ _ _ _ (AACS_init_tree _ _ _ _ Hinit))
    as (Hn & _ & Ht & _ & Hfirst & Hlast & _).
  destruct (tree_size_bounds n0 Hn) as [Htpos Hbounds]. rewrite <- Ht in *.
  pose proof (pow2_succ (t (tree self)) Htpos) as Hpow.
  unfold device_id_to_node_id, is_leaf. rewrite Hfirst, Hlast, Hpow.
  split; [lia|]. split; [lia|]. split; [lia|]. split; [intros d'; lia|].
  intros Hd. split.
  - unfold get_leaves. rewrite elem_of_range, Hfirst, Hlast, Hpow. lia.
  - destruct (AACS_init_ok n0 r Hn) as (self0 & r0 & Hrun & Hwf & _ & _ & _ & HS & _).
    rewrite Hinit in Hrun. injection Hrun as <- <-.
    destruct (revoke_ok self (d + 2 ^ t (tree self) - 1) Hwf)
      as (b & self' & Hrev & _ & Hb & _).
    exists self'. rewrite Hrev. do 2 f_equal. apply Hb, HS.
    unfold is_leaf. rewrite Hfirst, Hlast, Hpow. lia.
Qed.

Lemma device_id_to_node_id_spec_witness :
  device_id_to_node_id (t (tree demo_engine)) 1 = first_leaf (tree demo_engine)
  ∧ device_id_to_node_id (t (tree demo_engine)) (2 ^ t (tree demo_engine))
    = last_leaf (tree demo_engine)
  ∧ (is_leaf (tree demo_engine) (device_id_to_node_id (t (tree demo_engine)) 3)
     ↔ 1 ≤ 3 ≤ 2 ^ t (tree demo_engine))
  ∧ (∀ d', device_id_to_node_id (t (tree demo_engine)) 3
           = device_id_to_node_id (t (tree demo_engine)) d' → 3 = d')
  ∧ (1 ≤ 3 ≤ NUMBER_OF_DEVICES →
     device_id_to_node_id (t (tree demo_engine)) 3 ∈ get_leaves (tree demo_engine)
     ∧ ∃ self', revoke demo_engine (device_id_to_node_id (t (tree demo_engine)) 3)
                = Ok (true, self')).
Proof.
  apply (device_id_to_node_id_spec NUMBER_OF_DEVICES demo_rng demo_engine
           (Rng demo_tape 240) 3).
  vm_compute. reflexivity.
Defined.

(** ** __init__.py: which leaves the cover reaches *)

Lemma get_sibling_ge (j : Z) : 2 ≤ j → 2 ≤ get_sibling j.
Proof.
  intros Hj. destruct (get_sibling_cases j) as [[Hm ->]|[Hm ->]]; [lia|].
  destruct (mod2_cases j) as [[? ?]|[_ ?]]; lia.
Qed.

(** A node and its sibling are on the same level. *)
Lemma log2_sibling (j : Z) : 2 ≤ j → Z.log2 (get_sibling j) = Z.log2 j.
Proof.
  intros Hj.
  rewrite (log2_parent (get_sibling j)) by (by apply get_sibling_ge).
  rewrite get_sibling_parent. by rewrite <- log2_parent.
Qed.

Lemma level_parent (lvl x : Z) :
  0 ≤ lvl → 2 ^ (lvl + 1) ≤ x < 2 ^ (lvl + 1 + 1) →
  2 ^ lvl ≤ x / 2 < 2 ^ (lvl + 1).
Proof.
  intros Hl. rewrite !pow2_succ by lia. intros Hx.
  pose proof (Z.pow_pos_nonneg 2 lvl ltac:(lia) Hl).
  split; [apply Z.div_le_lower_bound; lia|apply Z.div_lt_upper_bound; lia].
Qed.

(** Two different nodes of one level: going up from both, the paths
    meet, and just below the meeting point the two nodes are siblings. *)
Lemma paths_part (lvl : nat) : ∀ x i : Z,
  2 ^ Z.of_nat lvl ≤ x < 2 ^ (Z.of_nat lvl + 1) →
  2 ^ Z.of_nat lvl ≤ i < 2 ^ (Z.of_nat lvl + 1) →
  x ≠ i →
  ∃ k, 0 ≤ k < Z.of_nat lvl ∧ get_sibling (i / 2 ^ k) = x / 2 ^ k.
Proof.
  induction lvl as [|lvl IH]; intros x i Hx Hi Hne.
  - change (2 ^ Z.of_nat 0) with 1 in *. change (2 ^ (Z.of_nat 0 + 1)) with 2 in *. lia.
  - rewrite Nat2Z.inj_succ in *.
    replace (Z.succ (Z.of_nat lvl)) with (Z.of_nat lvl + 1) in * by lia.
    destruct (Z.eq_dec (get_parent x) (get_parent i)) as [Heq|Hpar].
    + apply same_parent in Heq as [?|Hsib]; [done|].
      exists 0. split; [lia|]. by rewrite Z.pow_0_r, !Z.div_1_r.
    + unfold get_parent in Hpar.
      destruct (IH (x / 2) (i / 2)) as (k & Hk & Hsib);
        [apply level_parent; lia|apply level_parent; lia|done|].
      exists (k + 1). split; [lia|].
      rewrite pow2_succ by lia. by rewrite <- !Z.div_div by lia.
Qed.

(** When the cover is the one the loop over [T] computes: a leaf has a
    cover node on its path exactly when some other leaf is revoked. *)
Lemma leaf_covered (self : AACS) (x : Z) :
  wf self → Z.of_nat (size (self_S self)) ≠ n (tree self) →
  is_leaf (tree self) x →
  (∃ u, u ∈ S_cover self ∧ on_path u x = true)
  ↔ ∃ i, i ∈ self_T self ∧ i ≠ x.
Proof.
  intros Hwf Hsize Hx. pose proof (wf_t _ Hwf) as Ht.
  pose proof (first_leaf_pos _ Hwf) as Hfl.
  assert (Hlevel : ∀ y, is_leaf (tree self) y →
            1 ≤ y ∧ Z.log2 y = t (tree self)
            ∧ 2 ^ t (tree self) ≤ y < 2 ^ (t (tree self) + 1)).
  { intros y Hy. unfold is_leaf in Hy.
    rewrite (wf_first _ Hwf), (wf_last _ Hwf) in Hy.
    rewrite (wf_first _ Hwf) in Hfl.
    split; [lia|]. split; [apply leaf_log2; lia|lia]. }
  destruct (get_S_cover_ok self) as (cover & Hcov & _ & _ & Hin).
  { intros i Hi. apply (wf_T _ Hwf), Hlevel in Hi. lia. }
  rewrite (wf_cover _ Hwf) in Hcov. injection Hcov as <-.
  destruct (Z.eqb_spec (Z.of_nat (size (self_S self))) (n (tree self))) as [?|_];
    [done|].
  destruct (Hlevel x Hx) as (Hx1 & Hxlog & Hxlvl).
  destruct (get_path_to_root_total x Hx1) as (morex & Hpx & _).
  split.
  - intros (u & Hu & Hon). apply Hin in Hu as (i & path & j & Hi & Hpath & Hj & Hj1 & ->).
    exists i. split; [done|]. intros ->.
    rewrite Hpx in Hpath. injection Hpath as <-.
    apply (on_path_elem _ x _ Hpx) in Hon.
    apply (elem_of_path x _ _ Hx1 Hpx) in Hj as (k & Hk & ->).
    apply (elem_of_path x _ _ Hx1 Hpx) in Hon as (k' & Hk' & Hsib).
    destruct (log2_ancestor x k Hx1 Hk) as [Hpos Hlog].
    destruct (log2_ancestor x k' Hx1 Hk') as [_ Hlog'].
    rewrite <- Hsib, log2_sibling in Hlog' by lia.
    assert (k' = k) as -> by lia.
    destruct (get_sibling_cases (x / 2 ^ k)) as [[_ Hs]|[_ Hs]]; lia.
  - intros (i & Hi & Hne).
    destruct (Hlevel i (wf_T _ Hwf i Hi)) as (Hi1 & Hilog & Hilvl).
    destruct (get_path_to_root_total i Hi1) as (morei & Hpi & _).
    destruct (paths_part (Z.to_nat (t (tree self))) x i) as (k & Hk & Hsib);
      [rewrite Z2Nat.id by lia; lia|rewrite Z2Nat.id by lia; lia|done|].
    rewrite Z2Nat.id in Hk by lia.
    exists (get_sibling (i / 2 ^ k)). split.
    + apply Hin. exists i, (i :: morei), (i / 2 ^ k).
      split; [done|]. split; [done|]. split; [|split; [|done]].
      * apply (elem_of_path i _ _ Hi1 Hpi). exists k. split; [lia|done].
      * destruct (log2_ancestor i k Hi1 ltac:(lia)) as [_ Hlog].
        intros Hone. rewrite Hone in Hlog. change (Z.log2 1) with 0 in Hlog. lia.
    + apply (on_path_elem _ x _ Hpx). rewrite Hsib.
      apply (elem_of_path x _ _ Hx1 Hpx). exists k. split; [lia|done].
Qed.

(** X17.  Which devices the cover reaches, on a reachable engine and
    whenever [len(self.S) != self.n], so that the cover is the set of
    siblings along the revoked paths: a leaf lies below a node of the
    cover exactly when some other leaf is revoked.  With one revoked
    device the cover reaches all the others and not that one.  With
    two or more revoked devices it reaches every leaf, the revoked ones
    included. *)
Theorem cover_reaches (self : AACS) (x : Z) :
  reachable self → Z.of_nat (size (self_S self)) ≠ n (tree self) →
  is_leaf (tree self) x →
  (∃ u, u ∈ S_cover self ∧ on_path u x = true)
  ↔ ∃ i, i ∈ self_T self ∧ i ≠ x.
Proof. intros Hreach. apply leaf_covered. by apply reachable_wf. Qed.

Lemma cover_reaches_witness :
  (∃ u, u ∈ S_cover engine_8_9 ∧ on_path u 8 = true)
  ↔ ∃ i, i ∈ self_T engine_8_9 ∧ i ≠ 8.
Proof.
  apply (cover_reaches engine_8_9 8).
  - exact (engine_reachable 8 [8; 9] demo_rng (Rng demo_tape 240) engine_8_9
             engine_8_9_run).
  - vm_compute. discriminate.
  - split; vm_compute; discriminate.
Defined.

(** ** Who gets the message back *)

Lemma root_on_path (x : Z) : 1 ≤ x → on_path 1 x = true.
Proof.
  intros Hx. destruct (get_path_to_root_total x Hx) as (more & Hpath & _ & Hlast).
  apply (on_path_elem 1 x _ Hpath).
  apply last_Some in Hlast as [l' Hl]. rewrite Hl. set_solver.
Qed.

Lemma wf_leaf_range (self : AACS) (x : Z) :
  wf self → is_leaf (tree self) x → 1 ≤ x ≤ last_leaf (tree self).
Proof.
  intros Hwf Hx. pose proof (first_leaf_pos _ Hwf). unfold is_leaf in Hx. lia.
Qed.

(** When [len(self.S) == self.n] the cover is the root. *)
Lemma root_cover (self : AACS) :
  wf self → Z.of_nat (size (self_S self)) = n (tree self) → 1 ∈ S_cover self.
Proof.
  intros Hwf Hsize.
  destruct (get_S_cover_ok self) as (cover & Hcov & _ & _ & Hin).
  { intros i Hi. apply (wf_T _ Hwf) in Hi. apply (wf_leaf_range _ _ Hwf) in Hi. lia. }
  rewrite (wf_cover _ Hwf) in Hcov. injection Hcov as <-.
  apply Hin. by rewrite Hsize, Z.eqb_refl.
Qed.

Lemma valid_leaf_covered (self : AACS) (x : Z) :
  wf self → x ∈ self_S self →
  self_T self ≠ ∅ ∨ n (tree self) = 2 ^ t (tree self) →
  ∃ u, u ∈ S_cover self ∧ on_path u x = true.
Proof.
  intros Hwf Hx Hcase. apply (wf_S _ Hwf) in Hx as [Hleaf HxT].
  pose proof (wf_leaf_range _ _ Hwf Hleaf) as Hrange.
  destruct (Z.eq_dec (Z.of_nat (size (self_S self))) (n (tree self))) as [Hsize|Hsize].
  - exists 1. split; [by apply root_cover|apply root_on_path; lia].
  - apply leaf_covered; try done.
    assert (HT : self_T self ≠ ∅).
    { destruct Hcase as [?|Hpow]; [done|]. intros Hempty.
      pose proof (wf_sizes _ Hwf) as Hs. rewrite Hempty, size_empty in Hs. lia. }
    apply set_choose_L in HT as [i Hi]. exists i. split; [done|]. by intros ->.
Qed.

Lemma leaf_covered_two (self : AACS) (i j x : Z) :
  wf self → i ∈ self_T self → j ∈ self_T self → i ≠ j →
  is_leaf (tree self) x →
  ∃ u, u ∈ S_cover self ∧ on_path u x = true.
Proof.
  intros Hwf Hi Hj Hne Hleaf.
  pose proof (wf_leaf_range _ _ Hwf Hleaf) as Hrange.
  destruct (Z.eq_dec (Z.of_nat (size (self_S self))) (n (tree self))) as [Hsize|Hsize].
  - exists 1. split; [by apply root_cover|apply root_on_path; lia].
  - apply leaf_covered; try done.
    destruct (Z.eq_dec i x) as [->|Hix]; [by exists j|by exists i].
Qed.

Lemma Ok_inj {A} (a b : A) : Ok a = Ok b → a = b.
Proof. by intros [= ->]. Qed.

Section EndToEnd.
Context `{C : Cipher}.

(** X18.  A valid device gets every message back.  On a reachable
    engine in which some device is revoked, or whose number of devices
    is a power of two, with a cipher that keeps lengths, inverts and is
    ideal, and a random source none of whose key-block vectors starts
    with the separator: for every device [x] in [S] and every message,
    [decrypt(x, encrypt(m))] is [m]. *)
Theorem valid_device_decrypts (self : AACS) (x : Z) (m : bytes) (r : rng) :
  keeps_length C → decrypt_inverts C → marker_ideal C →
  reachable self → x ∈ self_S self →
  self_T self ≠ ∅ ∨ n (tree self) = 2 ^ t (tree self) →
  vectors_clear r (length (S_cover self)) →
  ∃ c r', encrypt self m r = Ok (c, r') ∧ decrypt self x c = Ok m.
Proof.
  intros Hlength Hinverse Hideal Hreach Hx Hcase Hclear.
  pose proof (reachable_wf _ Hreach) as Hwf.
  apply (device_on_cover_decrypts Hlength Hinverse Hideal); try done.
  - apply (wf_leaf_range _ _ Hwf). by apply (wf_S _ Hwf) in Hx as [? _].
  - by apply valid_leaf_covered.
Qed.

(** X19.  Two revocations revoke nobody.  On a reachable engine in
    which two different devices are revoked, under the same assumptions
    on cipher and random source, every leaf of the tree gets every
    message back: the valid devices, and the revoked ones as well. *)
Theorem two_revocations_revoke_nobody (self : AACS) (i j x : Z) (m : bytes)
        (r : rng) :
  keeps_length C → decrypt_inverts C → marker_ideal C →
  reachable self →
  i ∈ self_T self → j ∈ self_T self → i ≠ j →
  is_leaf (tree self) x →
  vectors_clear r (length (S_cover self)) →
  ∃ c r', encrypt self m r = Ok (c, r') ∧ decrypt self x c = Ok m.
Proof.
  intros Hlength Hinverse Hideal Hreach Hi Hj Hne Hx Hclear.
  pose proof (reachable_wf _ Hreach) as Hwf.
  apply (device_on_cover_decrypts Hlength Hinverse Hideal); try done.
  - by apply wf_leaf_range.
  - by apply (leaf_covered_two self i j).
Qed.

(** X20.  One revocation does what it should.  On a reachable engine
    with exactly one revoked device [x] and [len(self.S) != self.n],
    the keys of the tree being pairwise different, and under the same
    assumptions on cipher and random source: [encrypt(m)] returns a
    stream on which [decrypt] raises [KeyNotFound] for device [x] and
    returns [m] for every valid device. *)
Theorem single_revocation_excludes (self : AACS) (x : Z) (m : bytes) (r : rng) :
  keeps_length C → decrypt_inverts C → marker_ideal C →
  reachable self →
  self_T self = {[ x ]} →
  Z.of_nat (size (self_S self)) ≠ n (tree self) →
  (∀ u v, 1 ≤ u ≤ last_leaf (tree self) → 1 ≤ v ≤ last_leaf (tree self) →
          key_at self u = key_at self v → u = v) →
  vectors_clear r (length (S_cover self)) →
  ∃ c r',
    encrypt self m r = Ok (c, r')
    ∧ decrypt self x c = Raise (KeyNotFound "The key couldn't be retrieved")
    ∧ ∀ y, y ∈ self_S self → decrypt self y c = Ok m.
Proof.
  intros Hlength Hinverse Hideal Hreach HT Hsize Hkeys Hclear.
  pose proof (reachable_wf _ Hreach) as Hwf.
  assert (HxT : x ∈ self_T self) by (rewrite HT; set_solver).
  pose proof (wf_T _ Hwf x HxT) as Hleaf.
  destruct (device_off_cover_fails Hlength Hinverse Hideal self x m r Hwf)
    as (c & r' & Hrun & Hdec); try done.
  { by apply wf_leaf_range. }
  { intros u Hu. destruct (on_path u x) eqn:Hon; [exfalso|done].
    destruct (proj1 (leaf_covered self x Hwf Hsize Hleaf)) as (i & Hi & Hne);
      [by exists u|].
    rewrite HT in Hi. set_solver. }
  exists c, r'. split; [done|]. split; [done|]. intros y Hy.
  destruct (device_on_cover_decrypts Hlength Hinverse Hideal self y m r Hwf)
    as (c2 & r2 & Hrun2 & Hdec2); try done.
  { apply (wf_leaf_range _ _ Hwf). by apply (wf_S _ Hwf) in Hy as [? _]. }
  { apply valid_leaf_covered; try done. left. rewrite HT. set_solver. }
  rewrite Hrun in Hrun2. apply Ok_inj in Hrun2. by injection Hrun2 as -> _.
Qed.

(** X21.  The length of a broadcast.  On a reachable engine, for a
    cipher that keeps lengths, [encrypt(m)] returns
    [48 * len(S_cover) + 11 + 16 + 16 * (len(m) // 16 + 1)] bytes, and
    takes [16 * (len(S_cover) + 2)] bytes from the random source: the
    content key, one vector for each key block and one for the
    content. *)
Theorem encrypt_length (self : AACS) (m : bytes) (r : rng) :
  keeps_length C → reachable self →
  ∃ c,
    encrypt self m r
    = Ok (c, Rng (tape r) (pos r + 16 * (length (S_cover self) + 2)))
    ∧ len c = 48 * len (S_cover self) + 11 + 16 + 16 * (len m / 16 + 1).
Proof.
  intros Hlength Hreach. pose proof (reachable_wf _ Hreach) as Hwf.
  destruct (encrypt_ok self m r Hwf) as (padded & Hpad & Hmod & Hrun).
  cbv zeta in Hrun. eexists. split.
  - rewrite Hrun. do 3 f_equal. lia.
  - set (k := draw r 0).
    set (r1 := Rng (tape r) (pos r + 16)).
    set (iv := draw r1 (16 * length (S_cover self))).
    assert (Hct : length (cbc_encrypt k iv padded) = length padded).
    { apply Hlength, aes_check_ok; try done; apply draw_length. }
    destruct (add_padding_ok m) as (v & _ & Hpad').
    rewrite Hpad in Hpad'. injection Hpad' as Hpadded.
    destruct (padded_length m v) as [Hlen _]. rewrite <- Hpadded in Hlen.
    pose proof (Z.div_mod (len m) 16 ltac:(lia)) as Hdm.
    unfold len in *. rewrite !length_app, Hct.
    rewrite (key_blocks_length self k Hlength Hwf (draw_length r 0))
      by apply (wf_cover_nodes _ Hwf).
    rewrite TAG_SEPARATOR_length. unfold iv. rewrite draw_length. lia.
Qed.
End EndToEnd.

(** ** decrypt always comes back for a node id from 1 on *)

Lemma obind_returns {A B} (x : outcome A) (f : A → outcome B) :
  x ≠ Diverge → (∀ a, f a ≠ Diverge) → (x ≫= f) ≠ Diverge.
Proof. intros Hx Hf. destruct x as [a| |]; [apply Hf|done|done]. Qed.

Lemma remove_padding_returns (m : bytes) : remove_padding m ≠ Diverge.
Proof. unfold remove_padding. by destruct (last m). Qed.

Lemma keys_of_returns (self : AACS) (ids : list Z) : keys_of self ids ≠ Diverge.
Proof.
  induction ids as [|id ids IH]; [done|]. cbn [keys_of].
  apply obind_returns; [unfold node_key; by destruct (_ !! _)|].
  intros key. apply obind_returns; [done|]. by intros keys.
Qed.

Lemma get_known_keys_returns (self : AACS) (node_id : Z) :
  1 ≤ node_id → get_known_keys self node_id ≠ Diverge.
Proof.
  intros Hid. destruct (get_path_to_root_total node_id Hid) as (more & Hpath & _).
  unfold get_known_keys. rewrite Hpath. apply keys_of_returns.
Qed.

Section Returns.
Context `{C : Cipher}.

Lemma AES_decrypt_returns (key iv ciphertext : bytes) :
  AES_decrypt key iv ciphertext ≠ Diverge.
Proof.
  unfold AES_decrypt, aes_check.
  destruct (negb (aes_key_ok key)); [done|].
  destruct (negb (length iv =? 16)%nat); [done|].
  by destruct (negb (length ciphertext mod 16 =? 0)%nat).
Qed.

Lemma try_keys_returns (known_keys : list bytes) (c_u : bytes) :
  try_keys known_keys c_u ≠ Diverge.
Proof.
  induction known_keys as [|k_u known_keys IH]; [done|]. cbn [try_keys].
  apply obind_returns; [apply AES_decrypt_returns|].
  intros k. by destruct (startswith k TAG_VALID).
Qed.

Lemma first_key_returns (known : outcome (list bytes)) (blocks : list bytes) :
  known ≠ Diverge → first_key known blocks ≠ Diverge.
Proof.
  intros Hknown. induction blocks as [|block blocks IH]; [done|].
  cbn [first_key]. apply obind_returns; [done|]. intros known_keys.
  apply obind_returns; [apply try_keys_returns|]. by intros [k|].
Qed.

(** X22.  The loop of [decrypt] ends.  For every engine, every stream
    and every node id from 1 on, [decrypt] returns a byte string or
    raises an exception; it never runs for ever. *)
Theorem decrypt_returns_or_raises (self : AACS) (node_id : Z) (c : bytes) :
  1 ≤ node_id →
  (∃ m, decrypt self node_id c = Ok m) ∨ (∃ e, decrypt self node_id c = Raise e).
Proof.
  intros Hid.
  assert (Hret : decrypt self node_id c ≠ Diverge).
  { rewrite decrypt_spec. apply obind_returns.
    - by apply first_key_returns, get_known_keys_returns.
    - intros [k|]; [|done]. destruct (at_separator (strides c)) as [s|]; [|done].
      cbv zeta. apply obind_returns; [apply AES_decrypt_returns|].
      apply remove_padding_returns. }
  destruct (decrypt self node_id c) as [m|e|]; [left; by exists m|right; by exists e|done].
Qed.
End Returns.

(** ** The theorems of this part on concrete engines *)

Lemma engine_8_vectors_clear :
  vectors_clear (Rng demo_tape 240) (length (S_cover engine_8)).
Proof. unfold vectors_clear. vm_decide. Qed.

Lemma engine_8_keys_differ (u v : Z) :
  1 ≤ u ≤ last_leaf (tree engine_8) → 1 ≤ v ≤ last_leaf (tree engine_8) →
  key_at engine_8 u = key_at engine_8 v → u = v.
Proof.
  change (last_leaf (tree engine_8)) with 15. intros Hu Hv.
  assert (Hall : Forall (fun u => Forall (fun v =>
                    key_at engine_8 u = key_at engine_8 v → u = v) (seqZ 1 15))
                  (seqZ 1 15)) by vm_decide.
  rewrite Forall_forall in Hall.
  specialize (Hall u ltac:(apply elem_of_seqZ; lia)).
  rewrite Forall_forall in Hall.
  exact (Hall v ltac:(apply elem_of_seqZ; lia)).
Qed.

Lemma valid_device_decrypts_witness :
  ∃ c r',
    encrypt (H := xor_cipher) engine_8 demo_message (Rng demo_tape 240)
    = Ok (c, r')
    ∧ decrypt (H := xor_cipher) engine_8 12 c = Ok demo_message.
Proof.
  apply (valid_device_decrypts (C := xor_cipher) engine_8 12 demo_message
           (Rng demo_tape 240)
           xor_cipher_keeps_length xor_cipher_inverse xor_cipher_wrong_key
           engine_8_reachable).
  - vm_decide.
  - right. vm_compute. reflexivity.
  - exact engine_8_vectors_clear.
Defined.

Lemma two_revocations_revoke_nobody_witness :
  ∃ c r',
    encrypt (H := xor_cipher) engine_8_9 demo_message (Rng demo_tape 240)
    = Ok (c, r')
    ∧ decrypt (H := xor_cipher) engine_8_9 9 c = Ok demo_message.
Proof.
  apply (two_revocations_revoke_nobody (C := xor_cipher) engine_8_9 8 9 9
           demo_message (Rng demo_tape 240)
           xor_cipher_keeps_length xor_cipher_inverse xor_cipher_wrong_key
           (engine_reachable 8 [8; 9] demo_rng (Rng demo_tape 240) engine_8_9
              engine_8_9_run)).
  - vm_decide.
  - vm_decide.
  - lia.
  - split; vm_compute; discriminate.
  - exact demo_vectors_clear.
Defined.

Lemma single_revocation_excludes_witness :
  ∃ c r',
    encrypt (H := xor_cipher) engine_8 demo_message (Rng demo_tape 240)
    = Ok (c, r')
    ∧ decrypt (H := xor_cipher) engine_8 8 c
      = Raise (KeyNotFound "The key couldn't be retrieved")
    ∧ ∀ y, y ∈ self_S engine_8 →
           decrypt (H := xor_cipher) engine_8 y c = Ok demo_message.
Proof.
  apply (single_revocation_excludes (C := xor_cipher) engine_8 8 demo_message
           (Rng demo_tape 240)
           xor_cipher_keeps_length xor_cipher_inverse xor_cipher_wrong_key
           engine_8_reachable).
  - vm_compute. reflexivity.
  - vm_compute. discriminate.
  - exact engine_8_keys_differ.
  - exact engine_8_vectors_clear.
Defined.

Lemma encrypt_length_witness :
  ∃ c,
    encrypt (H := xor_cipher) engine_8 demo_message (Rng demo_tape 240)
    = Ok (c, Rng (tape (Rng demo_tape 240))
                 (pos (Rng demo_tape 240) + 16 * (length (S_cover engine_8) + 2)))
    ∧ len c = 48 * len (S_cover engine_8) + 11 + 16 + 16 * (len demo_message / 16 + 1).
Proof.
  apply (encrypt_length (C := xor_cipher) engine_8 demo_message (Rng demo_tape 240)
           xor_cipher_keeps_length engine_8_reachable).
Defined.

Lemma decrypt_returns_or_raises_witness :
  (∃ m, decrypt (H := xor_cipher) engine_8 9 demo_stream = Ok m)
  ∨ (∃ e, decrypt (H := xor_cipher) engine_8 9 demo_stream = Raise e).
Proof.
  apply (decrypt_returns_or_raises (C := xor_cipher) engine_8 9 demo_stream). lia.
Defined.

(** ** The shape of the cover *)

Lemma path_nodes_ge (i j : Z) (path : list Z) :
  1 ≤ i → get_path_to_root i = Ok path → j ∈ path → 1 ≤ j ≤ i.
Proof.
  intros Hi Hpath Hj.
  destruct (get_path_to_root_total i Hi) as (more & Hrun & Hall & _).
  rewrite Hrun in Hpath. injection Hpath as <-.
  apply elem_of_cons in Hj as [->|Hj]; [lia|].
  rewrite Forall_forall in Hall. apply Hall in Hj. lia.
Qed.

(** X23.  The cover of a reachable engine.  It is strictly ascending
    and made of node ids of the tree.  When [len(self.S) == self.n] it
    is [(1,)].  Otherwise it does not hold the root, and it is empty
    exactly when no device is revoked or the tree is the single node
    1. *)
Theorem cover_shape (self : AACS) :
  reachable self →
  StronglySorted Z.lt (S_cover self)
  ∧ (∀ u, u ∈ S_cover self → 1 ≤ u ≤ last_leaf (tree self))
  ∧ (Z.of_nat (size (self_S self)) = n (tree self) → S_cover self = [1])
  ∧ (Z.of_nat (size (self_S self)) ≠ n (tree self) →
     (1 ∉ S_cover self)
     ∧ (S_cover self = [] ↔ self_T self = ∅ ∨ t (tree self) = 0)).
Proof.
  intros Hreach. pose proof (reachable_wf _ Hreach) as Hwf.
  destruct (wf_cover_nodes _ Hwf) as (Hs & Hnd & Hrange).
  assert (HT : ∀ i, i ∈ self_T self → 1 ≤ i).
  { intros i Hi. apply (wf_T _ Hwf), (wf_leaf_range _ _ Hwf) in Hi. lia. }
  split; [by apply sorted_le_NoDup_lt|]. split; [done|]. split.
  - intros Hsize. pose proof (wf_cover _ Hwf) as Hcov.
    unfold get_S_cover in Hcov. rewrite Hsize, Z.eqb_refl in Hcov.
    cbn in Hcov. rewrite elements_singleton in Hcov. by injection Hcov as <-.
  - intros Hsize.
    destruct (get_S_cover_ok self HT) as (cover & Hcov & _ & _ & Hin).
    rewrite (wf_cover _ Hwf) in Hcov. injection Hcov as <-.
    destruct (Z.eqb_spec (Z.of_nat (size (self_S self))) (n (tree self))) as [?|_];
      [done|].
    split.
    + intros H1. apply Hin in H1 as (i & path & j & Hi & Hpath & Hj & Hne & Heq).
      pose proof (path_nodes_ge i j path (HT i Hi) Hpath Hj) as Hji.
      pose proof (get_sibling_ge j ltac:(lia)). lia.
    + pose proof (wf_t _ Hwf) as Ht. split.
      * intros Hnil.
        destruct (Z.eq_dec (t (tree self)) 0) as [?|Hne]; [by right|left].
        apply elem_of_equiv_empty_L. intros i Hi.
        pose proof (wf_T _ Hwf i Hi) as Hleaf. unfold is_leaf in Hleaf.
        rewrite (wf_first _ Hwf) in Hleaf.
        assert (2 ^ 1 ≤ 2 ^ t (tree self)) by (apply Z.pow_le_mono_r; lia).
        destruct (get_path_to_root_total i ltac:(lia)) as (more & Hpath & _).
        assert (Hsib : get_sibling i ∈ S_cover self).
        { apply Hin. exists i, (i :: more), i.
          split; [done|]. split; [done|]. split; [apply list_elem_of_here|].
          split; [lia|done]. }
        rewrite Hnil in Hsib. by apply elem_of_nil in Hsib.
      * intros Hcase. apply elem_of_nil_inv. intros x Hx.
        apply Hin in Hx as (i & path & j & Hi & Hpath & Hj & Hne & _).
        destruct Hcase as [Hempty|Hzero]; [rewrite Hempty in Hi; set_solver|].
        pose proof (wf_T _ Hwf i Hi) as Hleaf. unfold is_leaf in Hleaf.
        rewrite (wf_first _ Hwf), (wf_last _ Hwf), Hzero in Hleaf.
        change (2 ^ 0) with 1 in Hleaf. change (2 ^ (0 + 1) - 1) with 1 in Hleaf.
        pose proof (path_nodes_ge i j path ltac:(lia) Hpath Hj). lia.
Qed.

Lemma cover_shape_witness :
  StronglySorted Z.lt (S_cover engine_8)
  ∧ (∀ u, u ∈ S_cover engine_8 → 1 ≤ u ≤ last_leaf (tree engine_8))
  ∧ (Z.of_nat (size (self_S engine_8)) = n (tree engine_8) → S_cover engine_8 = [1])
  ∧ (Z.of_nat (size (self_S engine_8)) ≠ n (tree engine_8) →
     (1 ∉ S_cover engine_8)
     ∧ (S_cover engine_8 = [] ↔ self_T engine_8 = ∅ ∨ t (tree engine_8) = 0)).
Proof. apply (cover_shape engine_8). exact engine_8_reachable. Defined.

(** ** Revocation and the receiving side *)

Lemma keys_of_tree (a b : AACS) (ids : list Z) :
  tree a = tree b → keys_of a ids = keys_of b ids.
Proof.
  intros Ht. induction ids as [|id ids IH]; [done|].
  cbn [keys_of]. unfold node_key. by rewrite Ht, IH.
Qed.

Lemma get_known_keys_tree (a b : AACS) (node_id : Z) :
  tree a = tree b → get_known_keys a node_id = get_known_keys b node_id.
Proof.
  intros Ht. unfold get_known_keys.
  destruct (get_path_to_root node_id) as [path| |]; [|done|done].
  by apply keys_of_tree.
Qed.

Lemma revoke_all_tree (ids : list Z) : ∀ self self' : AACS,
  revoke_all self ids = Ok self' → tree self' = tree self.
Proof.
  induction ids as [|id ids IH]; intros self self' Hrun.
  - by injection Hrun as <-.
  - cbn [revoke_all] in Hrun.
    destruct (revoke self id) as [[b self1]|e|] eqn:Hrev; [|done|done].
    cbn [mbind outcome_bind obind snd] in Hrun.
    rewrite (IH _ _ Hrun). by apply (revoke_tree _ _ _ _ Hrev).
Qed.

(** X24.  [revoke] does not reach the receiving side.  [decrypt] reads
    nothing of the engine but the keys of the tree, which [revoke]
    leaves alone: after any list of revocations [decrypt] answers every
    call as it did before.  A stream that a device could read stays
    readable to it when it is revoked. *)
Theorem decrypt_ignores_revocation `{C : Cipher} (self : AACS) (ids : list Z)
        (self' : AACS) (node_id : Z) (c : bytes) :
  revoke_all self ids = Ok self' →
  decrypt self' node_id c = decrypt self node_id c.
Proof.
  intros Hrun. apply revoke_all_tree in Hrun.
  by rewrite !decrypt_spec, (get_known_keys_tree self' self node_id Hrun).
Qed.

Lemma demo_stream_for_9 :
  decrypt (H := xor_cipher) demo_engine 9 demo_stream = Ok demo_message.
Proof. vm_compute. reflexivity. Qed.

Lemma decrypt_ignores_revocation_witness :
  revoke_all demo_engine [9] = Ok (returned no_engine (revoke_all demo_engine [9]))
  ∧ decrypt (H := xor_cipher) (returned no_engine (revoke_all demo_engine [9]))
            9 demo_stream
    = decrypt (H := xor_cipher) demo_engine 9 demo_stream.
Proof.
  assert (Hrun : revoke_all demo_engine [9]
                 = Ok (returned no_engine (revoke_all demo_engine [9])))
    by (vm_compute; reflexivity).
  split; [exact Hrun|].
  exact (decrypt_ignores_revocation (C := xor_cipher) demo_engine [9] _ 9
           demo_stream Hrun).
Defined.

(** ** The engine as the constructor leaves it *)

(** X25.  [AACS(n)] for [n >= 1] returns the engine in which every
    leaf is valid and none is revoked, having taken [16 * last_leaf]
    bytes from the random source.  Its cover is [(1,)] when [n] is
    [2**t], a power of two, and empty for every other [n]. *)
Theorem fresh_engine (n0 : Z) (r : rng) :
  1 ≤ n0 →
  ∃ self,
    AACS_init n0 r
    = Ok (self, Rng (tape r) (pos r + 16 * Z.to_nat (last_leaf (tree self))))
    ∧ n (tree self) = n0
    ∧ self_S self = list_to_set (get_leaves (tree self))
    ∧ self_T self = ∅
    ∧ (n0 = 2 ^ t (tree self) → S_cover self = [1])
    ∧ (n0 ≠ 2 ^ t (tree self) → S_cover self = []).
Proof.
  intros Hn.
  destruct (AACS_init_shape n0 r Hn) as (keys & r' & Hrun).
  destruct (BinaryTree_init_inv _ _ _ _ (AACS_init_tree _ _ _ _ Hrun))
    as (_ & _ & _ & _ & _ & _ & Hr' & _).
  eexists. split; [rewrite Hrun; by rewrite Hr'|].
  cbn [tree self_S self_T S_cover n t get_leaves first_leaf last_leaf].
  split; [done|]. split; [done|]. split; [done|].
  destruct (Z.eqb_spec (2 ^ Z.log2_up n0) n0) as [Heq|Hne]; split; congruence.
Qed.

Lemma fresh_engine_witness :
  ∃ self,
    AACS_init 3 demo_rng
    = Ok (self, Rng (tape demo_rng)
                    (pos demo_rng + 16 * Z.to_nat (last_leaf (tree self))))
    ∧ n (tree self) = 3
    ∧ self_S self = list_to_set (get_leaves (tree self))
    ∧ self_T self = ∅
    ∧ (3 = 2 ^ t (tree self) → S_cover self = [1])
    ∧ (3 ≠ 2 ^ t (tree self) → S_cover self = []).
Proof. apply (fresh_engine 3 demo_rng). lia. Defined.

(** X26.  A number of devices that is not a power of two locks every
    device out until the first revocation.  On the engine that
    [AACS(n)] returns for such an [n], whatever the cipher, the random
    source and the message, [encrypt] returns a stream that starts with
    the separator, and [decrypt] of it raises [KeyNotFound] for every
    node id. *)
Theorem fresh_engine_locks_out `{C : Cipher} (n0 : Z) (r : rng) (self : AACS)
        (r1 r2 : rng) (m : bytes) :
  AACS_init n0 r = Ok (self, r1) →
  n0 ≠ 2 ^ t (tree self) →
  ∃ c r3,
    encrypt self m r2 = Ok (c, r3)
    ∧ startswith c TAG_SEPARATOR = true
    ∧ ∀ node_id,
        decrypt self node_id c
        = Raise (KeyNotFound "The key couldn't be retrieved").
Proof.
  intros Hinit Hpow.
  pose proof (reachable_wf _ (reach_init n0 r self r1 Hinit)) as Hwf.
  destruct (BinaryTree_init_inv _ _ _ _ (AACS_init_tree _ _ _ _ Hinit))
    as (Hn & _).
  destruct (AACS_init_ok n0 r Hn) as (self0 & r0 & Hrun & _ & _ & Ht & _ & _ & Hcov).
  rewrite Hinit in Hrun. injection Hrun as <- <-.
  rewrite Ht in Hpow.
  destruct (Z.eqb_spec (2 ^ Z.log2_up n0) n0) as [?|_]; [congruence|].
  destruct (encrypt_ok self m r2 Hwf) as (padded & _ & _ & Hrun).
  cbv zeta in Hrun. rewrite Hcov in Hrun.
  cbn [key_blocks imap concat app] in Hrun.
  eexists _, _. split; [exact Hrun|]. split; [apply startswith_app|].
  intros node_id. rewrite decrypt_spec. unfold scanned.
  rewrite strides_cons by done. cbn [until_separator].
  by rewrite startswith_app.
Qed.

Lemma fresh_engine_locks_out_witness :
  ∃ c r3,
    encrypt (H := xor_cipher) (returned no_engine (run (AACS_init 3)))
            demo_message (Rng demo_tape 112)
    = Ok (c, r3)
    ∧ startswith c TAG_SEPARATOR = true
    ∧ ∀ node_id,
        decrypt (H := xor_cipher) (returned no_engine (run (AACS_init 3)))
                node_id c
        = Raise (KeyNotFound "The key couldn't be retrieved").
Proof.
  apply (fresh_engine_locks_out (C := xor_cipher) 3 demo_rng
           (returned no_engine (run (AACS_init 3))) (Rng demo_tape 112)
           (Rng demo_tape 112) demo_message).
  - vm_compute. reflexivity.
  - vm_compute. discriminate.
Defined.

(** ** __main__.py: the revocations of one menu round *)

Lemma revoke_devices_revoke_all (devices : list Z) : ∀ aacs : AACS,
  revoke_devices aacs devices
  = revoke_all aacs (device_id_to_node_id (t (tree aacs)) <$> devices).
Proof.
  induction devices as [|id devices IH]; intros aacs; [done|].
  cbn [revoke_devices revoke_all fmap list_fmap].
  destruct (revoke aacs (device_id_to_node_id (t (tree aacs)) id))
    as [[b aacs1]|e|] eqn:Hrev; [|done|done].
  cbn [mbind outcome_bind obind snd].
  by rewrite IH, (revoke_tree _ _ _ _ Hrev).
Qed.

(** X27.  The revocation loop of [main] on the engine [AACS(n)]
    returns, for device ids between 1 and [n]: every call of [revoke]
    returns, the tree stays, the revoked set becomes the leaves
    [d + 2**t - 1] of the device ids [d] named and the valid set the
    other leaves.  The engine the loop ends in does not depend on the
    order in which the set of device ids is gone through. *)
Theorem revoke_devices_spec (n0 : Z) (r : rng) (aacs : AACS) (r' : rng)
        (devices : list Z) :
  AACS_init n0 r = Ok (aacs, r') →
  (∀ d, d ∈ devices → 1 ≤ d ≤ n0) →
  ∃ aacs',
    revoke_devices aacs devices = Ok aacs'
    ∧ tree aacs' = tree aacs
    ∧ (∀ x, x ∈ self_T aacs' ↔
            ∃ d, d ∈ devices ∧ x = device_id_to_node_id (t (tree aacs)) d)
    ∧ (∀ x, x ∈ self_S aacs' ↔ is_leaf (tree aacs) x ∧ x ∉ self_T aacs')
    ∧ get_S_cover aacs' = Ok (S_cover aacs')
    ∧ ∀ devices' : list Z,
        (∀ d, d ∈ devices' ↔ d ∈ devices) →
        revoke_devices aacs devices' = Ok aacs'.
Proof.
  intros Hinit Hdev.
  destruct (BinaryTree_init_inv _ _ _ _ (AACS_init_tree _ _ _ _ Hinit))
    as (Hn & _ & Ht & _ & Hfirst & Hlast & _).
  destruct (AACS_init_ok n0 r Hn) as (aacs0 & r0 & Hrun & Hwf & _ & _ & HT & HS & _).
  rewrite Hinit in Hrun. injection Hrun as <- <-.
  destruct (tree_size_bounds n0 Hn) as [Htpos Hbounds]. rewrite <- Ht in *.
  pose proof (pow2_succ (t (tree aacs)) Htpos) as Hpow.
  set (f := device_id_to_node_id (t (tree aacs))).
  destruct (revoke_all_ok (f <$> devices) aacs Hwf)
    as (aacs' & Hrev & Hwf' & Htree & HS' & HT').
  exists aacs'. rewrite revoke_devices_revoke_all. fold f.
  split; [done|]. split; [done|].
  assert (HTx : ∀ x, x ∈ self_T aacs' ↔ ∃ d, d ∈ devices ∧ x = f d).
  { intros x. rewrite HT', HT, elem_of_union, elem_of_intersection,
      elem_of_list_to_set, list_elem_of_fmap, HS. split.
    - intros [Hx|[_ (d & -> & Hd)]]; [set_solver|]. by exists d.
    - intros (d & Hd & ->). right. split; [|by exists d].
      specialize (Hdev d Hd). unfold is_leaf, f, device_id_to_node_id.
      rewrite Hfirst, Hlast, Hpow. lia. }
  split; [done|]. split; [|split; [apply (wf_cover _ Hwf')|]].
  - intros x. rewrite (wf_S _ Hwf' x). by rewrite Htree.
  - intros devices' Hsame. rewrite revoke_devices_revoke_all. fold f.
    destruct (revoke_all_ok (f <$> devices') aacs Hwf)
      as (aacs2 & Hrev2 & Hwf2 & Htree2 & HS2 & HT2).
    rewrite Hrev2. f_equal.
    assert (Hset : (list_to_set (f <$> devices') : gset Z)
                   = list_to_set (f <$> devices)).
    { apply set_eq. intros x. rewrite !elem_of_list_to_set, !list_elem_of_fmap.
      split; intros (d & -> & Hd); exists d; (split; [done|]); by apply Hsame. }
    apply wf_ext; try done; congruence.
Qed.

Lemma revoke_devices_spec_witness :
  ∃ aacs',
    revoke_devices demo_engine [2; 1] = Ok aacs'
    ∧ tree aacs' = tree demo_engine
    ∧ (∀ x, x ∈ self_T aacs' ↔
            ∃ d, d ∈ [2; 1] ∧ x = device_id_to_node_id (t (tree demo_engine)) d)
    ∧ (∀ x, x ∈ self_S aacs' ↔ is_leaf (tree demo_engine) x ∧ x ∉ self_T aacs')
    ∧ get_S_cover aacs' = Ok (S_cover aacs')
    ∧ ∀ devices' : list Z,
        (∀ d, d ∈ devices' ↔ d ∈ [2; 1]) →
        revoke_devices demo_engine devices' = Ok aacs'.
Proof.
  apply (revoke_devices_spec NUMBER_OF_DEVICES demo_rng demo_engine
           (Rng demo_tape 240) [2; 1]).
  - vm_compute. reflexivity.
  - intros d Hd. unfold NUMBER_OF_DEVICES.
    apply elem_of_cons in Hd as [->|Hd]; [lia|].
    apply elem_of_cons in Hd as [->|Hd]; [lia|]. by apply elem_of_nil in Hd.
Defined.
